(** * A feed-forward neural network trainer (scripts/NN.py)

    Shallow embedding of the [Loss] and [Activation] class families and of
    [NeuralNetwork] (forward, backward, step, clear, fit, minibatch_reader,
    minibatch_fit, predict and the constructor), and of the sequence and
    dataset utilities of scripts/io.py, followed by the properties
    established about them.

    Modelling conventions.
    - numpy scalars are an abstract type [F] with the operations of the
      class [Scalar]; the structural results hold for every such [F].  Two
      instances are used: IEEE binary64 numbers (Rocq's primitive floats,
      which compute and have NaN) and the real numbers (exact arithmetic,
      where [exp], [ln] and [max] are available).
    - a 1-D array is a [list F], a 2-D array a list of rows.  Samples are
      the rows of a 2-D dataset, as [fit] obtains them from [zip(X, Y)], so
      the activations cached by [forward] are 1-D.  A [(1, n)] row and an
      [(n, 1)] column produced by [reshape] carry the same data in the same
      order and are both represented by the list of their [n] entries.
    - reductions ([np.sum], [np.mean], [@]) add from left to right, starting
      from the first element.
    - arrays are values.  The one in-place update, [-=] in [step], acts
      on the weight and bias arrays; [backward] replaces every entry of its
      shallow copies of the parameter lists by a fresh array before it
      appends them, so on a network with one layer more than it has weight
      matrices no array is shared between parameters and accumulators.
    - a 2-D array is known by its rows, so one without rows has no row
      length: the shape checks of [@] are modelled for arrays with rows.
    - Python exceptions are the [Raise] outcomes of the [result] monad;
      the [while True] loop of [minibatch_reader] runs on fuel.
    - [fit] and [minibatch_fit] are modelled with [verbose=False] (their
      default): the losses are computed but nothing is printed. *)

From Stdlib Require Import Reals Lra Lia ZArith PrimFloat Uint63.
From stdpp Require Import base list.
From Stdlib Require Import Ascii FloatOps SpecFloat.
From stdpp Require Import gmap sorting.

Set Default Proof Using "Type".

(** ** Exceptions and results *)

Inductive exn : Set :=
| AssertionError
| ValueError
| IndexError
| AttributeError.

Inductive result (A : Type) : Type :=
| Ok (a : A)
| Raise (e : exn)
| OutOfFuel.
Arguments Ok {A} a.
Arguments Raise {A} e.
Arguments OutOfFuel {A}.

Global Instance result_ret : MRet result := @Ok.
Global Instance result_bind : MBind result := λ A B k m,
  match m with
  | Ok a => k a
  | Raise e => Raise e
  | OutOfFuel => OutOfFuel
  end.

(** [for x in l: s = body(x, s)], stopping at the first exception. *)
Fixpoint for_each {S A : Type} (body : A → S → result S) (l : list A) (s : S)
  : result S :=
  match l with
  | [] => Ok s
  | x :: l' => s' ← body x s; for_each body l' s'
  end.

(** [[body(x) for x in l]], stopping at the first exception. *)
Fixpoint traverse {A B : Type} (body : A → result B) (l : list A)
  : result (list B) :=
  match l with
  | [] => Ok []
  | x :: l' => y ← body x; ys ← traverse body l'; Ok (y :: ys)
  end.

(** [l[i]] and [l[i] = v] on a Python list, for [i >= 0]. *)
Definition getitem {A : Type} (l : list A) (i : nat) : result A :=
  match l !! i with
  | Some x => Ok x
  | None => Raise IndexError
  end.

Definition setitem {A : Type} (l : list A) (i : nat) (v : A) : result (list A) :=
  if decide (i < length l) then Ok (<[i:=v]> l) else Raise IndexError.

(** [l[-1]]. *)
Definition getlast {A : Type} (l : list A) : result A :=
  match last l with
  | Some x => Ok x
  | None => Raise IndexError
  end.

Definition from_some {A : Type} (e : exn) (o : option A) : result A :=
  match o with
  | Some x => Ok x
  | None => Raise e
  end.

(** ** Scalars *)

Class Scalar (F : Type) : Type := {
  fzero : F;
  fone : F;
  fadd : F → F → F;
  fsub : F → F → F;
  fmul : F → F → F;
  fdiv : F → F → F;
  fneg : F → F;
  fof_nat : nat → F;      (* an integer count converted to a float *)
  fge : F → F → bool      (* [x >= y] *)
}.

(** [np.exp], [np.log] and the binary maximum behind [np.max]. *)
Class Elementary (F : Type) : Type := {
  fexp : F → F;
  flog : F → F;
  fmax : F → F → F
}.

(** A value that numpy broadcasts: a 0-d scalar or an array. *)
Inductive nd (F A : Type) : Type :=
| Scal (x : F)
| Arr (a : A).
Arguments Scal {F A} x.
Arguments Arr {F A} a.

(** 1-D and 2-D arrays. *)
Abbreviation Vec F := (list F) (only parsing).
Abbreviation Mat F := (list (list F)) (only parsing).

(** ** numpy operations *)

Section Numpy.
Context {F : Type} `{!Scalar F}.


(** [np.sum(v)] *)
Definition np_sum (v : Vec F) : F :=
  match v with
  | [] => fzero
  | x :: v' => fold_left fadd v' x
  end.

(** [np.mean(v)]: the sum divided by the number of elements, also when
    there are none. *)
Definition np_mean (v : Vec F) : F := fdiv (np_sum v) (fof_nat (length v)).

(** [u op v] on 1-D arrays, with numpy's broadcasting of length 1. *)
Definition broadcast (op : F → F → F) (u v : Vec F) : result (Vec F) :=
  match u, v with
  | [a], _ => Ok (map (op a) v)
  | _, [b] => Ok (map (λ a, op a b) u)
  | _, _ =>
      if decide (length u = length v) then Ok (zip_with op u v)
      else Raise ValueError
  end.

(** [u op v] where [v] is a scalar or a 1-D array. *)
Definition broadcast_nd (op : F → F → F) (u : Vec F) (v : nd F (Vec F))
  : result (Vec F) :=
  match v with
  | Scal b => Ok (map (λ a, op a b) u)
  | Arr v => broadcast op u v
  end.

(** The inner product of two arrays of one length. *)
Definition dot (u v : Vec F) : F := np_sum (zip_with fmul u v).

(** [a @ w.T] for [a] of shape [(n,)] and [w] of shape [(m, n)]. *)
Definition matmul_vT (a : Vec F) (w : Mat F) : result (Vec F) :=
  if decide (Forall (λ r, length r = length a) w) then Ok (map (dot a) w)
  else Raise ValueError.

(** Column [j] and the number of columns of a 2-D array. *)
Definition column (j : nat) (w : Mat F) : Vec F := map (λ r, nth j r fzero) w.
Definition ncols (w : Mat F) : nat :=
  match w with
  | [] => 0
  | r :: _ => length r
  end.

(** [g.T @ w] for [g] of shape [(m, 1)] and [w] of shape [(m, n)]: the
    [(1, n)] row of the inner products of [g] with the columns of [w]. *)
Definition matmul_Tm (g : Vec F) (w : Mat F) : result (Vec F) :=
  if decide (length g = length w) then
    Ok (map (λ j, dot g (column j w)) (seq 0 (ncols w)))
  else Raise ValueError.

(** [g @ r] for [g] of shape [(m, 1)] and [r] of shape [(1, n)]. *)
Definition outer (g r : Vec F) : Mat F := map (λ a, map (fmul a) r) g.

(** [c * m] for a [(1, 1)] array [c]. *)
Definition scale_vec (c : F) (v : Vec F) : Vec F := map (fmul c) v.
Definition scale_mat (c : F) (m : Mat F) : Mat F := map (scale_vec c) m.

(** [np.full(n, v)]: [v] broadcast to shape [(n,)]. *)
Definition np_full (n : nat) (v : nd F (Vec F)) : result (Vec F) :=
  match v with
  | Scal x => Ok (replicate n x)
  | Arr [x] => Ok (replicate n x)
  | Arr u => if decide (length u = n) then Ok u else Raise ValueError
  end.

(** [a.reshape(n, 1)] of an array holding [length a] elements. *)
Definition reshape_col (n : nat) (a : Vec F) : result (Vec F) :=
  if decide (length a = n) then Ok a else Raise ValueError.

(** [np.array(l).mean(axis=0)] for a list of 1-D arrays: a 0-d NaN-style
    quotient [0 / 0] when the list is empty. *)
Definition vec_add (u v : Vec F) : Vec F := zip_with fadd u v.
Definition mat_add (a b : Mat F) : Mat F := zip_with vec_add a b.

Definition mean_axis0_vec (l : list (Vec F)) : result (nd F (Vec F)) :=
  match l with
  | [] => Ok (Scal (fdiv fzero (fof_nat 0)))
  | v :: l' =>
      if decide (Forall (λ u, length u = length v) l') then
        Ok (Arr (map (λ s, fdiv s (fof_nat (length l))) (fold_left vec_add l' v)))
      else Raise ValueError
  end.

Definition mean_axis0_mat (l : list (Mat F)) : result (nd F (Mat F)) :=
  match l with
  | [] => Ok (Scal (fdiv fzero (fof_nat 0)))
  | m :: l' =>
      if decide (Forall (λ u, map length u = map length m) l') then
        Ok (Arr (map (map (λ s, fdiv s (fof_nat (length l))))
                     (fold_left mat_add l' m)))
      else Raise ValueError
  end.

(** [t -= o] in place: [o] is broadcast to the shape of [t], which does
    not change. *)
Definition isub_row (t o : Vec F) : result (Vec F) :=
  match o with
  | [b] => Ok (map (λ a, fsub a b) t)
  | _ =>
      if decide (length o = length t) then Ok (zip_with fsub t o)
      else Raise ValueError
  end.

Definition isub_vec (t : Vec F) (o : nd F (Vec F)) : result (Vec F) :=
  match o with
  | Scal b => Ok (map (λ a, fsub a b) t)
  | Arr o => isub_row t o
  end.

Definition isub_mat (t : Mat F) (o : nd F (Mat F)) : result (Mat F) :=
  match o with
  | Scal b => Ok (map (map (λ a, fsub a b)) t)
  | Arr [r] => traverse (λ tr, isub_row tr r) t
  | Arr o =>
      if decide (length o = length t) then
        traverse (λ p, isub_row p.1 p.2) (zip t o)
      else Raise ValueError
  end.
End Numpy.

(** ** Loss functions *)

(** The interface of class [Loss]: what a subclass supplies as
    [__loss__] and [__derivative__]. *)
Record Loss (F : Type) : Type := {
  loss : list F → list F → result F;
  loss_derivative : list F → list F → result (nd F (list F))
}.
Arguments loss {F} _ _ _.
Arguments loss_derivative {F} _ _ _.

Section MSE.
Context {F : Type} `{!Scalar F}.

(** [np.mean((x - y)**2)] *)
Definition MSE_loss (x y : Vec F) : result F :=
  d ← broadcast fsub x y;
  Ok (np_mean (map (λ e, fmul e e) d)).

(** [2*np.mean(x - y)] *)
Definition MSE_derivative (x y : Vec F) : result (nd F (Vec F)) :=
  d ← broadcast fsub x y;
  Ok (Scal (fmul (fof_nat 2) (np_mean d))).

Definition MSE : Loss F :=
  {| loss := MSE_loss; loss_derivative := MSE_derivative |}.
End MSE.

Section CE.
Context {F : Type} `{!Scalar F, !Elementary F}.

(** [np.max(x)], which raises on an empty array. *)
Definition np_max (x : Vec F) : result F :=
  match x with
  | [] => Raise ValueError
  | a :: x' => Ok (fold_left fmax x' a)
  end.

(** [CE.softmax] on a 1-D array. *)
Definition softmax (x : Vec F) : result (Vec F) :=
  m ← np_max x;
  let exps := map (λ v, fexp (fsub v m)) x in
  Ok (map (λ e, fdiv e (np_sum exps)) exps).

(** [CE.softmax] on a 2-D array: [np.max] and [np.sum] are called without
    an axis and reduce over all the entries. *)
Definition softmax_2d (x : Mat F) : result (Mat F) :=
  m ← np_max (concat x);
  let exps := map (map (λ v, fexp (fsub v m))) x in
  Ok (map (map (λ e, fdiv e (np_sum (concat exps)))) exps).

(** [np.sum(-y * np.log(p))] with [p = softmax(x)] *)
Definition CE_loss (x y : Vec F) : result F :=
  p ← softmax x;
  t ← broadcast fmul (map fneg y) (map flog p);
  Ok (np_sum t).

(** [softmax(x) - y] *)
Definition CE_derivative (x y : Vec F) : result (nd F (Vec F)) :=
  p ← softmax x;
  grad ← broadcast fsub p y;
  Ok (Arr grad).

Definition CE : Loss F :=
  {| loss := CE_loss; loss_derivative := CE_derivative |}.
End CE.

(** ** Activation functions *)

(** The interface of class [Activation]: [__activation__] and
    [__derivative__]. *)
Record Activation (F : Type) : Type := {
  activation : list F → list F;
  derivative : list F → nd F (list F)
}.
Arguments activation {F} _ _.
Arguments derivative {F} _ _.

Section Free.
Context {F : Type} `{!Scalar F}.

(** [Free]: the input unchanged, and the constant [1] as derivative. *)
Definition Free : Activation F :=
  {| activation := λ x, x; derivative := λ _, Scal fone |}.
End Free.

Section Sigmoid.
Context {F : Type} `{!Scalar F, !Elementary F}.

(** [1 / (1 + np.exp(-x))] *)
Definition Sigmoid_positive (x : F) : F :=
  fdiv fone (fadd fone (fexp (fneg x))).

(** [exps / (1 + exps)] with [exps = np.exp(x)] *)
Definition Sigmoid_negative (x : F) : F :=
  let exps := fexp x in fdiv exps (fadd fone exps).

(** The masked assignment: entries with [x >= 0] take the positive
    formula, the others the negative one. *)
Definition Sigmoid_activation (x : Vec F) : Vec F :=
  map (λ v, if fge v fzero then Sigmoid_positive v else Sigmoid_negative v) x.

(** [sig * (1 - sig)] with [sig = __activation__(x)] *)
Definition Sigmoid_derivative (x : Vec F) : nd F (Vec F) :=
  let sig := Sigmoid_activation x in
  Arr (zip_with fmul sig (map (λ s, fsub fone s) sig)).

Definition Sigmoid : Activation F :=
  {| activation := Sigmoid_activation; derivative := Sigmoid_derivative |}.

(** [(ez - enz) / (ez + enz)] *)
Definition TanH_activation (x : Vec F) : Vec F :=
  map (λ v, let ez := fexp v in let enz := fexp (fneg v) in
            fdiv (fsub ez enz) (fadd ez enz)) x.

(** [1 - tanh**2] *)
Definition TanH_derivative (x : Vec F) : nd F (Vec F) :=
  let tanh := TanH_activation x in
  Arr (map (λ t, fsub fone (fmul t t)) tanh).

Definition TanH : Activation F :=
  {| activation := TanH_activation; derivative := TanH_derivative |}.
End Sigmoid.

(** ** The network *)

Section Network.
Context {F : Type} `{!Scalar F}.

(** The fields of a [NeuralNetwork] object; [weights], [f], [bias], [zs]
    and [as_] are the entries of the [params] dictionary.  Entry [i - 1]
    of [weights] and [bias] belongs to layer [i]. *)
Record NeuralNetwork : Type := {
  layers : list (nat * option (Activation F));
  learning_rate : F;
  weights : list (Mat F);
  f : list (option (Activation F));
  bias : list (Vec F);
  zs : list (Vec F);
  as_ : list (Vec F);
  d_weights : list (list (Mat F));
  d_bias : list (list (Vec F))
}.

Definition set_zs (net : NeuralNetwork) (v : list (Vec F)) : NeuralNetwork :=
  {| layers := layers net; learning_rate := learning_rate net;
     weights := weights net; f := f net; bias := bias net;
     zs := v; as_ := as_ net;
     d_weights := d_weights net; d_bias := d_bias net |}.

Definition set_as (net : NeuralNetwork) (v : list (Vec F)) : NeuralNetwork :=
  {| layers := layers net; learning_rate := learning_rate net;
     weights := weights net; f := f net; bias := bias net;
     zs := zs net; as_ := v;
     d_weights := d_weights net; d_bias := d_bias net |}.

Definition set_params (net : NeuralNetwork) (w : list (Mat F)) (b : list (Vec F))
  : NeuralNetwork :=
  {| layers := layers net; learning_rate := learning_rate net;
     weights := w; f := f net; bias := b;
     zs := zs net; as_ := as_ net;
     d_weights := d_weights net; d_bias := d_bias net |}.

Definition set_grads (net : NeuralNetwork) (dw : list (list (Mat F)))
  (db : list (list (Vec F))) : NeuralNetwork :=
  {| layers := layers net; learning_rate := learning_rate net;
     weights := weights net; f := f net; bias := bias net;
     zs := zs net; as_ := as_ net;
     d_weights := dw; d_bias := db |}.

(** [self.layers[idx][0]] *)
Definition width (net : NeuralNetwork) (idx : nat) : result nat :=
  l ← getitem (layers net) idx; Ok l.1.

(** [self.params['f'][idx].m(...)]: calling a method of [None] raises. *)
Definition get_f (net : NeuralNetwork) (idx : nat) : result (Activation F) :=
  o ← getitem (f net) idx; from_some AttributeError o.

(** *** forward *)

(** The body of the loop of [forward] at layer [idx >= 1]. *)
Definition forward_layer (idx : nat) (net : NeuralNetwork)
  : result NeuralNetwork :=
  a ← getitem (as_ net) (idx - 1);
  w ← getitem (weights net) (idx - 1);
  b ← getitem (bias net) (idx - 1);
  aw ← matmul_vT a w;
  z ← broadcast fadd aw b;
  zs' ← setitem (zs net) idx z;
  let net := set_zs net zs' in
  act ← get_f net idx;
  z ← getitem (zs net) idx;
  as' ← setitem (as_ net) idx (activation act z);
  Ok (set_as net as').

Definition forward (x : Vec F) (net : NeuralNetwork)
  : result (NeuralNetwork * Vec F) :=
  as' ← setitem (as_ net) 0 x;
  net ← for_each forward_layer (seq 1 (length (layers net) - 1)) (set_as net as');
  out ← getlast (as_ net);
  Ok (net, out).

(** *** backward *)

(** The loop state of [backward]: [cache_dC_dA_dZ] and the local lists
    [d_weights] and [d_bias]. *)
Record backward_state : Type := {
  cache_dC_dA_dZ : list (Vec F);
  bw_d_weights : list (Mat F);
  bw_d_bias : list (Vec F)
}.

(** One iteration of the loop of [backward] at a layer [idx <> 0]. *)
Definition backward_layer (net : NeuralNetwork) (y : Vec F) (L : Loss F)
  (idx : nat) (st : backward_state) : result backward_state :=
  dC_dA ←
    (if decide (idx = length (layers net) - 1) then
       n ← width net idx;
       a ← getitem (as_ net) idx;
       d ← loss_derivative L a y;
       np_full n d
     else
       g ← getlast (cache_dC_dA_dZ st);
       w ← getitem (weights net) idx;
       matmul_Tm g w);
  act ← get_f net idx;
  a ← getitem (as_ net) idx;
  let dA_dZ := derivative act a in
  dZ_dW ← getitem (as_ net) (idx - 1);
  p ← broadcast_nd fmul dC_dA dA_dZ;
  n ← width net idx;
  dC_dA_dZ ← reshape_col n p;
  let dC_dW := scale_mat (learning_rate net) (outer dC_dA_dZ dZ_dW) in
  let dC_dB := scale_vec (learning_rate net) dC_dA_dZ in
  dw ← setitem (bw_d_weights st) (idx - 1) dC_dW;
  db ← setitem (bw_d_bias st) (idx - 1) dC_dB;
  Ok {| cache_dC_dA_dZ := cache_dC_dA_dZ st ++ [dC_dA_dZ];
        bw_d_weights := dw; bw_d_bias := db |}.

(** The loop over [np.arange(n)[::-1]], left by [break] at index [0]. *)
Fixpoint backward_loop (net : NeuralNetwork) (y : Vec F) (L : Loss F)
  (idxs : list nat) (st : backward_state) : result backward_state :=
  match idxs with
  | [] => Ok st
  | idx :: idxs' =>
      if decide (idx = 0) then Ok st
      else st' ← backward_layer net y L idx st;
           backward_loop net y L idxs' st'
  end.

Definition backward (y : Vec F) (L : Loss F) (net : NeuralNetwork)
  : result NeuralNetwork :=
  st ← backward_loop net y L (reverse (seq 0 (length (layers net))))
         {| cache_dC_dA_dZ := [];
            bw_d_weights := weights net; bw_d_bias := bias net |};
  Ok (set_grads net (d_weights net ++ [bw_d_weights st])
                    (d_bias net ++ [bw_d_bias st])).

(** *** step and clear *)

(** The inner loop of [step]: the gradients of parameter [i] in every
    accumulated entry. *)
Definition gather (net : NeuralNetwork) (i : nat)
  : result (list (Mat F * Vec F)) :=
  traverse (λ mdx,
    dws ← getitem (d_weights net) mdx;
    dw ← getitem dws i;
    dbs ← getitem (d_bias net) mdx;
    db ← getitem dbs i;
    Ok (dw, db)) (seq 0 (length (d_weights net))).

(** The body of the outer loop of [step]. *)
Definition step_layer (i : nat) (net : NeuralNetwork) : result NeuralNetwork :=
  t ← gather net i;
  mean_d_weight_tensor ← mean_axis0_mat (t.*1);
  mean_d_bias_tensor ← mean_axis0_vec (t.*2);
  w ← getitem (weights net) i;
  w' ← isub_mat w mean_d_weight_tensor;
  ws ← setitem (weights net) i w';
  b ← getitem (bias net) i;
  b' ← isub_vec b mean_d_bias_tensor;
  bs ← setitem (bias net) i b';
  Ok (set_params net ws bs).

Definition step (net : NeuralNetwork) : result NeuralNetwork :=
  for_each step_layer (seq 0 (length (weights net))) net.

Definition clear (net : NeuralNetwork) : NeuralNetwork := set_grads net [] [].

(** *** fit *)

(** The body of the sample loop shared by [fit] and [minibatch_fit]:
    forward pass, loss, backward pass. *)
Definition train_sample (L : Loss F) (xy : Vec F * Vec F)
  (net : NeuralNetwork) : result NeuralNetwork :=
  '(net, pred) ← forward xy.1 net;
  _ ← loss L pred xy.2;
  backward xy.2 L net.

(** One epoch of [fit]; [zip] stops at the shorter of [X] and [Y]. *)
Definition fit_epoch (X Y : list (Vec F)) (L : Loss F) (net : NeuralNetwork)
  : result NeuralNetwork :=
  net ← for_each (train_sample L) (zip X Y) net;
  net ← step net;
  Ok (clear net).

Definition fit (X Y : list (Vec F)) (L : Loss F) (n_epochs : nat)
  (net : NeuralNetwork) : result NeuralNetwork :=
  for_each (λ _ : nat, fit_epoch X Y L) (seq 0 n_epochs) net.

(** *** minibatch_reader and minibatch_fit *)

(** [l[i:j]] *)
Definition slice {A : Type} (i j : nat) (l : list A) : list A :=
  take (j - i) (drop i l).

(** The [while True] loop of [minibatch_reader], from iteration [it]:
    the batches it yields. *)
Fixpoint reader_loop (fuel : nat) (batch_size num_obs it : nat)
  (random_indices : list nat) : result (list (list nat)) :=
  match fuel with
  | 0 => OutOfFuel
  | S fuel' =>
      let i := batch_size * it in
      let j := i + batch_size in
      if decide (num_obs ≤ i) then Ok []
      else
        let j := if decide (num_obs < j) then num_obs else j in
        rest ← reader_loop fuel' batch_size num_obs (S it) random_indices;
        Ok (slice i j random_indices :: rest)
  end.

(** [minibatch_reader] applied to datasets [args]: [shapes] lists [a.shape[0]]
    for the datasets [a] of [args]; [np.unique] of it has size 1 when it
    is not empty and its entries are equal.  [random_indices] is the
    permutation drawn by [np.random.choice].  The generator has no effect
    on the network, so the batches are computed when it is first
    advanced. *)
Definition minibatch_reader (fuel : nat) (shapes : list nat)
  (batch_size : nat) (random_indices : list nat)
  : result (list (list nat)) :=
  match shapes with
  | [] => Raise AssertionError
  | num_obs :: shapes' =>
      if decide (Forall (λ n, n = num_obs) shapes') then
        reader_loop fuel batch_size num_obs 0 random_indices
      else Raise AssertionError
  end.

(** [X[ind]] for an index array [ind]. *)
Definition take_rows (X : list (Vec F)) (ind : list nat)
  : result (list (Vec F)) :=
  traverse (getitem X) ind.

(** The body of the batch loop of [minibatch_fit]. *)
Definition fit_batch (X Y : list (Vec F)) (L : Loss F) (ind : list nat)
  (net : NeuralNetwork) : result NeuralNetwork :=
  sub_X ← take_rows X ind;
  sub_Y ← take_rows Y ind;
  net ← for_each (train_sample L) (zip sub_X sub_Y) net;
  net ← step net;
  Ok (clear net).

(** One epoch of [minibatch_fit] with the permutation the reader draws
    in it. *)
Definition minibatch_epoch (fuel : nat) (X Y : list (Vec F)) (L : Loss F)
  (batch_size : nat) (random_indices : list nat) (net : NeuralNetwork)
  : result NeuralNetwork :=
  batches ← minibatch_reader fuel [length X; length Y] batch_size
              random_indices;
  for_each (fit_batch X Y L) batches net.

(** [perms epoch] is the permutation drawn in that epoch. *)
Definition minibatch_fit (fuel : nat) (X Y : list (Vec F)) (L : Loss F)
  (n_epochs batch_size : nat) (perms : nat → list nat)
  (net : NeuralNetwork) : result NeuralNetwork :=
  for_each (λ epoch, minibatch_epoch fuel X Y L batch_size (perms epoch))
    (seq 0 n_epochs) net.
End Network.

Arguments NeuralNetwork F : clear implicits.
Arguments backward_state F : clear implicits.

(** ** The two scalar instances *)

(** IEEE binary64, the [float64] of numpy. *)
Module Float64.
Definition of_nat (n : nat) : float :=
  PrimFloat.of_uint63 (Uint63.of_Z (Z.of_nat n)).

Global Instance float_scalar : Scalar float := {|
  fzero := PrimFloat.zero;
  fone := PrimFloat.one;
  fadd := PrimFloat.add;
  fsub := PrimFloat.sub;
  fmul := PrimFloat.mul;
  fdiv := PrimFloat.div;
  fneg := PrimFloat.opp;
  fof_nat := of_nat;
  fge := λ x y, PrimFloat.leb y x
|}.
End Float64.

(** Exact real arithmetic. *)
Module Real.
Global Instance Rle_decision (x y : R) : Decision (x <= y)%R := Rle_dec x y.

Global Instance R_scalar : Scalar R := {|
  fzero := 0%R;
  fone := 1%R;
  fadd := Rplus;
  fsub := Rminus;
  fmul := Rmult;
  fdiv := Rdiv;
  fneg := Ropp;
  fof_nat := INR;
  fge := λ x y, bool_decide (y <= x)%R
|}.

Global Instance R_elementary : Elementary R := {|
  fexp := exp;
  flog := ln;
  fmax := Rmax
|}.
End Real.

(** ** Shapes *)

Section Shapes.
Context {F : Type} `{!Scalar F}.

(** [m.shape == (r, c)] *)
Definition has_shape (r c : nat) (m : Mat F) : Prop :=
  length m = r ∧ Forall (λ row, length row = c) m.

(** An activation works elementwise: its result, and its derivative
    unless that is a scalar, have the shape of the argument. *)
Definition shape_preserving (act : Activation F) : Prop :=
  ∀ v, length (activation act v) = length v ∧
       match derivative act v with
       | Scal _ => True
       | Arr d => length d = length v
       end.

(** A value that [np.full] can broadcast to [n] entries. *)
Definition fills (n : nat) (v : nd F (Vec F)) : Prop :=
  match v with
  | Scal _ => True
  | Arr u => length u = n ∨ length u = 1
  end.

(** The layer widths, [width[i] = layers[i][0]]. *)
Definition widths (net : NeuralNetwork F) : list nat := (layers net).*1.

(** The state [_initialize_params] sets up and the methods maintain: one
    weight matrix of shape [(width[i], width[i-1])] and one bias vector
    of shape [(width[i],)] per layer [i >= 1], an activation object for
    each of these layers, one cache slot per layer, positive widths. *)
Record wf_network (net : NeuralNetwork F) : Prop := {
  wf_layers : length (layers net) = S (length (weights net));
  wf_bias_len : length (bias net) = length (weights net);
  wf_f_len : length (f net) = length (layers net);
  wf_zs_len : length (zs net) = length (layers net);
  wf_as_len : length (as_ net) = length (layers net);
  wf_f : ∀ i, 1 ≤ i < length (layers net) →
         ∃ act, f net !! i = Some (Some act) ∧ shape_preserving act;
  wf_weights : ∀ i w m n,
    weights net !! i = Some w → widths net !! i = Some m →
    widths net !! S i = Some n → has_shape n m w;
  wf_bias : ∀ i b n,
    bias net !! i = Some b → widths net !! S i = Some n → length b = n;
  wf_widths : Forall (λ n, 0 < n) (widths net)
}.

(** The activation caches as a forward pass leaves them: slot [i] holds
    [width[i]] values. *)
Definition wf_caches (net : NeuralNetwork F) : Prop :=
  ∀ i a n, as_ net !! i = Some a → widths net !! i = Some n → length a = n.

(** The gradient accumulators as [backward] fills them: as many bias
    entries as weight entries, each entry with one gradient per layer, of
    the shape of the parameter it belongs to. *)
Record wf_grads (net : NeuralNetwork F) : Prop := {
  wf_grads_len : length (d_bias net) = length (d_weights net);
  wf_dw : Forall (Forall2 (λ w dw, map length dw = map length w) (weights net))
            (d_weights net);
  wf_db : Forall (Forall2 (λ b db, length db = length b) (bias net))
            (d_bias net)
}.

(** *** The forward pass *)

(** The fields that [forward] and [backward] do not assign. *)
Definition same_params (t net : NeuralNetwork F) : Prop :=
  layers t = layers net ∧ learning_rate t = learning_rate net ∧
  weights t = weights net ∧ f t = f net ∧ bias t = bias net.

Definition same_grads (t net : NeuralNetwork F) : Prop :=
  d_weights t = d_weights net ∧ d_bias t = d_bias net.

Definition same_caches (t net : NeuralNetwork F) : Prop :=
  zs t = zs net ∧ as_ t = as_ net.

(** The caches of layer [i >= 1] hold what the forward pass computes
    there: with [a = as[i-1]], [w = W_i] of shape [(len(b), len(a))] and
    [b = b_i], the pre-activation [zs[i] = a @ w.T + b], whose entry [j]
    is the inner product of [a] with row [j] of [w] plus [b[j]], and the
    post-activation [as[i] = activation_i(zs[i])]. *)
Definition layer_computed (t : NeuralNetwork F) (i : nat) : Prop :=
  ∃ a w b act,
    as_ t !! (i - 1) = Some a ∧
    weights t !! (i - 1) = Some w ∧
    bias t !! (i - 1) = Some b ∧
    f t !! i = Some (Some act) ∧
    has_shape (length b) (length a) w ∧
    zs t !! i = Some (zip_with fadd (map (dot a) w) b) ∧
    as_ t !! i = Some (activation act (zip_with fadd (map (dot a) w) b)).

(** The invariant of the loop of [forward] before layer [k]. *)
Definition forward_inv (net : NeuralNetwork F) (x : Vec F) (k : nat)
  (t : NeuralNetwork F) : Prop :=
  same_params t net ∧ same_grads t net ∧
  length (zs t) = length (zs net) ∧ length (as_ t) = length (as_ net) ∧
  as_ t !! 0 = Some x ∧
  (∀ i a n, i < k → as_ t !! i = Some a → widths net !! i = Some n →
            length a = n) ∧
  (∀ i, 1 ≤ i < k → layer_computed t i).

(** *** The backward pass as the specification words it *)

(** The combined term [g] of the layer at distance [d] from the output,
    layer [i = last - d].  At the final layer [dC_dA] is the derivative
    of the loss at [(a_i, y)] filled to the width of the layer; at an
    interior layer it is [g_{i+1}^T @ W_{i+1}], where [W_{i+1}] is entry
    [i] of [weights]; at every layer [dA_dZ] is the derivative of the
    activation of the layer at the cached [a_i], and [g] is
    [dC_dA * dA_dZ] reshaped to [(width[i], 1)]. *)
Fixpoint combined_term (net : NeuralNetwork F) (y : Vec F) (L : Loss F)
  (d : nat) : result (Vec F) :=
  let i := length (layers net) - 1 - d in
  dC_dA ←
    match d with
    | 0 =>
        n ← width net i;
        a ← getitem (as_ net) i;
        v ← loss_derivative L a y;
        np_full n v
    | S d' =>
        g ← combined_term net y L d';
        w ← getitem (weights net) i;
        matmul_Tm g w
    end;
  act ← get_f net i;
  a ← getitem (as_ net) i;
  p ← broadcast_nd fmul dC_dA (derivative act a);
  n ← width net i;
  reshape_col n p.


(** The loss derivative at the output can be filled to the last width. *)
Definition loss_fits (net : NeuralNetwork F) (y : Vec F) (L : Loss F) : Prop :=
  ∀ a n, as_ net !! (length (layers net) - 1) = Some a →
         widths net !! (length (layers net) - 1) = Some n →
         ∃ d, loss_derivative L a y = Ok d ∧ fills n d.

(** The gradients of layer [i] in the lists [dw] and [db]:
    [learning_rate * (g @ a_{i-1}^T)] and [learning_rate * g] flattened,
    for the combined term [g] of the layer, which has [width[i]] entries. *)
Definition layer_gradient (net : NeuralNetwork F) (y : Vec F) (L : Loss F)
  (dw : list (Mat F)) (db : list (Vec F)) (i : nat) : Prop :=
  ∃ g a,
    combined_term net y L (length (layers net) - 1 - i) = Ok g ∧
    widths net !! i = Some (length g) ∧
    as_ net !! (i - 1) = Some a ∧
    dw !! (i - 1) = Some (scale_mat (learning_rate net) (outer g a)) ∧
    db !! (i - 1) = Some (scale_vec (learning_rate net) g).

(** The invariant of the loop of [backward] before layer [k]: the layers
    above [k] are done, and the term cached last is that of layer [k + 1]. *)
Definition backward_inv (net : NeuralNetwork F) (y : Vec F) (L : Loss F)
  (k : nat) (st : backward_state F) : Prop :=
  length (bw_d_weights st) = length (weights net) ∧
  length (bw_d_bias st) = length (weights net) ∧
  (k < length (layers net) - 1 →
   ∃ g, last (cache_dC_dA_dZ st) = Some g ∧
        combined_term net y L (length (layers net) - 1 - S k) = Ok g ∧
        widths net !! S k = Some (length g)) ∧
  (∀ i, k < i ≤ length (layers net) - 1 →
        layer_gradient net y L (bw_d_weights st) (bw_d_bias st) i).

(** Entry [(r, c)] of parameter [i] in one accumulated gradient. *)
Definition entry3 (l : list (Mat F)) (i r c : nat) : option F :=
  m ← l !! i; row ← m !! r; row !! c.
Definition entry2 (l : list (Vec F)) (i r : nat) : option F :=
  v ← l !! i; v !! r.
(** *** The update step *)

(** Entry [(r, c)] of a 2-D array. *)
Definition mentry (m : Mat F) (r c : nat) : option F := row ← m !! r; row !! c.

(** [w'] is [w] minus the elementwise mean of the gradients that the
    accumulated entries [acc] hold for parameter [i]: it has the shape of
    [w], and each of its entries is the entry of [w] minus the sum of the
    corresponding entries of the gradients divided by their number. *)
Definition mat_stepped (acc : list (list (Mat F))) (i : nat) (w w' : Mat F)
  : Prop :=
  map length w' = map length w ∧
  ∀ r c e, mentry w r c = Some e →
    ∃ es, Forall2 (λ dws x, entry3 dws i r c = Some x) acc es ∧
          mentry w' r c
          = Some (fsub e (fdiv (np_sum es) (fof_nat (length acc)))).

Definition vec_stepped (acc : list (list (Vec F))) (i : nat) (b b' : Vec F)
  : Prop :=
  length b' = length b ∧
  ∀ r e, b !! r = Some e →
    ∃ es, Forall2 (λ dbs x, entry2 dbs i r = Some x) acc es ∧
          b' !! r = Some (fsub e (fdiv (np_sum es) (fof_nat (length acc)))).

(** The fields that [step] does not assign. *)
Definition same_but_params (t net : NeuralNetwork F) : Prop :=
  layers t = layers net ∧ learning_rate t = learning_rate net ∧
  f t = f net ∧ same_caches t net ∧ same_grads t net.

(** The invariant of the loop of [step] before parameter [k]. *)
Definition step_inv (net : NeuralNetwork F) (k : nat) (t : NeuralNetwork F)
  : Prop :=
  same_but_params t net ∧
  length (weights t) = length (weights net) ∧
  length (bias t) = length (bias net) ∧
  (∀ i, k ≤ i → weights t !! i = weights net !! i ∧
                bias t !! i = bias net !! i) ∧
  (∀ i w b, i < k → weights net !! i = Some w → bias net !! i = Some b →
     ∃ w' b', weights t !! i = Some w' ∧ bias t !! i = Some b' ∧
              mat_stepped (d_weights net) i w w' ∧
              vec_stepped (d_bias net) i b b').

(** The mean of an empty stack, [0 / 0]. *)
Definition empty_mean : F := fdiv fzero (fof_nat 0).

(** The invariant of the loop of [step] on empty accumulators. *)
Definition step_empty_inv (net : NeuralNetwork F) (k : nat)
  (t : NeuralNetwork F) : Prop :=
  same_but_params t net ∧
  weights t = map (map (map (λ a, fsub a empty_mean))) (take k (weights net))
              ++ drop k (weights net) ∧
  bias t = map (map (λ a, fsub a empty_mean)) (take k (bias net))
           ++ drop k (bias net).
(** *** An epoch of training *)

(** A loss that accepts every prediction of [n] values against the
    targets [Y], with a derivative that can be filled to [n] values. *)
Definition loss_accepts (L : Loss F) (n : nat) (Y : list (Vec F)) : Prop :=
  ∀ pred y, y ∈ Y → length pred = n →
    (∃ v, loss L pred y = Ok v) ∧
    (∃ d, loss_derivative L pred y = Ok d ∧ fills n d).

(** The invariant of the sample loop of an epoch after [k] samples. *)
Definition epoch_inv (net : NeuralNetwork F) (k : nat) (t : NeuralNetwork F)
  : Prop :=
  wf_network t ∧ wf_grads t ∧ same_params t net ∧
  length (d_weights t) = length (d_weights net) + k.
End Shapes.

(** ** Notions of real analysis *)

(** The sum of a list of reals. *)
Definition Rsum (l : list R) : R := foldr Rplus 0%R l.

(** The logistic function. *)
Definition sigmoid (v : R) : R := (1 / (1 + exp (- v)))%R.

(** ** Example inputs *)

Module Examples.
Import Float64.
Local Open Scope float_scope.

(** A network of two layers, [[(2, None), (1, Free)]], with learning
    rate [0.5]. *)
Definition net0 : NeuralNetwork float := {|
  layers := [(2%nat, None); (1%nat, Some Free)];
  learning_rate := 0.5;
  weights := [[[0.25; 0.75]]];
  f := [None; Some Free];
  bias := [[0.5]];
  zs := [[0; 0]; [0]];
  as_ := [[0; 0]; [0]];
  d_weights := [];
  d_bias := []
|}.

(** [net0] after [forward([1, 2])]. *)
Definition net0_forward : NeuralNetwork float := {|
  layers := [(2%nat, None); (1%nat, Some Free)];
  learning_rate := 0.5;
  weights := [[[0.25; 0.75]]];
  f := [None; Some Free];
  bias := [[0.5]];
  zs := [[0; 0]; [2.25]];
  as_ := [[1; 2]; [2.25]];
  d_weights := [];
  d_bias := []
|}.

(** [net0] after [forward([1, 2])] and [backward([1], MSE())]. *)
Definition net0_backward : NeuralNetwork float := {|
  layers := [(2%nat, None); (1%nat, Some Free)];
  learning_rate := 0.5;
  weights := [[[0.25; 0.75]]];
  f := [None; Some Free];
  bias := [[0.5]];
  zs := [[0; 0]; [2.25]];
  as_ := [[1; 2]; [2.25]];
  d_weights := [[[[1.25; 2.5]]]];
  d_bias := [[[1.25]]]
|}.

(** A dataset of two samples and a target array of one row. *)
Definition X2 : list (list float) := [[1; 2]; [3; 4]].
Definition Y1 : list (list float) := [[1]].
Definition Y2 : list (list float) := [[1]; [2]].
End Examples.

(** ** The rest of the network class *)

Section MoreNetwork.
Context {F : Type} `{!Scalar F}.

(** [np.array(rows)] for a list of 1-D arrays, which must agree in
    length to form a 2-D array. *)
Definition np_array_2d (rows : list (Vec F)) : result (Mat F) :=
  match rows with
  | [] => Ok []
  | r :: rows' =>
      if decide (Forall (λ u, length u = length r) rows') then Ok rows
      else Raise ValueError
  end.

(** *** predict *)

(** The loop of [predict], with the list [predictions] built so far. *)
Fixpoint predict_loop (X : list (Vec F)) (net : NeuralNetwork F)
  (predictions : list (Vec F)) : result (NeuralNetwork F * list (Vec F)) :=
  match X with
  | [] => Ok (net, predictions)
  | x :: X' =>
      '(net, pred) ← forward x net;
      predict_loop X' net (predictions ++ [pred])
  end.

Definition predict (X : list (Vec F)) (net : NeuralNetwork F)
  : result (NeuralNetwork F * Mat F) :=
  '(net, predictions) ← predict_loop X net [];
  Y ← np_array_2d predictions;
  Ok (net, Y).

(** *** The constructor *)

(** [np.random.random] draws from the state of numpy's generator: [rnd]
    is the stream of numbers it hands out and [s] counts those drawn so
    far.  An array of shape [(n, m)] takes [n * m] of them, row by row. *)
Definition random_1d (rnd : nat → F) (s n : nat) : Vec F * nat :=
  (map (λ c, rnd (s + c)) (seq 0 n), s + n).

Definition random_2d (rnd : nat → F) (s n m : nat) : Mat F * nat :=
  (map (λ r, map (λ c, rnd (s + r * m + c)) (seq 0 m)) (seq 0 n), s + n * m).

(** The body of the loop of [_initialize_params] at layer [i]. *)
Definition init_layer (rnd : nat → F) (i : nat) (st : NeuralNetwork F * nat)
  : result (NeuralNetwork F * nat) :=
  let net := st.1 in
  let s := st.2 in
  '(ws, bs, s) ←
    (if decide (0 < i) then
       li ← getitem (layers net) i;
       lp ← getitem (layers net) (i - 1);
       let w := random_2d rnd s li.1 lp.1 in
       let b := random_1d rnd w.2 li.1 in
       Ok (weights net ++ [w.1], bias net ++ [b.1], b.2)
     else Ok (weights net, bias net, s));
  li ← getitem (layers net) i;
  let zeros := replicate li.1 fzero in
  Ok ({| layers := layers net; learning_rate := learning_rate net;
         weights := ws; f := f net ++ [li.2]; bias := bs;
         zs := zs net ++ [zeros]; as_ := as_ net ++ [zeros];
         d_weights := d_weights net; d_bias := d_bias net |}, s).

(** [NeuralNetwork(layers, learning_rate)]: empty parameter lists and
    accumulators, then [_initialize_params]. *)
Definition new_network (rnd : nat → F) (s : nat)
  (layers : list (nat * option (Activation F))) (learning_rate : F)
  : result (NeuralNetwork F * nat) :=
  for_each (init_layer rnd) (seq 0 (length layers))
    ({| layers := layers; learning_rate := learning_rate;
        weights := []; f := []; bias := []; zs := []; as_ := [];
        d_weights := []; d_bias := [] |}, s).
End MoreNetwork.

(** ** Invariants of the constructor and of the batch reader *)

Section MoreInvariants.
Context {F : Type} `{!Scalar F}.

(** The invariant of the loop of [_initialize_params] before layer [k]:
    the lists are filled for the layers below [k]. *)
Definition init_inv (lay : list (nat * option (Activation F))) (lr : F)
  (k : nat) (st : NeuralNetwork F * nat) : Prop :=
  let net := st.1 in
  layers net = lay ∧ learning_rate net = lr ∧
  d_weights net = [] ∧ d_bias net = [] ∧
  length (weights net) = k - 1 ∧ length (bias net) = k - 1 ∧
  length (f net) = k ∧ length (zs net) = k ∧ length (as_ net) = k ∧
  (∀ i, i < k → f net !! i = snd <$> lay !! i) ∧
  (∀ i w m n, weights net !! i = Some w → lay.*1 !! i = Some m →
              lay.*1 !! S i = Some n → has_shape n m w) ∧
  (∀ i b n, bias net !! i = Some b → lay.*1 !! S i = Some n → length b = n) ∧
  (∀ i a n, as_ net !! i = Some a → lay.*1 !! i = Some n →
            a = replicate n fzero) ∧
  (∀ i z n, zs net !! i = Some z → lay.*1 !! i = Some n →
            z = replicate n fzero).
End MoreInvariants.

(** Batch [k] of a permutation cut into batches of [batch_size]. *)
Definition batch_at (batch_size : nat) (perm : list nat) (k : nat) : list nat :=
  take batch_size (drop (batch_size * k) perm).

(** * Sequence and dataset utilities (scripts/io.py)

    Conventions of this part.  A Python string is the list of its
    characters, taken as 8-bit code points.  A text file is the list of its
    lines, each as [next(f)] returns it, with its line end.  A generator is
    the list of the values it yields; when it raises, the values yielded
    before are not kept.  The results of [np.random.shuffle] are an
    argument ([shuffled]).  Dictionary values, array indices and the [k] of
    [Kmerize] are natural numbers.  The labels given to [OneHotEncoding]
    are a sequence of hashable values and its lookup a dictionary; the
    names in the alphabet of [InverseOneHotEncoding] are strings that do
    not end in a NUL character, which numpy would drop.  As before, a 2-D
    array is the list of its rows. *)

Module IO.

Abbreviation str := (list ascii) (only parsing).

Inductive error : Set :=
| KeyError
| IndexError
| ValueError
| AssertionError
| ZeroDivisionError
| OverflowError.

Inductive outcome (A : Type) : Type :=
| Return (a : A)
| Throw (e : error).
Arguments Return {A} a.
Arguments Throw {A} e.

Global Instance outcome_ret : MRet outcome := @Return.
Global Instance outcome_bind : MBind outcome := λ A B k m,
  match m with
  | Return a => k a
  | Throw e => Throw e
  end.

(** [[body(x) for x in l]], stopping at the first exception. *)
Fixpoint collect {A B : Type} (body : A → outcome B) (l : list A)
  : outcome (list B) :=
  match l with
  | [] => Return []
  | x :: l' => y ← body x; ys ← collect body l'; Return (y :: ys)
  end.

(** [l[i]] for an index [i >= 0], with the exception [e] a miss raises. *)
Definition item {A : Type} (e : error) (l : list A) (i : nat) : outcome A :=
  match l !! i with
  | Some x => Return x
  | None => Throw e
  end.

(** ** Strings *)

(** [c.isspace()] for a character below 256. *)
Definition is_space (c : ascii) : bool :=
  let n := nat_of_ascii c in
  ((9 <=? n) && (n <=? 13)) || ((28 <=? n) && (n <=? 32))
  || (n =? 133) || (n =? 160).

Fixpoint lstrip (s : str) : str :=
  match s with
  | [] => []
  | c :: s' => if is_space c then lstrip s' else s
  end.

Definition rstrip (s : str) : str := reverse (lstrip (reverse s)).

(** [s.strip()] *)
Definition strip (s : str) : str := rstrip (lstrip s).

(** ** FastaReader *)

(** [not header] for a header that is [None] or a string. *)
Definition falsy (header : option str) : bool :=
  match header with
  | None => true
  | Some h => bool_decide (h = [])
  end.

(** The [while True] loop of [FastaReader.__iter__] over the lines that
    are left, with the current [header] and [seq]; running out of lines
    is [StopIteration], after which the last record is yielded. *)
Fixpoint fasta_loop (lines : list str) (header : option str) (seq : str)
  : list (option str * str) :=
  match lines with
  | [] => [(header, seq)]
  | line :: lines' =>
      if bool_decide (">"%char ∈ line) then
        if falsy header then fasta_loop lines' (Some (strip line)) []
        else (header, seq) :: fasta_loop lines' (Some (strip line)) []
      else fasta_loop lines' header (seq ++ strip line)
  end.

(** [iter(FastaReader(path))] for a file holding [lines]. *)
Definition FastaReader_iter (lines : list str) : list (option str * str) :=
  fasta_loop lines None [].

(** ** OneHotEncoding and its inverse *)

Section OneHot.
Context {F : Type} `{!Scalar F}.

(** What [OneHotEncoding] returns: a 1-D array when [flatten] is set, a
    2-D array otherwise. *)
Inductive encoding : Type :=
| Flat (v : Vec F)
| Rows (m : Mat F).

(** Row [idx] of [ohe] after [ohe[idx, j] = 1]. *)
Definition one_hot_row (n j : nat) : outcome (Vec F) :=
  if decide (j < n) then Return (<[j:=fone]> (replicate n fzero))
  else Throw IndexError.

Section Labels.
Context {K : Type} `{Countable K} (le : relation K) `{!RelDecision le}.

(** [np.unique(labels)]: the labels in increasing order, each once. *)
Definition np_unique (labels : list K) : list K :=
  remove_dups (merge_sort le labels).

(** [{c: i for i, c in enumerate(classes)}] *)
Definition enumerate_lookup (classes : list K) : gmap K nat :=
  list_to_map (zip classes (seq 0 (length classes))).

Definition OneHotEncoding (labels : list K) (lookup : option (gmap K nat))
  (flatten : bool) : outcome encoding :=
  let given := match lookup with
               | None => None
               | Some d => if decide (d = ∅) then None else Some d
               end in
  let nl := match given with
            | None => let classes := np_unique labels in
                      (length classes, enumerate_lookup classes)
            | Some d => (size d, d)
            end in
  ohe ← collect (λ l, match nl.2 !! l with
                      | Some j => one_hot_row nl.1 j
                      | None => Throw KeyError
                      end) labels;
  Return (if flatten then Flat (concat ohe) else Rows ohe).
End Labels.

(** [row.argmax()]: the position of the first largest entry.  As in
    numpy, an entry [x] replaces the best so far unless [x <= best], and
    the scan stops at a NaN, the one value with [x >= x] false. *)
Fixpoint argmax_from (best_i : nat) (best : F) (i : nat) (v : Vec F) : nat :=
  match v with
  | [] => best_i
  | x :: v' =>
      if fge best x then argmax_from best_i best (S i) v'
      else if fge x x then argmax_from i x (S i) v'
      else i
  end.

Definition argmax (v : Vec F) : outcome nat :=
  match v with
  | [] => Throw ValueError
  | x :: v' => Return (if fge x x then argmax_from 0 x 1 v' else 0)
  end.

(** [v.reshape(rows, cols)] *)
Fixpoint reshape_rows (rows cols : nat) (v : Vec F) : Mat F :=
  match rows with
  | 0 => []
  | S r => take cols v :: reshape_rows r cols (drop cols v)
  end.

Definition reshape_2d (rows cols : nat) (v : Vec F) : outcome (Mat F) :=
  if decide (rows * cols = length v) then Return (reshape_rows rows cols v)
  else Throw ValueError.

(** [InverseOneHotEncoding(ohe, alphabet)] for a 1-D [ohe];
    [int(ohe.size / alphabet.size)] is the quotient of the two sizes. *)
Definition InverseOneHotEncoding (ohe : Vec F) (alphabet : list str)
  : outcome str :=
  if decide (length alphabet = 0) then Throw ZeroDivisionError
  else
    m ← reshape_2d (length ohe / length alphabet) (length alphabet) ohe;
    labels ← collect argmax m;
    chosen ← collect (item IndexError alphabet) labels;
    Return (concat chosen).
End OneHot.

(** ** Kmerize *)

Record Kmerize : Type := {
  k : nat
}.

(** [self.lookup], which [__init__] sets to the same dictionary for
    every object. *)
Definition lookup (self : Kmerize) : gmap ascii nat :=
  <["A"%char:=0]> (<["C"%char:=1]> (<["T"%char:=2]> (<["G"%char:=3]> ∅))).

(** [get_kmers(s)]: [s[i:i+k]] for [i] in [range(len(s) - k + 1)], a range
    that is empty when [k > len(s) + 1]. *)
Definition get_kmers (self : Kmerize) (s : str) : list str :=
  map (λ i, slice i (i + k self) s) (seq 0 (length s + 1 - k self)).

Section Process.
Context {F : Type} `{!Scalar F}.

(** The order of characters, by code point. *)
Definition char_le (a b : ascii) : Prop := nat_of_ascii a ≤ nat_of_ascii b.
Global Instance char_le_dec : RelDecision char_le :=
  λ a b, Nat.le_dec (nat_of_ascii a) (nat_of_ascii b).

(** [process(iterable, ohe)]: the k-mers of every sequence, each as it is
    or, with [ohe], as its flattened one-hot encoding.  [self.lookup] is
    not empty, so [OneHotEncoding] does not reach [np.unique] here. *)
Definition process (self : Kmerize) (iterable : list (option str * str))
  (ohe : bool) : outcome (list (str + encoding)) :=
  yielded ← collect (λ rec : option str * str,
                collect (λ kmers : str,
                  if ohe then
                    e ← OneHotEncoding char_le kmers (Some (lookup self)) true;
                    Return (inr e)
                  else Return (inl kmers)) (get_kmers self rec.2))
              iterable;
  Return (concat yielded).
End Process.

(** ** norm *)

(** [np.abs] and the binary minimum behind [np.min]. *)
Class Extremes (F : Type) : Type := {
  fabs : F → F;
  fmin : F → F → F
}.

Global Instance R_extremes : Extremes R := {|
  fabs := Rabs;
  fmin := Rmin
|}.

(** [for x in l: s = body(x, s)], stopping at the first exception. *)
Fixpoint each {St A : Type} (body : A → St → outcome St) (l : list A) (s : St)
  : outcome St :=
  match l with
  | [] => Return s
  | x :: l' => s' ← body x s; each body l' s'
  end.

Section Norm.
Context {F : Type} `{!Scalar F, !Elementary F, !Extremes F}.

(** [np.min(x)] and [np.max(x)], which raise on an empty array. *)
Definition np_min (x : Vec F) : outcome F :=
  match x with
  | [] => Throw ValueError
  | a :: x' => Return (fold_left fmin x' a)
  end.

Definition np_max (x : Vec F) : outcome F :=
  match x with
  | [] => Throw ValueError
  | a :: x' => Return (fold_left fmax x' a)
  end.

(** [m[:, i] = g(m[:, i])], entry by entry. *)
Definition update_column (i : nat) (g : F → F) (m : Mat F) : Mat F :=
  map (alter g i) m.

(** The body of the loop of [norm] for column [i]. *)
Definition norm_column (X : Mat F) (i : nat) (norm : Mat F)
  : outcome (Mat F) :=
  lo ← np_min (column i X);
  let norm := update_column i (λ v, fadd v (fabs lo)) norm in
  hi ← np_max (column i norm);
  Return (update_column i (λ v, fdiv v hi) norm).

Definition norm (X : Mat F) : outcome (Mat F) :=
  each (norm_column X) (seq 0 (ncols X)) X.
End Norm.

(** ** TrainTestSplit and SubsetData *)

(** [int(x)] for a float: truncation toward zero. *)
Definition int_of_float (x : float) : outcome Z :=
  match Prim2SF x with
  | S754_zero _ => Return 0%Z
  | S754_infinity _ => Throw OverflowError
  | S754_nan => Throw ValueError
  | S754_finite s m e =>
      let a := if (0 <=? e)%Z then (Z.pos m * 2 ^ e)%Z
               else (Z.pos m / 2 ^ (- e))%Z in
      Return (if s then (- a)%Z else a)
  end.

(** The position at which [l[:pos]] and [l[pos:]] cut a list of [len]
    items: a negative [pos] counts from the end. *)
Definition cut (pos : Z) (len : nat) : nat :=
  if (pos <? 0)%Z then Z.to_nat (Z.of_nat len + pos) else Z.to_nat pos.

(** [a[ind]] for an index array [ind]. *)
Definition rows_at {A : Type} (a : list A) (ind : list nat) : outcome (list A) :=
  collect (item IndexError a) ind.

(** [TrainTestSplit(args..., train_size)]: [shuffled] is [np.arange(n_obs)]
    after [np.random.shuffle]. *)
Definition TrainTestSplit {A : Type} (args : list (list A))
  (train_size : float) (shuffled : list nat) : outcome (list (list A)) :=
  match map length args with
  | [] => Throw AssertionError
  | n_obs :: sizes =>
      if decide (Forall (λ m, m = n_obs) sizes) then
        pos ← int_of_float (PrimFloat.mul (Float64.of_nat n_obs) train_size);
        let train_ind := take (cut pos (length shuffled)) shuffled in
        let test_ind := drop (cut pos (length shuffled)) shuffled in
        splits ← collect (λ a, collect (rows_at a) [train_ind; test_ind]) args;
        Return (concat splits)
      else Throw AssertionError
  end.

(** [SubsetData(data, n)] for an integer [n]; [shuffled] is
    [np.arange(data.shape[0])] after [np.random.shuffle]. *)
Definition SubsetData {A : Type} (data : list A) (n : Z) (shuffled : list nat)
  : outcome (list A) :=
  rows_at data (take (cut n (length shuffled)) shuffled).

End IO.

(** ** What the utilities are checked against *)

Section Encodings.
Import IO.
Context {F : Type} `{!Scalar F}.

(** The row that has a one in column [j] and zeros elsewhere. *)
Definition unit_row (n j : nat) : Vec F := <[j:=fone]> (replicate n fzero).

(** The comparisons of zero and one that decoding a one-hot row relies
    on; they hold in binary64 and over the reals. *)
Definition zero_below_one : Prop :=
  fge (F := F) fzero fzero = true ∧ fge (F := F) fone fone = true
  ∧ fge (F := F) fone fzero = true ∧ fge (F := F) fzero fone = false.

(** What [process] does with one k-mer when [ohe] is set. *)
Definition encode_kmer (self : Kmerize) (kmer : list ascii)
  : outcome (list ascii + encoding (F := F)) :=
  e ← OneHotEncoding char_le kmer (Some (lookup self)) true; Return (inr e).
End Encodings.

(** The letters [Kmerize] knows, in the order of their codes, and the
    alphabet that decodes them. *)
Definition nucleotides : list ascii := ["A"; "C"; "T"; "G"]%char.
Definition nucleotide_names : list (list ascii) := map (λ c, [c]) nucleotides.

(** [lo] is the least and [hi] the greatest entry of [v]. *)
Definition least (lo : R) (v : list R) : Prop :=
  lo ∈ v ∧ Forall (λ x, (lo <= x)%R) v.
Definition greatest (hi : R) (v : list R) : Prop :=
  hi ∈ v ∧ Forall (λ x, (x <= hi)%R) v.

(** The state of the loop of [norm] before column [t]: the columns from
    [t] on are those of [X], the ones before are rescaled. *)
Definition norm_inv (X : Mat R) (r c t : nat) (M : Mat R) : Prop :=
  has_shape r c M
  ∧ ∀ j, j < c →
      (t ≤ j → column j M = column j X)
      ∧ (j < t → ∀ lo hi,
           least lo (column j X) → greatest hi (column j X) →
           column j M
           = map (λ x, (x + Rabs lo) / (hi + Rabs lo))%R (column j X)).

(** * Properties *)

(** ** The result monad and the loops *)

Lemma bind_Ok {A B : Type} (m : result A) (k : A → result B) (r : B) :
  m ≫= k = Ok r ↔ ∃ a, m = Ok a ∧ k a = Ok r.
Proof.
  destruct m as [a| |]; simpl; split.
  - intros Hk. by exists a.
  - by intros (a' & [= <-] & Hk).
  - done.
  - by intros (? & ? & _).
  - done.
  - by intros (? & ? & _).
Qed.

(** Splits a successful sequence of binds into its steps. *)
Ltac inv_bind H :=
  repeat match type of H with
  | _ ≫= _ = Ok _ =>
      let x := fresh "x" in
      let Hx := fresh "H" x in
      apply bind_Ok in H as (x & Hx & H)
  end.

Lemma getitem_Ok {A : Type} (l : list A) (i : nat) (x : A) :
  getitem l i = Ok x ↔ l !! i = Some x.
Proof. unfold getitem. destruct (l !! i); naive_solver. Qed.

Lemma setitem_Ok {A : Type} (l : list A) (i : nat) (v : A) :
  i < length l → setitem l i v = Ok (<[i:=v]> l).
Proof. intros Hi. unfold setitem. by rewrite decide_True. Qed.

(** A property that every iteration keeps holds after the loop. *)
Lemma for_each_preserves {St A : Type} (P : St → Prop)
  (body : A → St → result St) (l : list A) (s s' : St) :
  (∀ x t t', body x t = Ok t' → P t → P t') →
  for_each body l s = Ok s' → P s → P s'.
Proof.
  intros Hbody. revert s. induction l as [|x l IH]; simpl; intros s Hl Hs.
  - by injection Hl as <-.
  - apply bind_Ok in Hl as (t & Ht & Hl). eauto.
Qed.

(** A counting loop with an invariant indexed by the next index. *)
Lemma for_each_seq {St : Type} (P : nat → St → Prop)
  (body : nat → St → result St) (a n : nat) (s : St) :
  P a s →
  (∀ k t, a ≤ k < a + n → P k t → ∃ t', body k t = Ok t' ∧ P (S k) t') →
  ∃ s', for_each body (seq a n) s = Ok s' ∧ P (a + n) s'.
Proof.
  revert a s. induction n as [|n IH]; simpl; intros a s Hs Hbody.
  - exists s. by rewrite Nat.add_0_r.
  - destruct (Hbody a s) as (t & Ht & HP); [lia|done|].
    rewrite Ht. simpl.
    destruct (IH (S a) t HP) as (s' & Hs' & HP').
    { intros k u Hk. apply Hbody. lia. }
    exists s'. split; [done|]. by replace (a + S n) with (S a + n) by lia.
Qed.

(** ** step and the gradient accumulators *)

Section StepFrame.
Context {F : Type} `{!Scalar F}.

Lemma step_layer_grads (i : nat) (net net' : NeuralNetwork F) :
  step_layer i net = Ok net' →
  d_weights net' = d_weights net ∧ d_bias net' = d_bias net.
Proof.
  unfold step_layer. intros H. inv_bind H. by injection H as <-.
Qed.

(** C4, amended: [step] returns with both accumulator sequences as it
    found them, so they are not emptied by [step] itself; they are empty
    after the [clear] that [fit] and [minibatch_fit] call next. *)
Theorem step_keeps_accumulators_clear_empties (net net' : NeuralNetwork F) :
  step net = Ok net' →
  (d_weights net' = d_weights net ∧ d_bias net' = d_bias net) ∧
  (d_weights (clear net') = [] ∧ d_bias (clear net') = []).
Proof.
  intros Hstep. split; [|done].
  eapply (for_each_preserves
            (λ t, d_weights t = d_weights net ∧ d_bias t = d_bias net)
            step_layer); [|exact Hstep|done].
  intros i t t' Ht [Hw Hb].
  destruct (step_layer_grads _ _ _ Ht) as [-> ->]. done.
Qed.
End StepFrame.

(** C4, witness: the network [net0_backward] holds one accumulated entry. *)
Lemma step_keeps_accumulators_clear_empties_witness :
  ∃ net',
    step Examples.net0_backward = Ok net' ∧
    (d_weights net' = d_weights Examples.net0_backward ∧
     d_bias net' = d_bias Examples.net0_backward) ∧
    (d_weights (clear net') = [] ∧ d_bias (clear net') = []).
Proof.
  eexists. split; [vm_compute; reflexivity|].
  eapply step_keeps_accumulators_clear_empties. vm_compute. reflexivity.
Defined.

(** C4 as stated fails: after [forward([1, 2])], [backward([1], MSE())] and
    [step()] on [net0], the accumulators still hold the entry of that
    backward pass. *)
Lemma step_leaves_accumulators_filled :
  ∃ net',
    step Examples.net0_backward = Ok net' ∧
    d_weights net' ≠ [] ∧ d_bias net' ≠ [].
Proof. eexists. split; [vm_compute; reflexivity|]. split; discriminate. Qed.

(** C5: on [net0], whose accumulators are empty (also after [clear]),
    [step] returns normally and has replaced every weight and bias by NaN:
    the mean over an empty stack is [0 / 0]. *)
Theorem step_on_empty_accumulators_gives_nan :
  d_weights (clear Examples.net0) = [] ∧ d_bias (clear Examples.net0) = [] ∧
  ∃ net',
    step (clear Examples.net0) = Ok net' ∧
    weights net' = [[[PrimFloat.nan; PrimFloat.nan]]] ∧
    bias net' = [[PrimFloat.nan]] ∧
    weights net' ≠ weights Examples.net0 ∧ bias net' ≠ bias Examples.net0.
Proof.
  split; [done|]. split; [done|].
  eexists. split; [vm_compute; reflexivity|].
  split; [done|]. split; [done|]. split; discriminate.
Qed.

(** ** Datasets of unequal sizes *)

Section Mismatch.
Context {F : Type} `{!Scalar F}.

(** [minibatch_reader] asserts that the datasets agree in size before it
    yields the first batch. *)
Lemma minibatch_reader_asserts (fuel n m batch_size : nat) (perm : list nat) :
  n ≠ m → minibatch_reader fuel [n; m] batch_size perm = Raise AssertionError.
Proof.
  intros Hnm. unfold minibatch_reader.
  rewrite decide_False; [done|].
  rewrite Forall_singleton. congruence.
Qed.

Lemma minibatch_epoch_asserts (fuel : nat) (X Y : list (Vec F)) (L : Loss F)
  (batch_size : nat) (perm : list nat) (net : NeuralNetwork F) :
  length X ≠ length Y →
  minibatch_epoch fuel X Y L batch_size perm net = Raise AssertionError.
Proof.
  intros Hlen. unfold minibatch_epoch.
  by rewrite minibatch_reader_asserts.
Qed.

(** So [minibatch_fit] with at least one epoch fails in its first epoch,
    before any forward pass. *)
Lemma minibatch_fit_asserts (fuel : nat) (X Y : list (Vec F)) (L : Loss F)
  (n_epochs batch_size : nat) (perms : nat → list nat) (net : NeuralNetwork F) :
  length X ≠ length Y →
  minibatch_fit fuel X Y L (S n_epochs) batch_size perms net
  = Raise AssertionError.
Proof.
  intros Hlen. unfold minibatch_fit.
  change (seq 0 (S n_epochs)) with (0 :: seq 1 n_epochs).
  cbn [for_each]. by rewrite minibatch_epoch_asserts.
Qed.

(** [fit] has no such check: it trains on the pairs [zip] forms. *)
Lemma fit_epoch_truncates (X Y : list (Vec F)) (L : Loss F)
  (net : NeuralNetwork F) :
  fit_epoch X Y L net
  = fit_epoch (take (length Y) X) (take (length X) Y) L net.
Proof.
  unfold fit_epoch. f_equal. f_equal.
  revert Y. induction X as [|x X IH]; intros [|y Y]; simpl; try done.
  by rewrite <-IH.
Qed.
End Mismatch.

(** C6: [fit] on two samples and one target row raises nothing; it returns
    the network that training on the first sample alone gives. *)
Theorem fit_unequal_sizes_no_assertion :
  length Examples.X2 ≠ length Examples.Y1 ∧
  ∃ net',
    fit Examples.X2 Examples.Y1 MSE 1 Examples.net0 = Ok net' ∧
    fit (take 1 Examples.X2) Examples.Y1 MSE 1 Examples.net0 = Ok net' ∧
    weights net' = [[[-1; -1.75]]]%float ∧ bias net' = [[-0.75]]%float.
Proof.
  split; [discriminate|].
  eexists. split; [vm_compute; reflexivity|]. by vm_compute.
Qed.

(** ** numpy operations on arrays of matching shapes *)

Section NumpyFacts.
Context {F : Type} `{!Scalar F}.

Lemma broadcast_same_length (op : F → F → F) (u v : Vec F) :
  length u = length v → broadcast op u v = Ok (zip_with op u v).
Proof.
  intros Hlen. unfold broadcast.
  destruct u as [|a [|a' u]], v as [|b [|b' v]]; simplify_eq/=; try done.
  all: by rewrite decide_True by (simpl; congruence).
Qed.

Lemma matmul_vT_shape (a : Vec F) (w : Mat F) (n : nat) :
  has_shape n (length a) w →
  matmul_vT a w = Ok (map (dot a) w) ∧ length (map (dot a) w) = n.
Proof.
  intros [Hn Hrows]. unfold matmul_vT.
  rewrite decide_True by done. by rewrite length_map.
Qed.

Lemma matmul_Tm_shape (g : Vec F) (w : Mat F) (m : nat) :
  0 < length g → has_shape (length g) m w →
  ∃ r, matmul_Tm g w = Ok r ∧ length r = m.
Proof.
  intros Hpos [Hn Hrows]. unfold matmul_Tm.
  rewrite decide_True by done. eexists. split; [done|].
  rewrite length_map, length_seq.
  destruct w as [|r w]; simpl in *; [lia|]. by apply Forall_cons_1 in Hrows as [? _].
Qed.

Lemma np_full_fills (n : nat) (v : nd F (Vec F)) :
  fills n v → ∃ r, np_full n v = Ok r ∧ length r = n.
Proof.
  destruct v as [x|u]; simpl.
  - intros _. eexists. split; [done|]. by rewrite length_replicate.
  - intros Hu. destruct u as [|x [|x' u]]; simpl in *.
    + destruct Hu as [<-|?]; [|done]. by exists [].
    + eexists. split; [done|]. by rewrite length_replicate.
    + destruct Hu as [Hu|?]; [|done].
      rewrite decide_True by done. by eexists.
Qed.

Lemma broadcast_nd_shape (op : F → F → F) (u : Vec F) (v : nd F (Vec F)) :
  match v with Scal _ => True | Arr d => length d = length u end →
  ∃ r, broadcast_nd op u v = Ok r ∧ length r = length u.
Proof.
  destruct v as [b|d]; simpl.
  - intros _. eexists. split; [done|]. by rewrite length_map.
  - intros Hd. rewrite broadcast_same_length by done.
    eexists. split; [done|]. rewrite length_zip_with. lia.
Qed.
End NumpyFacts.

(** ** forward *)

Section Forward.
Context {F : Type} `{!Scalar F}.

Lemma widths_lookup (net : NeuralNetwork F) (i : nat) :
  i < length (layers net) → ∃ n, widths net !! i = Some n.
Proof.
  intros Hi. apply lookup_lt_is_Some. unfold widths. by rewrite length_fmap.
Qed.

Lemma forward_layer_inv (net : NeuralNetwork F) (x : Vec F) (k : nat)
  (t : NeuralNetwork F) :
  wf_network net → 1 ≤ k < length (layers net) →
  forward_inv net x k t →
  ∃ t', forward_layer k t = Ok t' ∧ forward_inv net x (S k) t'.
Proof.
  intros Hwf Hk (Hpar & Hgr & Hzs & Has & Hx & Hlen & Hdone).
  destruct Hpar as (Hl & Hlr & Hw & Hf & Hb). destruct Hgr as [Hdw Hdb].
  destruct (widths_lookup net (k - 1)) as [m Hm]; [lia|].
  destruct (widths_lookup net k) as [n Hn]; [lia|].
  destruct (lookup_lt_is_Some_2 (as_ t) (k - 1)) as [a Ha].
  { rewrite Has, (wf_as_len _ Hwf). lia. }
  destruct (lookup_lt_is_Some_2 (weights net) (k - 1)) as [w Hwk].
  { pose proof (wf_layers _ Hwf). lia. }
  destruct (lookup_lt_is_Some_2 (bias net) (k - 1)) as [b Hbk].
  { pose proof (wf_layers _ Hwf). rewrite (wf_bias_len _ Hwf). lia. }
  destruct (wf_f _ Hwf k) as (act & Hact & Hsp); [lia|].
  assert (length a = m) as Halen by (eapply Hlen; [|done..]; lia).
  assert (has_shape n m w) as Hshape.
  { eapply (wf_weights _ Hwf (k - 1)); [done..|]. by replace (S (k - 1)) with k by lia. }
  assert (length b = n) as Hblen.
  { eapply (wf_bias _ Hwf (k - 1)); [done|]. by replace (S (k - 1)) with k by lia. }
  subst m.
  destruct (matmul_vT_shape a w n Hshape) as [Hmm Hmmlen].
  set (z := zip_with fadd (map (dot a) w) b).
  assert (length z = n) as Hzlen.
  { unfold z. rewrite length_zip_with. lia. }
  eexists. split.
  { unfold forward_layer.
    rewrite (proj2 (getitem_Ok _ _ _) Ha). cbn [mbind result_bind].
    rewrite Hw, (proj2 (getitem_Ok _ _ _) Hwk). cbn [mbind result_bind].
    rewrite Hb, (proj2 (getitem_Ok _ _ _) Hbk). cbn [mbind result_bind].
    rewrite Hmm. cbn [mbind result_bind].
    rewrite broadcast_same_length by lia. cbn [mbind result_bind].
    rewrite setitem_Ok by (rewrite Hzs, (wf_zs_len _ Hwf); lia).
    cbn [mbind result_bind].
    unfold get_f. cbn [f set_zs zs as_].
    rewrite Hf, (proj2 (getitem_Ok _ _ _) Hact). cbn [mbind result_bind from_some].
    rewrite (proj2 (getitem_Ok _ _ _)
               (list_lookup_insert_eq (zs t) k _ ltac:(rewrite Hzs, (wf_zs_len _ Hwf); lia))).
    cbn [mbind result_bind].
    rewrite setitem_Ok by (rewrite Has, (wf_as_len _ Hwf); lia).
    cbn [mbind result_bind]. reflexivity. }
  fold z. unfold forward_inv, same_params, same_grads. cbn.
  rewrite !length_insert.
  split_and!; try done.
  - rewrite list_lookup_insert_ne by lia. done.
  - intros i a' n' Hi Ha' Hn'.
    destruct (decide (i = k)) as [->|Hik].
    + rewrite list_lookup_insert_eq in Ha' by (rewrite Has, (wf_as_len _ Hwf); lia).
      injection Ha' as <-. rewrite Hn in Hn'. injection Hn' as <-.
      destruct (Hsp z) as [-> _]. done.
    + rewrite list_lookup_insert_ne in Ha' by done.
      eapply Hlen; [|done..]. lia.
  - intros i Hi.
    destruct (decide (i = k)) as [->|Hik].
    + exists a, w, b, act. cbn. rewrite Hw, Hf, Hb.
      rewrite list_lookup_insert_ne by lia.
      rewrite !list_lookup_insert_eq
        by (rewrite ?Hzs, ?Has, ?(wf_zs_len _ Hwf), ?(wf_as_len _ Hwf); lia).
      split_and!; try done. by rewrite Hblen.
    + destruct (Hdone i) as (a' & w' & b' & act' & H1 & H2 & H3 & H4 & H5 & H6 & H7);
        [lia|].
      exists a', w', b', act'. cbn.
      rewrite !list_lookup_insert_ne by lia. done.
Qed.

Lemma forward_spec (net : NeuralNetwork F) (x : Vec F) :
  wf_network net → widths net !! 0 = Some (length x) →
  ∃ net' out,
    forward x net = Ok (net', out) ∧
    as_ net' !! 0 = Some x ∧
    (∀ i, 1 ≤ i < length (layers net) → layer_computed net' i) ∧
    last (as_ net') = Some out ∧
    same_params net' net ∧ same_grads net' net ∧ wf_caches net' ∧
    length (zs net') = length (zs net) ∧ length (as_ net') = length (as_ net).
Proof.
  intros Hwf Hx.
  pose proof (wf_layers _ Hwf) as Hlay.
  pose proof (wf_as_len _ Hwf) as Has.
  destruct (for_each_seq (forward_inv net x) forward_layer 1
              (length (layers net) - 1) (set_as net (<[0:=x]> (as_ net))))
    as (net' & Hloop & Hinv).
  { unfold forward_inv, same_params, same_grads. cbn.
    rewrite length_insert. split_and!; try done.
    - apply list_lookup_insert_eq. lia.
    - intros i a n Hi Ha Hn. assert (i = 0) as -> by lia.
      rewrite list_lookup_insert_eq in Ha by lia. injection Ha as <-. congruence.
    - intros i Hi. lia. }
  { intros k t Hk Ht. apply forward_layer_inv; [done|lia|done]. }
  replace (1 + (length (layers net) - 1)) with (length (layers net)) in Hinv by lia.
  destruct Hinv as (Hpar & Hgr & Hzs' & Has' & Hx' & Hlen & Hdone).
  destruct (lookup_lt_is_Some_2 (as_ net') (pred (length (as_ net')))) as [out Hout];
    [lia|].
  rewrite <-last_lookup in Hout.
  exists net', out. split.
  { unfold forward. rewrite setitem_Ok by lia. cbn [mbind result_bind].
    cbn [layers set_as]. rewrite Hloop. cbn [mbind result_bind].
    unfold getlast. rewrite Hout. reflexivity. }
  split_and!; try done.
  intros i a n Ha Hn. unfold widths in Hn. rewrite (proj1 Hpar) in Hn.
  eapply Hlen; [|done..].
  apply lookup_lt_Some in Ha. lia.
Qed.

(** C2: for a well-formed network and an input [x] of [width[0]] values,
    [forward(x)] returns; it has stored [x] in [as[0]]; for every layer
    [i >= 1] the caches hold [zs[i] = as[i-1] @ W_i^T + b_i] and
    [as[i] = activation_i(zs[i])], each computed from the cache of the
    layer before it; the value returned is the last entry of [as]; the
    parameters and the accumulators are untouched. *)
Theorem forward_computes_layers (net : NeuralNetwork F) (x : Vec F) :
  wf_network net → widths net !! 0 = Some (length x) →
  ∃ net' out,
    forward x net = Ok (net', out) ∧
    as_ net' !! 0 = Some x ∧
    (∀ i, 1 ≤ i < length (layers net) → layer_computed net' i) ∧
    last (as_ net') = Some out ∧
    same_params net' net ∧ same_grads net' net ∧ wf_caches net'.
Proof.
  intros Hwf Hx.
  destruct (forward_spec net x Hwf Hx)
    as (net' & out & H1 & H2 & H3 & H4 & H5 & H6 & H7 & _).
  by exists net', out.
Qed.

(** A network stays well formed when only its caches are overwritten by
    as many entries. *)
Lemma wf_network_same (t net : NeuralNetwork F) :
  same_params t net → length (zs t) = length (zs net) →
  length (as_ t) = length (as_ net) → wf_network net → wf_network t.
Proof.
  intros (Hl & Hlr & Hw & Hf & Hb) Hzs Has Hwf.
  destruct Hwf. split; unfold widths in *; rewrite ?Hl, ?Hw, ?Hf, ?Hb, ?Hzs, ?Has;
    done.
Qed.

(** A forward pass leaves a well-formed network with caches of the widths
    of the layers. *)
Lemma forward_wf (net net' : NeuralNetwork F) (x out : Vec F) :
  wf_network net → widths net !! 0 = Some (length x) →
  forward x net = Ok (net', out) →
  wf_network net' ∧ wf_caches net' ∧ same_params net' net ∧
  same_grads net' net.
Proof.
  intros Hwf Hx Hfwd.
  destruct (forward_spec net x Hwf Hx)
    as (t & o & H1 & H2 & H3 & H4 & H5 & H6 & H7 & H8 & H9).
  rewrite Hfwd in H1. injection H1 as <- <-.
  split_and!; try done. by apply (wf_network_same net' net).
Qed.
End Forward.

(** The example network is well formed. *)
Lemma Free_shape_preserving {F : Type} `{!Scalar F} : shape_preserving (@Free F _).
Proof. intros v. done. Qed.

Lemma net0_wf : wf_network Examples.net0.
Proof.
  split; try done.
  - intros i Hi. cbn in Hi. assert (i = 1) as -> by lia.
    eexists. split; [done|]. apply Free_shape_preserving.
  - intros [|[|i]] w m n Hw Hm Hn; simplify_eq/=. split; [done|].
    by apply Forall_singleton.
  - intros [|[|i]] b n Hb Hn; by simplify_eq/=.
  - unfold widths. cbn. repeat constructor.
Qed.

(** C2, witness: [forward([1, 2])] on [net0]. *)
Lemma forward_computes_layers_witness :
  ∃ net' out,
    forward [1; 2]%float Examples.net0 = Ok (net', out) ∧
    as_ net' !! 0 = Some [1; 2]%float ∧
    (∀ i, 1 ≤ i < length (layers Examples.net0) → layer_computed net' i) ∧
    last (as_ net') = Some out ∧
    same_params net' Examples.net0 ∧ same_grads net' Examples.net0 ∧
    wf_caches net'.
Proof.
  apply (forward_computes_layers Examples.net0 [1; 2]%float).
  - apply net0_wf.
  - reflexivity.
Defined.

(** ** backward *)

Section Backward.
Context {F : Type} `{!Scalar F}.

Lemma width_Ok (net : NeuralNetwork F) (i n : nat) :
  widths net !! i = Some n → width net i = Ok n.
Proof.
  unfold widths, width. rewrite list_lookup_fmap.
  intros Hn. unfold getitem. destruct (layers net !! i) as [[n' o]|]; by simplify_eq/=.
Qed.

(** What every layer does with its [dC_dA]. *)
Lemma layer_tail (net : NeuralNetwork F) (k n : nat) (dC_dA : Vec F) :
  wf_network net → wf_caches net → 1 ≤ k < length (layers net) →
  widths net !! k = Some n → length dC_dA = n →
  ∃ act a p,
    get_f net k = Ok act ∧ getitem (as_ net) k = Ok a ∧
    broadcast_nd fmul dC_dA (derivative act a) = Ok p ∧
    width net k = Ok n ∧ reshape_col n p = Ok p ∧ length p = n.
Proof.
  intros Hwf Hc Hk Hn Hlen.
  destruct (wf_f _ Hwf k) as (act & Hact & Hsp); [lia|].
  destruct (lookup_lt_is_Some_2 (as_ net) k) as [a Ha].
  { rewrite (wf_as_len _ Hwf). lia. }
  pose proof (Hc _ _ _ Ha Hn) as Halen.
  destruct (broadcast_nd_shape fmul dC_dA (derivative act a)) as (p & Hp & Hplen).
  { destruct (Hsp a) as [_ Hd]. destruct (derivative act a); [done|]. congruence. }
  exists act, a, p. split_and!; try done.
  - unfold get_f. by rewrite (proj2 (getitem_Ok _ _ _) Hact).
  - by apply getitem_Ok.
  - by apply width_Ok.
  - unfold reshape_col. rewrite decide_True; [done|congruence].
  - congruence.
Qed.

Lemma backward_layer_inv (net : NeuralNetwork F) (y : Vec F) (L : Loss F)
  (k : nat) (st : backward_state F) :
  wf_network net → wf_caches net → loss_fits net y L →
  S k < length (layers net) →
  backward_inv net y L (S k) st →
  ∃ st', backward_layer net y L (S k) st = Ok st' ∧ backward_inv net y L k st'.
Proof.
  intros Hwf Hc Hloss Hk (Hdw & Hdb & Hcache & Hdone).
  pose proof (wf_layers _ Hwf) as Hlay.
  destruct (lookup_lt_is_Some_2 (widths net) (S k)) as [n Hn].
  { unfold widths. rewrite length_fmap. lia. }
  destruct (lookup_lt_is_Some_2 (as_ net) k) as [aprev Haprev].
  { rewrite (wf_as_len _ Hwf). lia. }
  (* the derivative of the cost with respect to the activations *)
  assert (∃ dC_dA,
    (if decide (S k = length (layers net) - 1) then
       n ← width net (S k); a ← getitem (as_ net) (S k);
       d ← loss_derivative L a y; np_full n d
     else
       g ← getlast (cache_dC_dA_dZ st); w ← getitem (weights net) (S k);
       matmul_Tm g w) = Ok dC_dA ∧
    length dC_dA = n ∧
    ∀ p, (act ← get_f net (S k); a ← getitem (as_ net) (S k);
          p ← broadcast_nd fmul dC_dA (derivative act a);
          n ← width net (S k); reshape_col n p) = Ok p →
         combined_term net y L (length (layers net) - 1 - S k) = Ok p)
    as (dC_dA & HdC & HdClen & Hterm).
  { case_decide as Hlast.
    - destruct (lookup_lt_is_Some_2 (as_ net) (S k)) as [a Ha].
      { rewrite (wf_as_len _ Hwf). lia. }
      destruct (Hloss a n) as (d & Hd & Hfill); [by rewrite <-Hlast..|].
      destruct (np_full_fills n d Hfill) as (r & Hr & Hrlen).
      exists r. split_and!; [|done|].
      + rewrite (width_Ok _ _ _ Hn). cbn [mbind result_bind].
        rewrite (proj2 (getitem_Ok _ _ _) Ha). cbn [mbind result_bind].
        rewrite Hd. cbn [mbind result_bind]. done.
      + intros p Hp.
        replace (length (layers net) - 1 - S k) with 0 by lia.
        cbn [combined_term]. rewrite Nat.sub_0_r, <-Hlast.
        rewrite (width_Ok _ _ _ Hn). cbn [mbind result_bind].
        rewrite (proj2 (getitem_Ok _ _ _) Ha). cbn [mbind result_bind].
        rewrite Hd. cbn [mbind result_bind]. rewrite Hr. cbn [mbind result_bind].
        rewrite (proj2 (getitem_Ok _ _ _) Ha), (width_Ok _ _ _ Hn) in Hp.
        cbn [mbind result_bind] in Hp. done.
    - destruct Hcache as (g & Hg & Hgterm & Hglen); [lia|].
      destruct (lookup_lt_is_Some_2 (weights net) (S k)) as [w Hw]; [lia|].
      assert (has_shape (length g) n w) as Hshape.
      { by eapply (wf_weights _ Hwf (S k)). }
      destruct (matmul_Tm_shape g w n) as (r & Hr & Hrlen); [|done|].
      { pose proof (wf_widths _ Hwf) as Hpos.
        rewrite Forall_lookup in Hpos. by apply (Hpos (S (S k))). }
      exists r. split_and!; [|done|].
      + unfold getlast. rewrite Hg. cbn [mbind result_bind].
        rewrite (proj2 (getitem_Ok _ _ _) Hw). done.
      + intros p Hp.
        replace (length (layers net) - 1 - S k)
          with (S (length (layers net) - 1 - S (S k))) by lia.
        cbn [combined_term]. rewrite Hgterm. cbn [mbind result_bind].
        replace (length (layers net) - 1 - S (length (layers net) - 1 - S (S k)))
          with (S k) by lia.
        rewrite (proj2 (getitem_Ok _ _ _) Hw). cbn [mbind result_bind].
        rewrite Hr. cbn [mbind result_bind]. done. }
  destruct (layer_tail net (S k) n dC_dA) as (act & a & p & Hact & Ha & Hp & Hwd & Hre & Hplen);
    [done|done|lia|done|done|].
  assert (combined_term net y L (length (layers net) - 1 - S k) = Ok p) as Hcomb.
  { apply Hterm. rewrite Hact. cbn [mbind result_bind].
    rewrite Ha. cbn [mbind result_bind]. rewrite Hp. cbn [mbind result_bind].
    rewrite Hwd. cbn [mbind result_bind]. done. }
  eexists. split.
  { unfold backward_layer. rewrite HdC. cbn [mbind result_bind].
    rewrite Hact. cbn [mbind result_bind]. rewrite Ha. cbn [mbind result_bind].
    replace (S k - 1) with k by lia.
    rewrite (proj2 (getitem_Ok _ _ _) Haprev). cbn [mbind result_bind].
    rewrite Hp. cbn [mbind result_bind]. rewrite Hwd. cbn [mbind result_bind].
    rewrite Hre. cbn [mbind result_bind].
    rewrite !setitem_Ok by lia. cbn [mbind result_bind]. reflexivity. }
  unfold backward_inv. cbn [bw_d_weights bw_d_bias cache_dC_dA_dZ].
  rewrite !length_insert. split_and!; try done.
  - intros _. exists p. rewrite last_snoc. split_and!; try done. by rewrite Hplen.
  - intros i Hi. destruct (decide (i = S k)) as [->|Hne].
    + exists p, aprev. replace (S k - 1) with k by lia.
      rewrite !list_lookup_insert_eq by lia. split_and!; try done. by rewrite Hplen.
    + destruct (Hdone i) as (g' & a' & H1 & H2 & H3 & H4 & H5); [lia|].
      exists g', a'. rewrite !list_lookup_insert_ne by lia. done.
Qed.

Lemma reverse_seq_S (n : nat) : reverse (seq 0 (S n)) = n :: reverse (seq 0 n).
Proof. by rewrite seq_S, reverse_snoc. Qed.

Lemma backward_loop_inv (net : NeuralNetwork F) (y : Vec F) (L : Loss F)
  (k : nat) (st : backward_state F) :
  wf_network net → wf_caches net → loss_fits net y L →
  k < length (layers net) →
  backward_inv net y L k st →
  ∃ st', backward_loop net y L (reverse (seq 0 (S k))) st = Ok st' ∧
         backward_inv net y L 0 st'.
Proof.
  intros Hwf Hc Hloss. revert st. induction k as [|k IH]; intros st Hk Hst.
  - exists st. done.
  - rewrite reverse_seq_S. cbn [backward_loop]. rewrite decide_False by done.
    destruct (backward_layer_inv net y L k st) as (st1 & Hst1 & Hinv1); [done..|].
    rewrite Hst1. cbn [mbind result_bind]. apply IH; [lia|done].
Qed.

Lemma backward_spec (net : NeuralNetwork F) (y : Vec F) (L : Loss F) :
  wf_network net → wf_caches net → loss_fits net y L →
  ∃ net' dw db,
    backward y L net = Ok net' ∧
    d_weights net' = d_weights net ++ [dw] ∧
    d_bias net' = d_bias net ++ [db] ∧
    length dw = length (weights net) ∧ length db = length (bias net) ∧
    (∀ i, 1 ≤ i < length (layers net) → layer_gradient net y L dw db i) ∧
    same_params net' net ∧ same_caches net' net.
Proof.
  intros Hwf Hc Hloss.
  pose proof (wf_layers _ Hwf) as Hlay.
  destruct (backward_loop_inv net y L (length (weights net))
              {| cache_dC_dA_dZ := []; bw_d_weights := weights net;
                 bw_d_bias := bias net |})
    as (st & Hst & Hdw & Hdb & _ & Hdone); [done|done|done|lia| |].
  { unfold backward_inv. cbn. split_and!; [done|by apply wf_bias_len|lia|lia]. }
  exists (set_grads net (d_weights net ++ [bw_d_weights st])
                    (d_bias net ++ [bw_d_bias st])),
         (bw_d_weights st), (bw_d_bias st).
  split_and!; try done.
  - unfold backward. rewrite Hlay, Hst. done.
  - by rewrite (wf_bias_len _ Hwf).
  - intros i Hi. apply Hdone. lia.
Qed.
(** C1: on a network whose caches were filled by a forward pass, and for a
    loss whose derivative at the output can be filled to the last width,
    [backward(y, L)] returns after one pass over the layers from the last
    down to layer 1.  It appends one entry [dw] to [d_weights] and one
    entry [db] to [d_bias]; for every layer [i >= 1], [dw[i-1]] is
    [learning_rate * (g_i @ a_{i-1}^T)] and [db[i-1]] is
    [learning_rate * g_i], where [g_i] is the combined term of the layer:
    [dC_dA * dA_dZ] with [dC_dA] the filled loss derivative at the last
    layer and [g_{i+1}^T @ W_{i+1}] below it, and [dA_dZ] the derivative of
    the activation at the cached [a_i].  Weights, biases and caches are as
    before. *)
Theorem backward_accumulates_gradients (net0 net : NeuralNetwork F)
  (x out y : Vec F) (L : Loss F) :
  wf_network net0 → widths net0 !! 0 = Some (length x) →
  forward x net0 = Ok (net, out) →
  loss_fits net y L →
  ∃ net' dw db,
    backward y L net = Ok net' ∧
    d_weights net' = d_weights net ++ [dw] ∧
    d_bias net' = d_bias net ++ [db] ∧
    length dw = length (weights net) ∧ length db = length (bias net) ∧
    (∀ i, 1 ≤ i < length (layers net) → layer_gradient net y L dw db i) ∧
    same_params net' net ∧ same_caches net' net.
Proof.
  intros Hwf Hx Hfwd Hloss.
  destruct (forward_wf net0 net x out Hwf Hx Hfwd) as (Hwf' & Hc & _ & _).
  by apply backward_spec.
Qed.
End Backward.

(** C1, witness: [backward([1], MSE())] after [forward([1, 2])] on [net0]. *)
Lemma backward_accumulates_gradients_witness :
  ∃ net' dw db,
    backward [1]%float MSE Examples.net0_forward = Ok net' ∧
    d_weights net' = d_weights Examples.net0_forward ++ [dw] ∧
    d_bias net' = d_bias Examples.net0_forward ++ [db] ∧
    length dw = length (weights Examples.net0_forward) ∧
    length db = length (bias Examples.net0_forward) ∧
    (∀ i, 1 ≤ i < length (layers Examples.net0_forward) →
          layer_gradient Examples.net0_forward [1]%float MSE dw db i) ∧
    same_params net' Examples.net0_forward ∧
    same_caches net' Examples.net0_forward.
Proof.
  apply (backward_accumulates_gradients Examples.net0 Examples.net0_forward
           [1; 2]%float [2.25]%float [1]%float MSE).
  - apply net0_wf.
  - reflexivity.
  - vm_compute. reflexivity.
  - intros a n Ha Hn. vm_compute in Ha, Hn. injection Ha as <-. injection Hn as <-.
    eexists. split; [vm_compute; reflexivity|]. exact I.
Defined.

(** The gradients this pass accumulates, evaluated. *)
Example backward_net0 :
  ∃ net', backward [1]%float MSE Examples.net0_forward = Ok net' ∧
          net' = Examples.net0_backward.
Proof. eexists. split; vm_compute; reflexivity. Qed.

(** ** The shapes training maintains *)

Section TrainingShapes.
Context {F : Type} `{!Scalar F}.

Lemma has_shape_lengths (n m : nat) (w : Mat F) :
  has_shape n m w → map length w = replicate n m.
Proof.
  intros [<- Hrows]. induction Hrows as [|r w Hr _ IH]; simpl; [done|].
  by rewrite Hr, IH.
Qed.

Lemma gradient_lengths (c : F) (g a : Vec F) :
  map length (scale_mat c (outer g a)) = replicate (length g) (length a).
Proof.
  unfold scale_mat, outer, scale_vec.
  induction g as [|x g IH]; simpl; [done|].
  by rewrite !length_map, IH.
Qed.

(** The gradients [backward] appends have the shapes of the parameters. *)
Lemma backward_wf_grads (net net' : NeuralNetwork F) (y : Vec F) (L : Loss F) :
  wf_network net → wf_caches net → loss_fits net y L → wf_grads net →
  backward y L net = Ok net' →
  wf_network net' ∧ wf_caches net' ∧ wf_grads net' ∧
  length (d_weights net') = S (length (d_weights net)).
Proof.
  intros Hwf Hc Hloss [Hglen Hgw Hgb] Hbw.
  destruct (backward_spec net y L Hwf Hc Hloss)
    as (t & dw & db & Ht & Hdw & Hdb & Hdwl & Hdbl & Hgrad & Hpar & [Hzs Has]).
  rewrite Hbw in Ht. injection Ht as <-.
  pose proof (wf_layers _ Hwf) as Hlay.
  assert (wf_network net') as Hwf'.
  { apply (wf_network_same net' net); [done|by rewrite Hzs|by rewrite Has|done]. }
  destruct Hpar as (Hl & Hlr & Hw & Hf & Hb).
  split_and!; [done| | |].
  - intros i a n. unfold widths. rewrite Has, Hl. apply Hc.
  - split.
    + rewrite Hdw, Hdb, !length_app, Hglen. done.
    + rewrite Hdw, Hw. apply Forall_app. split; [done|].
      apply Forall_singleton.
      apply Forall2_same_length_lookup_2; [done|].
      intros j w d Hwj Hdj.
      destruct (Hgrad (S j)) as (g & a & _ & Hg & Ha & Hdwj & _).
      { apply lookup_lt_Some in Hwj. lia. }
      replace (S j - 1) with j in * by lia. rewrite Hdj in Hdwj.
      injection Hdwj as ->.
      destruct (lookup_lt_is_Some_2 (widths net) j) as [m Hm].
      { unfold widths. rewrite length_fmap. apply lookup_lt_Some in Hwj. lia. }
      rewrite (has_shape_lengths _ _ _ (wf_weights _ Hwf j w m _ Hwj Hm Hg)).
      rewrite gradient_lengths. f_equal. by apply (Hc j).
    + rewrite Hdb, Hb. apply Forall_app. split; [done|].
      apply Forall_singleton.
      apply Forall2_same_length_lookup_2; [done|].
      intros j b d Hbj Hdj.
      destruct (Hgrad (S j)) as (g & a & _ & Hg & Ha & _ & Hdbj).
      { apply lookup_lt_Some in Hbj. rewrite (wf_bias_len _ Hwf) in Hbj. lia. }
      replace (S j - 1) with j in * by lia. rewrite Hdj in Hdbj.
      injection Hdbj as ->.
      unfold scale_vec. rewrite length_map.
      symmetry. by apply (wf_bias _ Hwf j).
  - by rewrite Hdw, length_app, Nat.add_1_r.
Qed.

(** [MSE.derivative] is a scalar once the targets match the output. *)
Lemma MSE_loss_fits (net : NeuralNetwork F) (y : Vec F) :
  (∀ a, as_ net !! (length (layers net) - 1) = Some a → length a = length y) →
  loss_fits net y MSE.
Proof.
  intros Hy a n Ha _. cbn [loss_derivative MSE]. unfold MSE_derivative.
  rewrite broadcast_same_length by (by apply Hy). by eexists.
Qed.
End TrainingShapes.

Section ElementaryShapes.
Context {F : Type} `{!Scalar F, !Elementary F}.

Lemma Sigmoid_shape_preserving : shape_preserving (@Sigmoid F _ _).
Proof.
  intros v. cbn. unfold Sigmoid_derivative, Sigmoid_activation. split.
  - by rewrite length_map.
  - rewrite length_zip_with, !length_map. lia.
Qed.

Lemma TanH_shape_preserving : shape_preserving (@TanH F _ _).
Proof.
  intros v. cbn. unfold TanH_derivative, TanH_activation.
  by rewrite !length_map.
Qed.

(** The entries of [Sigmoid.activation] and [Sigmoid.derivative], for any
    arithmetic. *)
Lemma Sigmoid_entries (x : Vec F) (i : nat) (v : F) :
  x !! i = Some v →
  activation Sigmoid x !! i
  = Some (if fge v fzero then fdiv fone (fadd fone (fexp (fneg v)))
          else fdiv (fexp v) (fadd fone (fexp v))) ∧
  ∃ d s, derivative Sigmoid x = Arr d ∧ activation Sigmoid x !! i = Some s ∧
         d !! i = Some (fmul s (fsub fone s)).
Proof.
  intros Hv. cbn [activation derivative Sigmoid].
  unfold Sigmoid_derivative, Sigmoid_activation.
  rewrite list_lookup_fmap, Hv. split; [done|].
  eexists _, _. split; [done|]. split; [done|].
  rewrite lookup_zip_with, !list_lookup_fmap, Hv. done.
Qed.

(** [CE.derivative] has the shape of the output when the targets do. *)
Lemma softmax_length (x p : Vec F) : softmax x = Ok p → length p = length x.
Proof.
  unfold softmax. destruct (np_max x); cbn; [|done..].
  intros [= <-]. by rewrite !length_map.
Qed.

Lemma CE_loss_fits (net : NeuralNetwork F) (y : Vec F) :
  wf_network net → wf_caches net →
  (∀ a, as_ net !! (length (layers net) - 1) = Some a → length a = length y) →
  loss_fits net y CE.
Proof.
  intros Hwf Hc Hy a n Ha Hn. cbn [loss_derivative CE]. unfold CE_derivative.
  pose proof (Hc _ _ _ Ha Hn) as Hlen.
  assert (0 < n) as Hpos.
  { pose proof (wf_widths _ Hwf) as Hw. rewrite Forall_lookup in Hw. eauto. }
  destruct a as [|a0 a]; [simpl in Hlen; lia|].
  destruct (softmax (a0 :: a)) as [p| |] eqn:Hp; [|done..].
  pose proof (softmax_length _ _ Hp) as Hplen.
  cbn [mbind result_bind].
  rewrite broadcast_same_length by (rewrite Hplen; by apply Hy).
  eexists. split; [done|]. cbn. left.
  rewrite length_zip_with, Hplen, <-(Hy _ Ha). lia.
Qed.
End ElementaryShapes.

(** ** step *)

Section Step.
Context {F : Type} `{!Scalar F}.

Lemma traverse_seq {B : Type} (R : nat → B → Prop) (body : nat → result B)
  (a n : nat) :
  (∀ k, a ≤ k < a + n → ∃ y, body k = Ok y ∧ R k y) →
  ∃ ys, traverse body (seq a n) = Ok ys ∧ Forall2 R (seq a n) ys.
Proof.
  revert a. induction n as [|n IH]; intros a Hbody; simpl.
  - by exists [].
  - destruct (Hbody a) as (y & Hy & HR); [lia|].
    destruct (IH (S a)) as (ys & Hys & HRs).
    { intros k Hk. apply Hbody. lia. }
    exists (y :: ys). rewrite Hy. cbn [mbind result_bind].
    rewrite Hys. split; [done|]. by constructor.
Qed.

(** The inner loop of [step] collects the gradients of parameter [i]. *)
Lemma gather_spec (net : NeuralNetwork F) (i : nat) :
  wf_grads net → i < length (weights net) → i < length (bias net) →
  ∃ t, gather net i = Ok t ∧
       Forall2 (λ dws dw, dws !! i = Some dw) (d_weights net) (t.*1) ∧
       Forall2 (λ dbs db, dbs !! i = Some db) (d_bias net) (t.*2).
Proof.
  intros [Hlen Hdw Hdb] Hi Hib.
  destruct (traverse_seq
              (λ mdx (p : Mat F * Vec F),
                 (∃ dws, d_weights net !! mdx = Some dws ∧ dws !! i = Some p.1) ∧
                 (∃ dbs, d_bias net !! mdx = Some dbs ∧ dbs !! i = Some p.2))
              (λ mdx, dws ← getitem (d_weights net) mdx; dw ← getitem dws i;
                      dbs ← getitem (d_bias net) mdx; db ← getitem dbs i;
                      Ok (dw, db))
              0 (length (d_weights net))) as (t & Ht & HR).
  { intros mdx Hmdx.
    destruct (lookup_lt_is_Some_2 (d_weights net) mdx) as [dws Hdws]; [lia|].
    destruct (lookup_lt_is_Some_2 (d_bias net) mdx) as [dbs Hdbs]; [lia|].
    rewrite Forall_lookup in Hdw. pose proof (Hdw _ _ Hdws) as Hsh.
    rewrite Forall_lookup in Hdb. pose proof (Hdb _ _ Hdbs) as Hshb.
    destruct (lookup_lt_is_Some_2 dws i) as [dw Hdwi].
    { by rewrite <-(Forall2_length _ _ _ Hsh). }
    destruct (lookup_lt_is_Some_2 dbs i) as [db Hdbi].
    { by rewrite <-(Forall2_length _ _ _ Hshb). }
    exists (dw, db). split; [|split; eauto].
    rewrite (proj2 (getitem_Ok _ _ _) Hdws). cbn [mbind result_bind].
    rewrite (proj2 (getitem_Ok _ _ _) Hdwi). cbn [mbind result_bind].
    rewrite (proj2 (getitem_Ok _ _ _) Hdbs). cbn [mbind result_bind].
    rewrite (proj2 (getitem_Ok _ _ _) Hdbi). done. }
  exists t. split; [done|].
  pose proof (Forall2_length _ _ _ HR) as Htlen. rewrite length_seq in Htlen.
  split.
  - apply Forall2_same_length_lookup_2; [by rewrite length_fmap|].
    intros mdx dws dw Hdws Hdw'. rewrite list_lookup_fmap in Hdw'.
    destruct (t !! mdx) as [p|] eqn:Hp; simplify_eq/=.
    rewrite Forall2_lookup in HR. specialize (HR mdx).
    rewrite lookup_seq_lt in HR by (by apply lookup_lt_Some in Hdws).
    rewrite Hp in HR. inversion HR as [? ? [(dws' & H1 & H2) _]|]; simplify_eq/=.
    done.
  - apply Forall2_same_length_lookup_2; [rewrite length_fmap; lia|].
    intros mdx dbs db Hdbs Hdb'. rewrite list_lookup_fmap in Hdb'.
    destruct (t !! mdx) as [p|] eqn:Hp; simplify_eq/=.
    rewrite Forall2_lookup in HR. specialize (HR mdx).
    rewrite lookup_seq_lt in HR by (apply lookup_lt_Some in Hdbs; lia).
    rewrite Hp in HR. inversion HR as [? ? [_ (dbs' & H1 & H2)]|]; simplify_eq/=.
    done.
Qed.

Lemma Forall2_compose {A B C : Type} (P : A → B → Prop) (Q : B → C → Prop)
  (R : A → C → Prop) (l : list A) (k : list B) (m : list C) :
  (∀ x y z, P x y → Q y z → R x z) →
  Forall2 P l k → Forall2 Q k m → Forall2 R l m.
Proof.
  intros HR HP. revert m. induction HP; intros m HQ; inversion HQ; subst;
    constructor; eauto.
Qed.

(** *** Sums of stacked arrays, entry by entry *)

Lemma fold_vec_add_entry (l : list (Vec F)) (v : Vec F) (r : nat) (e0 : F) :
  Forall (λ u, length u = length v) l → v !! r = Some e0 →
  ∃ es, Forall2 (λ u x, u !! r = Some x) l es ∧
        fold_left vec_add l v !! r = Some (fold_left fadd es e0).
Proof.
  revert v e0. induction l as [|u l IH]; intros v e0 Hl Hv; simpl.
  - by exists [].
  - apply Forall_cons_1 in Hl as [Hu Hl].
    destruct (lookup_lt_is_Some_2 u r) as [x Hx].
    { rewrite Hu. by apply lookup_lt_Some in Hv. }
    destruct (IH (vec_add v u) (fadd e0 x)) as (es & Hes & Hfold).
    + eapply Forall_impl; [done|]. intros u' Hu'. cbn in Hu'.
      unfold vec_add. rewrite length_zip_with. lia.
    + unfold vec_add. rewrite lookup_zip_with, Hv. cbn. by rewrite Hx.
    + exists (x :: es). split; [by constructor|done].
Qed.

Lemma fold_vec_add_length (l : list (Vec F)) (v : Vec F) :
  Forall (λ u, length u = length v) l →
  length (fold_left vec_add l v) = length v.
Proof.
  revert v. induction l as [|u l IH]; intros v Hl; simpl; [done|].
  apply Forall_cons_1 in Hl as [Hu Hl].
  assert (length (vec_add v u) = length v) as Hlen.
  { unfold vec_add. rewrite length_zip_with. lia. }
  rewrite IH; [done|]. eapply Forall_impl; [done|]. intros u' Hu'. cbn in *.
  congruence.
Qed.

Lemma mentry_Some (m : Mat F) (r c : nat) (e : F) :
  mentry m r c = Some e ↔ ∃ row, m !! r = Some row ∧ row !! c = Some e.
Proof.
  unfold mentry. destruct (m !! r) as [row|]; simpl; split.
  - intros He. by exists row.
  - by intros (row' & [= <-] & He).
  - done.
  - by intros (row' & ? & _).
Qed.

Lemma same_shape_row (m u : Mat F) (r : nat) (row : Vec F) :
  map length u = map length m → m !! r = Some row →
  ∃ row', u !! r = Some row' ∧ length row' = length row.
Proof.
  intros Hsh Hrow.
  assert (map length u !! r = Some (length row)) as Hr.
  { by rewrite Hsh, list_lookup_fmap, Hrow. }
  rewrite list_lookup_fmap in Hr.
  destruct (u !! r) as [row'|]; simplify_eq/=. by exists row'.
Qed.

Lemma mat_add_shape (m u : Mat F) :
  map length u = map length m → map length (mat_add m u) = map length m.
Proof.
  revert u. induction m as [|row m IH]; intros [|row' u] Hsh; simplify_eq/=;
    [done|].
  f_equal; [|by apply IH].
  unfold vec_add. rewrite length_zip_with. lia.
Qed.

Lemma mat_add_entry (m u : Mat F) (r c : nat) (e x : F) :
  mentry m r c = Some e → mentry u r c = Some x →
  mentry (mat_add m u) r c = Some (fadd e x).
Proof.
  rewrite !mentry_Some. intros (row & Hrow & He) (row' & Hrow' & Hx).
  exists (vec_add row row'). unfold mat_add, vec_add.
  rewrite !lookup_zip_with, Hrow, Hrow'. cbn. by rewrite He, Hx.
Qed.

Lemma fold_mat_add_entry (l : list (Mat F)) (m : Mat F) (r c : nat) (e0 : F) :
  Forall (λ u, map length u = map length m) l → mentry m r c = Some e0 →
  ∃ es, Forall2 (λ u x, mentry u r c = Some x) l es ∧
        mentry (fold_left mat_add l m) r c = Some (fold_left fadd es e0).
Proof.
  revert m e0. induction l as [|u l IH]; intros m e0 Hl Hm; simpl.
  - by exists [].
  - apply Forall_cons_1 in Hl as [Hu Hl].
    assert (∃ x, mentry u r c = Some x) as [x Hx].
    { apply mentry_Some in Hm as (row & Hrow & He).
      destruct (same_shape_row m u r row Hu Hrow) as (row' & Hrow' & Hlen).
      destruct (lookup_lt_is_Some_2 row' c) as [x Hx].
      { rewrite Hlen. by apply lookup_lt_Some in He. }
      exists x. apply mentry_Some. eauto. }
    destruct (IH (mat_add m u) (fadd e0 x)) as (es & Hes & Hfold).
    + eapply Forall_impl; [done|]. intros u' Hu'. cbn in Hu'.
      rewrite mat_add_shape; done.
    + by apply mat_add_entry.
    + exists (x :: es). split; [by constructor|done].
Qed.

Lemma fold_mat_add_shape (l : list (Mat F)) (m : Mat F) :
  Forall (λ u, map length u = map length m) l →
  map length (fold_left mat_add l m) = map length m.
Proof.
  revert m. induction l as [|u l IH]; intros m Hl; simpl; [done|].
  apply Forall_cons_1 in Hl as [Hu Hl].
  rewrite IH; [by apply mat_add_shape|].
  eapply Forall_impl; [done|]. intros u' Hu'. cbn in *.
  rewrite mat_add_shape; done.
Qed.

(** *** The mean over the sample axis and the subtraction in place *)

Lemma mean_axis0_mat_spec (ds : list (Mat F)) (w : Mat F) :
  ds ≠ [] → Forall (λ d, map length d = map length w) ds →
  ∃ M, mean_axis0_mat ds = Ok (Arr M) ∧ map length M = map length w ∧
       ∀ r c e, mentry w r c = Some e →
         ∃ es, Forall2 (λ d x, mentry d r c = Some x) ds es ∧
               mentry M r c = Some (fdiv (np_sum es) (fof_nat (length ds))).
Proof.
  destruct ds as [|m l]; [done|]. intros _ Hds.
  apply Forall_cons_1 in Hds as [Hm Hl].
  assert (Forall (λ u, map length u = map length m) l) as Hl'.
  { eapply Forall_impl; [done|]. intros u Hu. cbn in *. congruence. }
  eexists. split; [|split].
  - unfold mean_axis0_mat. rewrite decide_True by done. reflexivity.
  - rewrite <-list_fmap_compose.
    rewrite <-Hm, <-(fold_mat_add_shape l m Hl').
    apply list_fmap_ext. intros _ row _. cbn. by rewrite length_map.
  - intros r c e He.
    assert (∃ e0, mentry m r c = Some e0) as [e0 He0].
    { apply mentry_Some in He as (row & Hrow & He).
      destruct (same_shape_row w m r row Hm Hrow) as (row' & Hrow' & Hlen).
      destruct (lookup_lt_is_Some_2 row' c) as [x Hx].
      { rewrite Hlen. by apply lookup_lt_Some in He. }
      exists x. apply mentry_Some. eauto. }
    destruct (fold_mat_add_entry l m r c e0 Hl' He0) as (es & Hes & Hfold).
    exists (e0 :: es). split; [by constructor|].
    apply mentry_Some in Hfold as (row & Hrow & Hc).
    apply mentry_Some. eexists. split.
    + rewrite list_lookup_fmap, Hrow. reflexivity.
    + rewrite list_lookup_fmap, Hc. reflexivity.
Qed.

Lemma mean_axis0_vec_spec (ds : list (Vec F)) (b : Vec F) :
  ds ≠ [] → Forall (λ d, length d = length b) ds →
  ∃ M, mean_axis0_vec ds = Ok (Arr M) ∧ length M = length b ∧
       ∀ r e, b !! r = Some e →
         ∃ es, Forall2 (λ d x, d !! r = Some x) ds es ∧
               M !! r = Some (fdiv (np_sum es) (fof_nat (length ds))).
Proof.
  destruct ds as [|v l]; [done|]. intros _ Hds.
  apply Forall_cons_1 in Hds as [Hv Hl].
  assert (Forall (λ u, length u = length v) l) as Hl'.
  { eapply Forall_impl; [done|]. intros u Hu. cbn in *. congruence. }
  eexists. split; [|split].
  - unfold mean_axis0_vec. rewrite decide_True by done. reflexivity.
  - by rewrite length_map, fold_vec_add_length.
  - intros r e He.
    destruct (lookup_lt_is_Some_2 v r) as [e0 He0].
    { rewrite Hv. by apply lookup_lt_Some in He. }
    destruct (fold_vec_add_entry l v r e0 Hl' He0) as (es & Hes & Hfold).
    exists (e0 :: es). split; [by constructor|].
    rewrite list_lookup_fmap, Hfold. reflexivity.
Qed.

Lemma isub_row_same_length (t o : Vec F) :
  length o = length t → isub_row t o = Ok (zip_with fsub t o).
Proof.
  intros Hlen. unfold isub_row.
  destruct o as [|b [|b' o]]; [by rewrite decide_True| |by rewrite decide_True].
  destruct t as [|a [|a' t]]; by simplify_eq/=.
Qed.

Lemma isub_rows_same_shape (t o : Mat F) :
  map length o = map length t →
  traverse (λ p, isub_row p.1 p.2) (zip t o) = Ok (zip_with (zip_with fsub) t o).
Proof.
  revert o. induction t as [|tr t IH]; intros [|r o] Hsh; simplify_eq/=; [done..|].
  rewrite isub_row_same_length by done. cbn [mbind result_bind].
  rewrite IH by done. done.
Qed.

Lemma isub_mat_same_shape (t o : Mat F) :
  map length o = map length t →
  isub_mat t (Arr o) = Ok (zip_with (zip_with fsub) t o).
Proof.
  intros Hsh. pose proof (f_equal length Hsh) as Hlen. rewrite !length_map in Hlen.
  unfold isub_mat. destruct o as [|r [|r' o]].
  - rewrite decide_True by done. by apply isub_rows_same_shape.
  - destruct t as [|tr [|tr' t]]; simplify_eq/=.
    by rewrite isub_row_same_length.
  - rewrite decide_True by done. by apply isub_rows_same_shape.
Qed.

Lemma zip_sub_entry (t o : Mat F) (r c : nat) (e x : F) :
  mentry t r c = Some e → mentry o r c = Some x →
  mentry (zip_with (zip_with fsub) t o) r c = Some (fsub e x).
Proof.
  rewrite !mentry_Some. intros (row & Hrow & He) (row' & Hrow' & Hx).
  exists (zip_with fsub row row').
  rewrite !lookup_zip_with, Hrow, Hrow'. cbn. by rewrite He, Hx.
Qed.

Lemma zip_sub_shape (t o : Mat F) :
  map length o = map length t →
  map length (zip_with (zip_with fsub) t o) = map length t.
Proof.
  revert o. induction t as [|row t IH]; intros [|row' o] Hsh; simplify_eq/=;
    [done|].
  f_equal; [|by apply IH]. rewrite length_zip_with. lia.
Qed.

(** *** The loop of [step] *)

Lemma step_layer_inv (net : NeuralNetwork F) (k : nat) (t : NeuralNetwork F) :
  length (bias net) = length (weights net) → wf_grads net →
  d_weights net ≠ [] → k < length (weights net) →
  step_inv net k t →
  ∃ t', step_layer k t = Ok t' ∧ step_inv net (S k) t'.
Proof.
  intros Hbw Hgr Hne Hk (Hsame & Hwl & Hbl & Hrest & Hdone).
  destruct Hsame as (Hl & Hlr & Hf & [Hzs Has] & [Hdw Hdb]).
  destruct (Hrest k) as [Hwk Hbk]; [done|].
  destruct (lookup_lt_is_Some_2 (weights net) k) as [w Hw]; [done|].
  destruct (lookup_lt_is_Some_2 (bias net) k) as [b Hb]; [lia|].
  destruct (gather_spec net k) as (g & Hg & Hgw & Hgb); [done|done|lia|].
  assert (gather t k = Ok g) as Hg'.
  { unfold gather in *. by rewrite Hdw, Hdb. }
  destruct Hgr as [Hglen Hgdw Hgdb].
  (* the mean of the weight gradients *)
  destruct (mean_axis0_mat_spec (g.*1) w) as (M & HM & HMsh & HMe).
  { intros Hnil. apply Forall2_length in Hgw. rewrite Hnil in Hgw.
    by destruct (d_weights net). }
  { apply Forall_forall. intros dw [j Hj]%list_elem_of_lookup_1.
    rewrite Forall2_lookup in Hgw. specialize (Hgw j). rewrite Hj in Hgw.
    inversion Hgw as [dws ? Hdwsk Hdws|]; subst.
    rewrite Forall_lookup in Hgdw. symmetry in Hdws.
    pose proof (Hgdw _ _ Hdws) as Hsh.
    rewrite Forall2_lookup in Hsh. specialize (Hsh k).
    rewrite Hw, Hdwsk in Hsh. by inversion Hsh. }
  (* the mean of the bias gradients *)
  destruct (mean_axis0_vec_spec (g.*2) b) as (B & HB & HBlen & HBe).
  { intros Hnil. apply Forall2_length in Hgb. rewrite Hnil, Hglen in Hgb.
    by destruct (d_weights net). }
  { apply Forall_forall. intros db [j Hj]%list_elem_of_lookup_1.
    rewrite Forall2_lookup in Hgb. specialize (Hgb j). rewrite Hj in Hgb.
    inversion Hgb as [dbs ? Hdbsk Hdbs|]; subst.
    rewrite Forall_lookup in Hgdb. symmetry in Hdbs.
    pose proof (Hgdb _ _ Hdbs) as Hsh.
    rewrite Forall2_lookup in Hsh. specialize (Hsh k).
    rewrite Hb, Hdbsk in Hsh. by inversion Hsh. }
  eexists. split.
  { unfold step_layer. rewrite Hg'. cbn [mbind result_bind].
    rewrite HM. cbn [mbind result_bind]. rewrite HB. cbn [mbind result_bind].
    rewrite (proj2 (getitem_Ok _ _ _) (eq_trans Hwk Hw)). cbn [mbind result_bind].
    rewrite isub_mat_same_shape by done. cbn [mbind result_bind].
    rewrite setitem_Ok by lia. cbn [mbind result_bind].
    rewrite (proj2 (getitem_Ok _ _ _) (eq_trans Hbk Hb)). cbn [mbind result_bind].
    cbn [isub_vec]. rewrite isub_row_same_length by done.
    cbn [mbind result_bind]. rewrite setitem_Ok by lia. reflexivity. }
  unfold step_inv, same_but_params, same_caches, same_grads. cbn.
  rewrite !length_insert. split_and!; try done.
  - intros i Hi. rewrite !list_lookup_insert_ne by lia. apply Hrest. lia.
  - intros i w0 b0 Hi Hw0 Hb0. destruct (decide (i = k)) as [->|Hik].
    + simplify_eq. rewrite !list_lookup_insert_eq by lia.
      eexists _, _. split_and!; [done|done| |].
      * split; [by apply zip_sub_shape|].
        intros r c e He. destruct (HMe r c e He) as (es & Hes & HMrc).
        exists es. split.
        -- eapply Forall2_compose; [|exact Hgw|exact Hes].
           intros dws dw x Hdws Hx. unfold entry3. rewrite Hdws. exact Hx.
        -- rewrite (zip_sub_entry w M r c e _ He HMrc).
           by rewrite (Forall2_length _ _ _ Hgw).
      * split; [rewrite length_zip_with; lia|].
        intros r e He. destruct (HBe r e He) as (es & Hes & HBr).
        exists es. split.
        -- eapply Forall2_compose; [|exact Hgb|exact Hes].
           intros dbs db x Hdbs Hx. unfold entry2. rewrite Hdbs. exact Hx.
        -- rewrite lookup_zip_with, He. cbn. rewrite HBr. cbn.
           by rewrite (Forall2_length _ _ _ Hgb).
    + rewrite !list_lookup_insert_ne by done. apply Hdone; [lia|done..].
Qed.

Lemma step_spec (net : NeuralNetwork F) :
  length (bias net) = length (weights net) → wf_grads net →
  1 ≤ length (d_weights net) →
  ∃ net',
    step net = Ok net' ∧
    length (weights net') = length (weights net) ∧
    length (bias net') = length (bias net) ∧
    (∀ i w b, weights net !! i = Some w → bias net !! i = Some b →
       ∃ w' b', weights net' !! i = Some w' ∧ bias net' !! i = Some b' ∧
                mat_stepped (d_weights net) i w w' ∧
                vec_stepped (d_bias net) i b b') ∧
    same_but_params net' net.
Proof.
  intros Hbw Hgr Hn.
  destruct (for_each_seq (step_inv net) step_layer 0 (length (weights net)) net)
    as (net' & Hstep & Hsame & Hwl & Hbl & _ & Hdone).
  { unfold step_inv, same_but_params, same_caches, same_grads.
    split_and!; try done. intros i w b Hi. lia. }
  { intros k t Hk Ht. apply step_layer_inv; try done; [|lia].
    intros Hnil. rewrite Hnil in Hn. cbn in Hn. lia. }
  exists net'. split_and!; try done.
  intros i w b Hw Hb. apply Hdone; [|done..].
  apply lookup_lt_Some in Hw. lia.
Qed.

(** C3: when the accumulators hold [n >= 1] entries of the shapes of the
    parameters, [step] returns; every weight matrix [W_i] has become [W_i]
    minus the elementwise mean of the [n] accumulated weight gradients of
    its layer and every bias vector [b_i] has become [b_i] minus the
    elementwise mean of the [n] accumulated bias gradients; the number and
    shapes of the parameters, and every other field, are as before. *)
Theorem step_subtracts_means (net : NeuralNetwork F) :
  length (bias net) = length (weights net) → wf_grads net →
  1 ≤ length (d_weights net) →
  ∃ net',
    step net = Ok net' ∧
    length (weights net') = length (weights net) ∧
    length (bias net') = length (bias net) ∧
    (∀ i w b, weights net !! i = Some w → bias net !! i = Some b →
       ∃ w' b', weights net' !! i = Some w' ∧ bias net' !! i = Some b' ∧
                mat_stepped (d_weights net) i w w' ∧
                vec_stepped (d_bias net) i b b') ∧
    same_but_params net' net.
Proof.
  intros Hbw Hgr Hn.
  destruct (step_spec net Hbw Hgr Hn) as (net' & Hstep & Hwl & Hbl & He & Hs).
  exists net'. split_and!; [exact Hstep|exact Hwl|exact Hbl| |exact Hs].
  intros i w b Hw Hb. exact (He i w b Hw Hb).
Qed.
End Step.

(** C3, witness: [step] on [net0_backward], which holds one entry. *)
Lemma step_subtracts_means_witness :
  ∃ net',
    step Examples.net0_backward = Ok net' ∧
    length (weights net') = length (weights Examples.net0_backward) ∧
    length (bias net') = length (bias Examples.net0_backward) ∧
    (∀ i w b, weights Examples.net0_backward !! i = Some w →
              bias Examples.net0_backward !! i = Some b →
       ∃ w' b', weights net' !! i = Some w' ∧ bias net' !! i = Some b' ∧
                mat_stepped (d_weights Examples.net0_backward) i w w' ∧
                vec_stepped (d_bias Examples.net0_backward) i b b') ∧
    same_but_params net' Examples.net0_backward.
Proof.
  apply (step_subtracts_means Examples.net0_backward).
  - reflexivity.
  - split; [reflexivity|repeat constructor..].
  - cbn. lia.
Defined.

(** The parameters this step leaves, evaluated. *)
Example step_net0 :
  ∃ net', step Examples.net0_backward = Ok net' ∧
          weights net' = [[[-1; -1.75]]]%float ∧ bias net' = [[-0.75]]%float.
Proof. eexists. split; [vm_compute; reflexivity|]. by vm_compute. Qed.

(** ** step on empty accumulators *)

Section StepEmpty.
Context {F : Type} `{!Scalar F}.

Lemma insert_take_drop {A : Type} (g : A → A) (l : list A) (k : nat) (x : A) :
  l !! k = Some x →
  <[k:=g x]> (map g (take k l) ++ drop k l)
  = map g (take (S k) l) ++ drop (S k) l.
Proof.
  intros Hx. pose proof (lookup_lt_Some _ _ _ Hx) as Hk.
  rewrite insert_app_r_alt by (rewrite length_map, length_take; lia).
  rewrite length_map, length_take, Nat.min_l, Nat.sub_diag by lia.
  rewrite (drop_S _ _ _ Hx). cbn.
  rewrite (take_S_r _ _ _ Hx), map_app, <-app_assoc. done.
Qed.

Lemma lookup_take_drop {A : Type} (g : A → A) (l : list A) (k : nat) :
  (map g (take k l) ++ drop k l) !! k = l !! k.
Proof.
  destruct (decide (k < length l)) as [Hk|Hk].
  - rewrite lookup_app_r by (rewrite length_map, length_take; lia).
    rewrite length_map, length_take, Nat.min_l, Nat.sub_diag by lia.
    by rewrite lookup_drop, Nat.add_0_r.
  - rewrite (lookup_ge_None_2 l) by lia. apply lookup_ge_None_2.
    rewrite length_app, length_map, length_take, length_drop. lia.
Qed.

Lemma step_layer_empty (net : NeuralNetwork F) (k : nat) (t : NeuralNetwork F) :
  length (bias net) = length (weights net) → d_weights net = [] →
  k < length (weights net) →
  step_empty_inv net k t →
  ∃ t', step_layer k t = Ok t' ∧ step_empty_inv net (S k) t'.
Proof.
  intros Hbw Hdw Hk (Hsame & Hw & Hb).
  destruct Hsame as (Hl & Hlr & Hf & Hcache & [Hdwt Hdbt]).
  destruct (lookup_lt_is_Some_2 (weights net) k) as [w Hwk]; [done|].
  destruct (lookup_lt_is_Some_2 (bias net) k) as [b Hbk]; [lia|].
  assert (length (weights t) = length (weights net)) as Hwl.
  { rewrite Hw, length_app, length_map, length_take, length_drop. lia. }
  assert (length (bias t) = length (bias net)) as Hbl.
  { rewrite Hb, length_app, length_map, length_take, length_drop. lia. }
  eexists. split.
  { unfold step_layer, gather. rewrite Hdwt, Hdw. cbn [length seq traverse].
    cbn [mbind result_bind fmap list_fmap mean_axis0_mat mean_axis0_vec].
    rewrite (proj2 (getitem_Ok (weights t) k w)) by (by rewrite Hw, lookup_take_drop).
    cbn [mbind result_bind isub_mat].
    rewrite setitem_Ok by lia. cbn [mbind result_bind].
    rewrite (proj2 (getitem_Ok (bias t) k b)) by (by rewrite Hb, lookup_take_drop).
    cbn [mbind result_bind isub_vec].
    rewrite setitem_Ok by lia. reflexivity. }
  unfold step_empty_inv, same_but_params, same_grads. cbn.
  split_and!; try done.
  - rewrite Hw. by apply (insert_take_drop (map (map (λ a, fsub a empty_mean)))).
  - rewrite Hb. by apply (insert_take_drop (map (λ a, fsub a empty_mean))).
Qed.

(** X6: on empty accumulators [step] returns, and it has subtracted the
    mean of an empty stack, [0 / 0], from every weight and every bias. *)
Lemma step_empty (net : NeuralNetwork F) :
  length (bias net) = length (weights net) → d_weights net = [] →
  step net
  = Ok (set_params net
          (map (map (map (λ a, fsub a empty_mean))) (weights net))
          (map (map (λ a, fsub a empty_mean)) (bias net))).
Proof.
  intros Hbw Hdw.
  destruct (for_each_seq (step_empty_inv net) step_layer 0
              (length (weights net)) net) as (t & Ht & Hsame & Hw & Hb).
  { unfold step_empty_inv, same_but_params, same_caches, same_grads.
    rewrite !take_0, !drop_0. done. }
  { intros k u Hk Hu. apply step_layer_empty; [done..|lia|done]. }
  unfold step. rewrite Ht. f_equal.
  cbn in Hw, Hb. rewrite take_ge, drop_ge, app_nil_r in Hw by lia.
  rewrite take_ge, drop_ge, app_nil_r in Hb by lia.
  destruct Hsame as (Hl & Hlr & Hf & [Hzs Has] & [Hdwt Hdbt]).
  destruct t; cbn in *. unfold set_params. cbn. congruence.
Qed.
End StepEmpty.

(** ** An epoch of fit runs to completion *)

Section Epoch.
Context {F : Type} `{!Scalar F}.

Lemma wf_grads_same (t net : NeuralNetwork F) :
  same_params t net → same_grads t net → wf_grads net → wf_grads t.
Proof.
  intros (_ & _ & Hw & _ & Hb) [Hdw Hdb] [H1 H2 H3].
  split; by rewrite ?Hw, ?Hb, ?Hdw, ?Hdb.
Qed.

Lemma same_params_trans (t u net : NeuralNetwork F) :
  same_params t u → same_params u net → same_params t net.
Proof. unfold same_params. intros (?&?&?&?&?) (?&?&?&?&?). split_and!; congruence. Qed.

Lemma last_width_lookup (net : NeuralNetwork F) :
  wf_network net →
  ∃ n, widths net !! (length (layers net) - 1) = Some n.
Proof.
  intros Hwf. apply widths_lookup. pose proof (wf_layers _ Hwf). lia.
Qed.

(** One sample of training keeps the network well formed and adds one
    entry to the accumulators. *)
Lemma train_sample_wf (L : Loss F) (x y : Vec F) (Y : list (Vec F))
  (net : NeuralNetwork F) (n : nat) :
  wf_network net → wf_grads net →
  widths net !! 0 = Some (length x) →
  widths net !! (length (layers net) - 1) = Some n →
  loss_accepts L n Y → y ∈ Y →
  ∃ net', train_sample L (x, y) net = Ok net' ∧
          wf_network net' ∧ wf_grads net' ∧ same_params net' net ∧
          length (d_weights net') = S (length (d_weights net)).
Proof.
  intros Hwf Hgr Hx Hn HL Hy.
  destruct (forward_spec net x Hwf Hx)
    as (net1 & out & Hfwd & _ & _ & Hout & Hpar & Hgrs & Hc & Hzs & Has).
  destruct (forward_wf net net1 x out Hwf Hx Hfwd) as (Hwf1 & _ & _ & _).
  assert (wf_grads net1) as Hgr1 by (by apply (wf_grads_same net1 net)).
  assert (layers net1 = layers net) as Hl by apply Hpar.
  rewrite last_lookup, Has, (wf_as_len _ Hwf) in Hout.
  replace (pred (length (layers net))) with (length (layers net) - 1) in Hout
    by lia.
  assert (length out = n) as Houtlen.
  { apply (Hc (length (layers net) - 1)); [done|].
    by unfold widths; rewrite Hl. }
  destruct (HL out y Hy Houtlen) as [[v Hv] _].
  assert (loss_fits net1 y L) as Hfits.
  { intros a m Ha Hm. rewrite Hl in Ha. unfold widths in Hm. rewrite Hl in Hm.
    fold (widths net) in Hm. rewrite Hn in Hm. injection Hm as <-.
    apply HL; [done|]. congruence. }
  destruct (backward_spec net1 y L Hwf1 Hc Hfits)
    as (net2 & dw & db & Hbw & _ & _ & _ & _ & _ & Hpar2 & _).
  destruct (backward_wf_grads net1 net2 y L Hwf1 Hc Hfits Hgr1 Hbw)
    as (Hwf2 & _ & Hgr2 & Hlen2).
  exists net2. split_and!; try done.
  - unfold train_sample. cbn [fst snd]. rewrite Hfwd. cbn [mbind result_bind].
    rewrite Hv. cbn [mbind result_bind]. exact Hbw.
  - by apply (same_params_trans net2 net1 net).
  - rewrite Hlen2. f_equal. destruct Hgrs as [-> _]. done.
Qed.

(** A loop over a list with an invariant indexed by the number of
    iterations made. *)
Lemma for_each_count {St A : Type} (P : nat → St → Prop) (Q : A → Prop)
  (body : A → St → result St) (l : list A) (s : St) :
  Forall Q l → P 0 s →
  (∀ k x t, Q x → P k t → ∃ t', body x t = Ok t' ∧ P (S k) t') →
  ∃ s', for_each body l s = Ok s' ∧ P (length l) s'.
Proof.
  intros Hl Hs Hbody. revert P s Hs Hbody.
  induction Hl as [|x l Hx _ IH]; intros P s Hs Hbody; simpl.
  - by exists s.
  - destruct (Hbody 0 x s Hx Hs) as (t & Ht & HP). rewrite Ht. simpl.
    apply (IH (λ k, P (S k))); [done|]. intros k y u Hy Hu. by apply Hbody.
Qed.

(** [step] keeps a network well formed: the parameters keep their shapes. *)
Lemma step_wf (net net' : NeuralNetwork F) :
  wf_network net → wf_grads net → 1 ≤ length (d_weights net) →
  step net = Ok net' → wf_network net' ∧ same_grads net' net.
Proof.
  intros Hwf Hgr Hn Hstep.
  destruct (step_spec net (wf_bias_len _ Hwf) Hgr Hn)
    as (t & Ht & Hwl & Hbl & He & Hl & Hlr & Hf & [Hzs Has] & Hg).
  rewrite Hstep in Ht. injection Ht as <-. split; [|done].
  destruct Hwf as [H1 H2 H3 H4 H5 H6 H7 H8 H9].
  split; unfold widths in *; rewrite ?Hl, ?Hwl, ?Hbl, ?Hf, ?Hzs, ?Has; try done.
  - intros i w' m n Hw' Hm Hn'.
    destruct (lookup_lt_is_Some_2 (weights net) i) as [w Hw].
    { rewrite <-Hwl. by apply lookup_lt_Some in Hw'. }
    destruct (lookup_lt_is_Some_2 (bias net) i) as [b Hb].
    { rewrite H2. by apply lookup_lt_Some in Hw. }
    destruct (He i w b Hw Hb) as (w2 & b2 & Hw2 & _ & [Hsh _] & _).
    rewrite Hw' in Hw2. injection Hw2 as <-.
    destruct (H7 i w m n Hw Hm Hn') as [Hrows Hcols].
    pose proof (f_equal length Hsh) as Hlen. rewrite !length_map in Hlen.
    split; [congruence|].
    apply Forall_lookup. intros r row Hrow.
    assert (map length w' !! r = Some (length row)) as Hr
      by (by rewrite list_lookup_fmap, Hrow).
    rewrite Hsh, list_lookup_fmap in Hr.
    destruct (w !! r) as [row0|] eqn:Hrow0; simplify_eq/=.
    rewrite Forall_lookup in Hcols. rewrite <-Hr. by apply (Hcols r).
  - intros i b' n Hb' Hn'.
    destruct (lookup_lt_is_Some_2 (bias net) i) as [b Hb].
    { rewrite <-Hbl. by apply lookup_lt_Some in Hb'. }
    destruct (lookup_lt_is_Some_2 (weights net) i) as [w Hw].
    { rewrite <-H2. by apply lookup_lt_Some in Hb. }
    destruct (He i w b Hw Hb) as (w2 & b2 & _ & Hb2 & _ & [Hlen _]).
    rewrite Hb' in Hb2. injection Hb2 as <-.
    rewrite Hlen. by apply (H8 i).
Qed.

(** One epoch of [fit] on a well-formed network with empty accumulators
    and at least one sample returns a well-formed network with empty
    accumulators. *)
Lemma fit_epoch_wf (X Y : list (Vec F)) (L : Loss F) (net : NeuralNetwork F)
  (n : nat) :
  wf_network net → d_weights net = [] → d_bias net = [] →
  Forall (λ x, widths net !! 0 = Some (length x)) X →
  widths net !! (length (layers net) - 1) = Some n →
  loss_accepts L n Y → 1 ≤ length X → 1 ≤ length Y →
  ∃ net', fit_epoch X Y L net = Ok net' ∧ wf_network net' ∧
          d_weights net' = [] ∧ d_bias net' = [] ∧
          layers net' = layers net.
Proof.
  intros Hwf Hdw Hdb HX Hn HL HnX HnY.
  destruct (for_each_count (epoch_inv net)
              (λ xy : Vec F * Vec F,
                 widths net !! 0 = Some (length xy.1) ∧ xy.2 ∈ Y)
              (train_sample L) (zip X Y) net)
    as (net1 & Hloop & Hwf1 & Hgr1 & Hpar1 & Hlen1).
  { apply Forall_forall. intros [x y] Hxy. cbn. split.
    - rewrite Forall_forall in HX. apply HX.
      pose proof (elem_of_zip_l _ _ _ _ Hxy). done.
    - apply (elem_of_zip_r _ _ _ _ Hxy). }
  { unfold epoch_inv, same_params. split_and!; try done.
    split; rewrite ?Hdw, ?Hdb; done. }
  { intros k [x y] t [Hx Hy] (Hwft & Hgrt & Hpart & Hlent). cbn in Hx, Hy.
    assert (layers t = layers net) as Hl by apply Hpart.
    destruct (train_sample_wf L x y Y t n) as (t' & Ht' & Hwf' & Hgr' & Hpar' & Hlen');
      [done|done|by unfold widths; rewrite Hl|by unfold widths; rewrite Hl
      |done|done|].
    exists t'. split; [done|]. unfold epoch_inv. split_and!; try done.
    - by apply (same_params_trans t' t net).
    - lia. }
  assert (1 ≤ length (d_weights net1)) as Hpos.
  { rewrite Hlen1, length_zip. lia. }
  destruct (step_spec net1 (wf_bias_len _ Hwf1) Hgr1 Hpos)
    as (net2 & Hstep & _ & _ & _ & Hl2 & _).
  destruct (step_wf net1 net2 Hwf1 Hgr1 Hpos Hstep) as [Hwf2 _].
  exists (clear net2). split_and!; try done.
  - unfold fit_epoch. rewrite Hloop. cbn [mbind result_bind].
    rewrite Hstep. done.
  - by destruct Hwf2.
  - cbn. rewrite Hl2. apply Hpar1.
Qed.

(** X7: [fit] runs to completion, whatever the number of epochs, on a
    well-formed network with empty accumulators, for at least one sample,
    samples of [width[0]] values and a loss that accepts the outputs; the
    network it returns is well formed. *)
Lemma fit_succeeds (X Y : list (Vec F)) (L : Loss F) (n_epochs : nat)
  (net : NeuralNetwork F) (n : nat) :
  wf_network net → d_weights net = [] → d_bias net = [] →
  Forall (λ x, widths net !! 0 = Some (length x)) X →
  widths net !! (length (layers net) - 1) = Some n →
  loss_accepts L n Y → 1 ≤ length X → 1 ≤ length Y →
  ∃ net', fit X Y L n_epochs net = Ok net' ∧ wf_network net'.
Proof.
  intros Hwf Hdw Hdb HX Hn HL HnX HnY. unfold fit. generalize 0.
  revert net Hwf Hdw Hdb HX Hn.
  induction n_epochs as [|k IH]; intros net Hwf Hdw Hdb HX Hn a.
  - by exists net.
  - cbn [seq for_each].
    destruct (fit_epoch_wf X Y L net n) as (net1 & H1 & Hwf1 & Hdw1 & Hdb1 & Hl1);
      [done..|].
    rewrite H1. cbn [mbind result_bind].
    apply IH; try done; unfold widths; by rewrite Hl1.
Qed.
End Epoch.

(** ** minibatch_fit with one batch *)

Section FullBatch.
Context {F : Type} `{!Scalar F}.

(** With a batch as large as the dataset the reader yields one batch, the
    whole permutation, and stops at its second iteration. *)
Lemma reader_loop_full_batch (fuel n : nat) (perm : list nat) :
  1 ≤ n → length perm = n →
  reader_loop (S (S fuel)) n n 0 perm = Ok [perm].
Proof.
  intros Hn Hperm. cbn [reader_loop].
  rewrite Nat.mul_0_r, Nat.mul_1_r.
  rewrite decide_False by lia. rewrite (decide_False (P := n < 0 + n)) by lia.
  rewrite decide_True by lia. cbn [mbind result_bind].
  unfold slice. by rewrite drop_0, Nat.sub_0_r, take_ge by lia.
Qed.

Lemma traverse_getitem_seq {A : Type} (pre l : list A) :
  traverse (getitem (pre ++ l)) (seq (length pre) (length l)) = Ok l.
Proof.
  revert pre. induction l as [|x l IH]; intros pre; [done|].
  cbn [length seq traverse].
  rewrite (proj2 (getitem_Ok _ _ _) (list_lookup_middle pre l x _ eq_refl)).
  cbn [mbind result_bind].
  replace (pre ++ x :: l) with ((pre ++ [x]) ++ l) by by rewrite <-app_assoc.
  replace (S (length pre)) with (length (pre ++ [x]))
    by (rewrite length_app; simpl; lia).
  by rewrite IH.
Qed.

(** [X[np.arange(len(X))]] is [X]. *)
Lemma take_rows_all (X : list (Vec F)) : take_rows X (seq 0 (length X)) = Ok X.
Proof. apply (traverse_getitem_seq [] X). Qed.

Lemma minibatch_epoch_full_batch (fuel : nat) (X Y : list (Vec F)) (L : Loss F)
  (net : NeuralNetwork F) :
  1 ≤ length X → length Y = length X →
  minibatch_epoch (S (S fuel)) X Y L (length X) (seq 0 (length X)) net
  = fit_epoch X Y L net.
Proof.
  intros Hn HY. unfold minibatch_epoch, minibatch_reader.
  rewrite decide_True by (by apply Forall_singleton).
  rewrite reader_loop_full_batch by (by rewrite ?length_seq).
  cbn [mbind result_bind for_each]. unfold fit_batch.
  rewrite take_rows_all. cbn [mbind result_bind].
  rewrite <-HY, take_rows_all. cbn [mbind result_bind].
  unfold fit_epoch.
  destruct (for_each (train_sample L) (zip X Y) net) as [t| |]; cbn; [|done..].
  destruct (step t); done.
Qed.

(** X13: for a dataset of [n >= 1] samples, [minibatch_fit] with
    [batch_size = n] and the samples drawn in dataset order is [fit]: the
    same result, or the same exception, for any number of epochs. *)
Theorem minibatch_fit_full_batch (fuel : nat) (X Y : list (Vec F)) (L : Loss F)
  (n_epochs : nat) (perms : nat → list nat) (net : NeuralNetwork F) :
  1 ≤ length X → length Y = length X →
  (∀ epoch, perms epoch = seq 0 (length X)) →
  minibatch_fit (S (S fuel)) X Y L n_epochs (length X) perms net
  = fit X Y L n_epochs net.
Proof.
  intros Hn HY Hperm. unfold minibatch_fit, fit.
  generalize 0. revert net.
  induction n_epochs as [|k IH]; intros net a; [done|].
  cbn [seq for_each]. rewrite Hperm, minibatch_epoch_full_batch by done.
  destruct (fit_epoch X Y L net) as [t| |]; cbn; [|done..]. apply IH.
Qed.
End FullBatch.

(** C7: on the empty dataset, with [batch_size = 0] equal to its size,
    one epoch of [fit] and one epoch of [minibatch_fit] leave different
    parameters: [fit] calls [step] on empty accumulators, which turns the
    parameters into NaN, and [minibatch_fit] runs no batch and no [step]. *)
Theorem fit_and_minibatch_fit_differ_on_empty_dataset :
  ∃ net1 net2,
    fit [] [] MSE 1 Examples.net0 = Ok net1 ∧
    minibatch_fit 2 [] [] MSE 1 0 (λ _, []) Examples.net0 = Ok net2 ∧
    weights net1 = [[[PrimFloat.nan; PrimFloat.nan]]] ∧
    bias net1 = [[PrimFloat.nan]] ∧
    weights net2 = weights Examples.net0 ∧
    bias net2 = bias Examples.net0 ∧
    weights net1 ≠ weights net2.
Proof.
  eexists _, _. split; [vm_compute; reflexivity|].
  split; [vm_compute; reflexivity|].
  split_and!; done.
Qed.

(** ** Softmax, on the reals *)

Import Real.

Section RealFacts.
Local Open Scope R_scope.

Lemma fold_left_Rplus (l : list R) (a : R) : fold_left Rplus l a = a + Rsum l.
Proof.
  revert a. induction l as [|x l IH]; intros a; simpl; [lra|].
  rewrite IH. lra.
Qed.

Lemma np_sum_Rsum (l : list R) : np_sum l = Rsum l.
Proof. destruct l as [|x l]; simpl; [done|]. by rewrite fold_left_Rplus. Qed.

Lemma Rsum_div (l : list R) (s : R) :
  Rsum (map (λ e, e / s) l) = Rsum l / s.
Proof. induction l as [|x l IH]; simpl; [lra|]. rewrite IH. lra. Qed.

Lemma Rsum_exp_pos (l : list R) (m : R) :
  l ≠ [] → 0 < Rsum (map (λ v, exp (v - m)) l).
Proof.
  intros Hl. destruct l as [|x l]; [done|]. simpl.
  assert (0 <= Rsum (map (λ v, exp (v - m)) l)) as Hnn.
  { clear. induction l as [|y l IH]; simpl; [lra|].
    pose proof (exp_pos (y - m)). lra. }
  pose proof (exp_pos (x - m)). lra.
Qed.

(** [np.max] of a shifted array is the shifted [np.max]. *)
Lemma fold_left_Rmax_shift (l : list R) (a c : R) :
  fold_left Rmax (map (λ v, v + c) l) (a + c) = fold_left Rmax l a + c.
Proof.
  revert a. induction l as [|x l IH]; intros a; simpl; [done|].
  rewrite <-IH. f_equal. unfold Rmax.
  destruct (Rle_dec (a + c) (x + c)), (Rle_dec a x); lra.
Qed.

Lemma np_max_shift (l : list R) (c m : R) :
  np_max l = Ok m → np_max (map (λ v, v + c) l) = Ok (m + c).
Proof.
  destruct l as [|x l]; simpl; [done|]. intros [= <-].
  f_equal. apply (fold_left_Rmax_shift l x c).
Qed.

Lemma np_max_nonempty (l : list R) : l ≠ [] → ∃ m, np_max l = Ok m.
Proof. destruct l; [done|]. by eexists. Qed.

Lemma concat_map_map {A B : Type} (g : A → B) (x : list (list A)) :
  concat (map (map g) x) = map g (concat x).
Proof. induction x as [|r x IH]; simpl; [done|]. by rewrite IH, map_app. Qed.

Lemma map_map_shift (x : list (list R)) (c m : R) :
  map (map (λ v, exp (v - (m + c)))) (map (map (λ v, v + c)) x)
  = map (map (λ v, exp (v - m))) x.
Proof.
  rewrite <-list_fmap_compose. apply list_fmap_ext. intros _ row _. cbn.
  rewrite <-list_fmap_compose. apply list_fmap_ext. intros _ v _. cbn.
  f_equal. lra.
Qed.

(** C8, amended: for every array that is not empty, [CE.softmax] returns
    an array whose entries, all together, sum to 1; so the row sums to 1
    when the array is a single row, which [softmax] on that row computes;
    and adding one constant to every entry does not change the result. *)
Theorem softmax_sums_to_one_over_the_array (x : list (list R)) :
  concat x ≠ [] →
  ∃ p, softmax_2d x = Ok p ∧
       np_sum (concat p) = 1 ∧
       (∀ row, x = [row] →
          ∃ prow, p = [prow] ∧ softmax row = Ok prow ∧ np_sum prow = 1) ∧
       (∀ c, softmax_2d (map (map (λ v, v + c)) x) = Ok p).
Proof.
  intros Hne. destruct (np_max_nonempty _ Hne) as [m Hm].
  set (exps := map (map (λ v, exp (v - m))) x).
  set (s := np_sum (concat exps)).
  assert (0 < s) as Hs.
  { unfold s, exps. rewrite concat_map_map, np_sum_Rsum. by apply Rsum_exp_pos. }
  assert (np_sum (concat (map (map (λ e, e / s)) exps)) = 1) as Hsum.
  { rewrite concat_map_map, np_sum_Rsum, Rsum_div, <-np_sum_Rsum. fold s.
    field. lra. }
  exists (map (map (λ e, e / s)) exps). split_and!.
  - unfold softmax_2d. rewrite Hm. reflexivity.
  - exact Hsum.
  - intros row ->. eexists. split; [reflexivity|].
    cbn in Hm. rewrite app_nil_r in Hm.
    unfold softmax. rewrite Hm. cbn [mbind result_bind].
    unfold s, exps in *. cbn in *. rewrite !app_nil_r in *. done.
  - intros c. unfold softmax_2d.
    rewrite concat_map_map, (np_max_shift _ c m Hm). cbn [mbind result_bind].
    cbn [fsub fexp fdiv R_scalar R_elementary].
    rewrite map_map_shift. reflexivity.
Qed.

(** C8 as stated fails on an array of two rows: for [[[0], [0]]] the
    softmax is [[[1/2], [1/2]]], and neither row sums to 1.  On an empty
    array there is no softmax: [np.max] raises. *)
Lemma softmax_rows_do_not_sum_to_one :
  (∃ p, softmax_2d [[0]; [0]] = Ok p ∧
        p = [[1 / 2]; [1 / 2]] ∧
        Forall (λ row, np_sum row ≠ 1) p) ∧
  softmax (F := R) [] = Raise ValueError.
Proof.
  assert (softmax_2d [[0]; [0]] = Ok [[1 / 2]; [1 / 2]]) as H.
  { unfold softmax_2d. cbn. unfold Rmax. destruct (Rle_dec 0 0); [|lra].
    rewrite Rminus_diag, exp_0. do 5 f_equal; lra. }
  split; [|done].
  eexists. split; [exact H|]. split; [done|].
  repeat constructor; cbn; lra.
Qed.
End RealFacts.

(** C8, witness: the array of the single row [[0, 1]]. *)
Lemma softmax_sums_to_one_over_the_array_witness :
  ∃ p, softmax_2d [[0; 1]]%R = Ok p ∧
       np_sum (concat p) = 1%R ∧
       (∀ row, [[0; 1]]%R = [row] →
          ∃ prow, p = [prow] ∧ softmax row = Ok prow ∧ np_sum prow = 1%R) ∧
       (∀ c, softmax_2d (map (map (λ v, (v + c)%R)) [[0; 1]]%R) = Ok p).
Proof.
  apply (softmax_sums_to_one_over_the_array [[0; 1]]%R). discriminate.
Defined.

(** ** Sigmoid, on the reals *)

Section SigmoidFacts.
Local Open Scope R_scope.

Lemma Sigmoid_negative_exact (v : R) : exp v / (1 + exp v) = sigmoid v.
Proof.
  unfold sigmoid. rewrite exp_Ropp.
  pose proof (exp_pos v). field. lra.
Qed.

Lemma sigmoid_bounds (v : R) : 0 < sigmoid v < 1.
Proof.
  unfold sigmoid. pose proof (exp_pos (- v)) as He.
  split.
  - apply Rdiv_lt_0_compat; lra.
  - apply (Rmult_lt_reg_r (1 + exp (- v))); [lra|].
    unfold Rdiv. rewrite Rmult_assoc, Rinv_l by lra. lra.
Qed.

Lemma Sigmoid_activation_lookup (x : list R) (i : nat) :
  Sigmoid_activation x !! i
  = (λ v, if bool_decide (0 <= v) then 1 / (1 + exp (- v))
          else exp v / (1 + exp v)) <$> x !! i.
Proof. unfold Sigmoid_activation. by rewrite list_lookup_fmap. Qed.

Lemma Sigmoid_activation_sigmoid (x : list R) :
  Sigmoid_activation x = map sigmoid x.
Proof.
  apply list_fmap_ext. intros _ v _. cbn.
  case_bool_decide; [done|]. apply Sigmoid_negative_exact.
Qed.

(** C9: on real arrays, [Sigmoid.activation] gives [1/(1+exp(-x))] at the
    entries with [x >= 0] and [exp(x)/(1+exp(x))] at the others; both are
    the logistic function of the entry; and [Sigmoid.derivative(x)] is, entry
    by entry, [s * (1 - s)] for the entry [s] of [Sigmoid.activation(x)]. *)
Theorem Sigmoid_stable_formulas (x : list R) :
  (∀ i v, x !! i = Some v →
     (0 <= v → activation Sigmoid x !! i = Some (1 / (1 + exp (- v)))) ∧
     (v < 0 → activation Sigmoid x !! i = Some (exp v / (1 + exp v))) ∧
     exp v / (1 + exp v) = 1 / (1 + exp (- v)) ∧
     activation Sigmoid x !! i = Some (sigmoid v)) ∧
  ∃ d, derivative Sigmoid x = Arr d ∧ length d = length x ∧
       ∀ i s, activation Sigmoid x !! i = Some s →
              d !! i = Some (s * (1 - s)).
Proof.
  split.
  - intros i v Hv. cbn [activation Sigmoid].
    rewrite Sigmoid_activation_lookup, Hv. cbn. split_and!.
    + intros Hpos. by rewrite bool_decide_true.
    + intros Hneg. rewrite bool_decide_false; [done|]. intros Hle. lra.
    + apply Sigmoid_negative_exact.
    + case_bool_decide; [done|]. f_equal. apply Sigmoid_negative_exact.
  - eexists. split; [reflexivity|]. split.
    + unfold Sigmoid_activation. rewrite length_zip_with, !length_map. lia.
    + intros i s Hs. cbn [activation Sigmoid] in Hs.
      rewrite lookup_zip_with, list_lookup_fmap, Hs. reflexivity.
Qed.

(** C10: on real arrays, every entry of [Sigmoid.activation(x)] lies in
    [[0, 1]] and every entry of [Sigmoid.derivative(x)] in [[0, 1/4]]. *)
Theorem Sigmoid_range (x : list R) :
  Forall (λ s, 0 <= s <= 1) (activation Sigmoid x) ∧
  ∃ d, derivative Sigmoid x = Arr d ∧ Forall (λ t, 0 <= t <= 1 / 4) d.
Proof.
  cbn [activation derivative Sigmoid]. unfold Sigmoid_derivative.
  rewrite Sigmoid_activation_sigmoid. split.
  - apply Forall_fmap, Forall_true. intros v. cbn.
    pose proof (sigmoid_bounds v). lra.
  - eexists. split; [reflexivity|].
    apply Forall_lookup. intros i t Ht.
    rewrite lookup_zip_with, !list_lookup_fmap in Ht.
    destruct (x !! i) as [v|]; simplify_eq/=.
    pose proof (sigmoid_bounds v) as [H0 H1].
    pose proof (Rle_0_sqr (sigmoid v - 1 / 2)) as Hsq. unfold Rsqr in Hsq.
    cbn. split; nra.
Qed.
End SigmoidFacts.

(** * Further properties *)

(** ** The constructor *)

Section Init.
Context {F : Type} `{!Scalar F}.

Lemma random_2d_shape (rnd : nat → F) (s n m : nat) :
  has_shape n m (random_2d rnd s n m).1.
Proof.
  unfold random_2d, has_shape. cbn. rewrite length_map, length_seq.
  split; [done|]. apply Forall_fmap, Forall_true. intros r. cbn.
  by rewrite length_map, length_seq.
Qed.

Lemma random_1d_length (rnd : nat → F) (s n : nat) :
  length (random_1d rnd s n).1 = n.
Proof. unfold random_1d. cbn. by rewrite length_map, length_seq. Qed.

Lemma init_layer_inv (rnd : nat → F) (lay : list (nat * option (Activation F)))
  (lr : F) (k : nat) (st : NeuralNetwork F * nat) :
  k < length lay → init_inv lay lr k st →
  ∃ st', init_layer rnd k st = Ok st' ∧ init_inv lay lr (S k) st'.
Proof.
  intros Hk. destruct st as [net s].
  intros (Hl & Hlr & Hdw & Hdb & Hwl & Hbl & Hfl & Hzl & Hal & Hf & Hw & Hb & Ha & Hz).
  cbn [fst snd] in *.
  destruct (lookup_lt_is_Some_2 lay k) as [[n o] Hn]; [done|].
  unfold init_layer. cbn [fst snd]. rewrite Hl.
  rewrite (proj2 (getitem_Ok _ _ _) Hn).
  destruct (decide (0 < k)) as [Hpos|Hzero].
  - destruct (lookup_lt_is_Some_2 lay (k - 1)) as [[m o'] Hm]; [lia|].
    rewrite (proj2 (getitem_Ok _ _ _) Hm). cbn [mbind result_bind fst snd].
    eexists. split; [reflexivity|].
    unfold init_inv. cbn [fst snd layers learning_rate weights f bias zs as_
                          d_weights d_bias].
    rewrite !length_app. cbn [length].
    split_and!; try done; try lia.
    + intros i Hi. destruct (decide (i = k)) as [->|Hne].
      * rewrite lookup_app_r by lia. rewrite Hfl, Nat.sub_diag, Hn. done.
      * rewrite lookup_app_l by lia. apply Hf. lia.
    + intros i w m' n' Hwi Hm' Hn'.
      destruct (decide (i = k - 1)) as [->|Hne].
      * rewrite lookup_app_r in Hwi by lia.
        rewrite Hwl, Nat.sub_diag in Hwi. injection Hwi as <-.
        rewrite list_lookup_fmap, Hm in Hm'. injection Hm' as <-.
        replace (S (k - 1)) with k in Hn' by lia.
        rewrite list_lookup_fmap, Hn in Hn'. injection Hn' as <-.
        apply random_2d_shape.
      * pose proof (lookup_lt_Some _ _ _ Hwi) as Hlt.
        rewrite length_app in Hlt. cbn in Hlt.
        rewrite lookup_app_l in Hwi by lia. by eapply Hw.
    + intros i b n' Hbi Hn'.
      destruct (decide (i = k - 1)) as [->|Hne].
      * rewrite lookup_app_r in Hbi by lia.
        rewrite Hbl, Nat.sub_diag in Hbi. injection Hbi as <-.
        replace (S (k - 1)) with k in Hn' by lia.
        rewrite list_lookup_fmap, Hn in Hn'. injection Hn' as <-.
        apply random_1d_length.
      * pose proof (lookup_lt_Some _ _ _ Hbi) as Hlt.
        rewrite length_app in Hlt. cbn in Hlt.
        rewrite lookup_app_l in Hbi by lia. by eapply Hb.
    + intros i a n' Hai Hn'.
      destruct (decide (i = k)) as [->|Hne].
      * rewrite lookup_app_r in Hai by lia.
        rewrite Hal, Nat.sub_diag in Hai. injection Hai as <-.
        rewrite list_lookup_fmap, Hn in Hn'. by injection Hn' as <-.
      * pose proof (lookup_lt_Some _ _ _ Hai) as Hlt.
        rewrite length_app in Hlt. cbn in Hlt.
        rewrite lookup_app_l in Hai by lia. by eapply Ha.
    + intros i z n' Hzi Hn'.
      destruct (decide (i = k)) as [->|Hne].
      * rewrite lookup_app_r in Hzi by lia.
        rewrite Hzl, Nat.sub_diag in Hzi. injection Hzi as <-.
        rewrite list_lookup_fmap, Hn in Hn'. by injection Hn' as <-.
      * pose proof (lookup_lt_Some _ _ _ Hzi) as Hlt.
        rewrite length_app in Hlt. cbn in Hlt.
        rewrite lookup_app_l in Hzi by lia. by eapply Hz.
  - assert (k = 0) as -> by lia. cbn [mbind result_bind fst snd].
    eexists. split; [reflexivity|].
    unfold init_inv. cbn [fst snd layers learning_rate weights f bias zs as_
                          d_weights d_bias].
    rewrite !length_app. cbn [length].
    destruct (weights net); [|done]. destruct (bias net); [|done].
    destruct (f net); [|done]. destruct (zs net); [|done].
    destruct (as_ net); [|done]. cbn.
    split_and!; try done.
    + intros [|i] Hi; [|lia]. cbn. by rewrite Hn.
    + intros [|i] a n' Hai Hn'; [|done]. cbn in Hai. injection Hai as <-.
      rewrite list_lookup_fmap, Hn in Hn'. by injection Hn' as <-.
    + intros [|i] z n' Hzi Hn'; [|done]. cbn in Hzi. injection Hzi as <-.
      rewrite list_lookup_fmap, Hn in Hn'. by injection Hn' as <-.
Qed.

(** X1: [NeuralNetwork(layers, learning_rate)], for a list of layers that
    is not empty, with positive widths and an elementwise activation at
    every layer but the first, returns a well-formed network: one weight
    matrix of shape [(width[i], width[i-1])] and one bias of [width[i]]
    values per layer [i >= 1], one cache slot of [width[i]] zeros per
    layer, and empty accumulators. *)
Theorem new_network_well_formed (rnd : nat → F) (s : nat)
  (lay : list (nat * option (Activation F))) (lr : F) :
  lay ≠ [] →
  Forall (λ n, 0 < n) lay.*1 →
  (∀ i o, 1 ≤ i → lay.*2 !! i = Some o →
          ∃ act, o = Some act ∧ shape_preserving act) →
  ∃ net s',
    new_network rnd s lay lr = Ok (net, s') ∧
    wf_network net ∧
    layers net = lay ∧ learning_rate net = lr ∧
    d_weights net = [] ∧ d_bias net = [] ∧
    Forall2 (λ a n, a = replicate n fzero) (as_ net) lay.*1 ∧
    Forall2 (λ z n, z = replicate n fzero) (zs net) lay.*1.
Proof.
  intros Hne Hpos Hact.
  destruct (for_each_seq (init_inv lay lr) (init_layer rnd) 0 (length lay)
              ({| layers := lay; learning_rate := lr; weights := [];
                  f := []; bias := []; zs := []; as_ := [];
                  d_weights := []; d_bias := [] |}, s))
    as ([net s'] & Hrun & Hinv).
  { unfold init_inv. cbn. split_and!; try done; intros; lia. }
  { intros k t Hk Ht. apply init_layer_inv; [lia|done]. }
  destruct Hinv as (Hl & Hlr & Hdw & Hdb & Hwl & Hbl & Hfl & Hzl & Hal & Hf
                    & Hw & Hb & Ha & Hz).
  cbn [fst snd] in *. rewrite Nat.add_0_l in *.
  assert (0 < length lay) as Hlen by (destruct lay; [done|cbn; lia]).
  exists net, s'. split_and!; try done.
  - split; unfold widths; rewrite ?Hl; try done; try lia.
    + intros i Hi.
      destruct (lookup_lt_is_Some_2 lay i) as [[n o] Hn]; [lia|].
      destruct (Hact i o) as (act & -> & Hsp); [lia| |].
      { by rewrite list_lookup_fmap, Hn. }
      exists act. split; [|done]. rewrite Hf by lia. by rewrite Hn.
  - apply Forall2_same_length_lookup_2; [by rewrite length_fmap|].
    intros i a n Hai Hn. by eapply Ha.
  - apply Forall2_same_length_lookup_2; [by rewrite length_fmap|].
    intros i z n Hzi Hn. by eapply Hz.
Qed.
End Init.

(** ** predict, and forward on inputs of the wrong width *)

Section Predict.
Context {F : Type} `{!Scalar F}.

(** The activations a forward pass caches are determined by the input and
    the parameters. *)
Lemma layer_computed_agree (n1 n2 : NeuralNetwork F) (x : Vec F) (k : nat) :
  weights n1 = weights n2 → bias n1 = bias n2 → f n1 = f n2 →
  as_ n1 !! 0 = Some x → as_ n2 !! 0 = Some x →
  (∀ i, 1 ≤ i ≤ k → layer_computed n1 i) →
  (∀ i, 1 ≤ i ≤ k → layer_computed n2 i) →
  ∀ i, i ≤ k → as_ n1 !! i = as_ n2 !! i.
Proof.
  intros Hw Hb Hf H1 H2 Hc1 Hc2 i. induction i as [|i IH]; intros Hi.
  - by rewrite H1, H2.
  - destruct (Hc1 (S i)) as (a & w & b & act & Ha & Hwi & Hbi & Hfi & _ & _ & Has);
      [lia|].
    destruct (Hc2 (S i)) as (a' & w' & b' & act' & Ha' & Hwi' & Hbi' & Hfi' & _ & _ & Has');
      [lia|].
    replace (S i - 1) with i in * by lia.
    rewrite IH, Ha' in Ha by lia. rewrite Hw, Hwi' in Hwi.
    rewrite Hb, Hbi' in Hbi. rewrite Hf, Hfi' in Hfi. simplify_eq.
    by rewrite Has, Has'.
Qed.

Lemma forward_same_output (net t n1 n2 : NeuralNetwork F) (x o1 o2 : Vec F) :
  wf_network net → wf_network t → same_params t net →
  widths net !! 0 = Some (length x) →
  forward x net = Ok (n1, o1) → forward x t = Ok (n2, o2) →
  o1 = o2.
Proof.
  intros Hwf Hwft Hpar Hx H1 H2.
  assert (widths t !! 0 = Some (length x)) as Hxt.
  { unfold widths in *. by rewrite (proj1 Hpar). }
  destruct (forward_spec net x Hwf Hx)
    as (m1 & p1 & Hm1 & Ha1 & Hc1 & Hl1 & Hp1 & _ & _ & _ & Hlen1).
  destruct (forward_spec t x Hwft Hxt)
    as (m2 & p2 & Hm2 & Ha2 & Hc2 & Hl2 & Hp2 & _ & _ & _ & Hlen2).
  rewrite H1 in Hm1. rewrite H2 in Hm2. simplify_eq.
  destruct Hp1 as (Hla1 & _ & Hw1 & Hf1 & Hb1).
  destruct Hp2 as (Hla2 & _ & Hw2 & Hf2 & Hb2).
  destruct Hpar as (Hla & _ & Hw & Hf & Hb).
  rewrite last_lookup in Hl1, Hl2.
  rewrite Hlen1, (wf_as_len _ Hwf) in Hl1.
  rewrite Hlen2, (wf_as_len _ Hwft), Hla in Hl2.
  pose proof (wf_layers _ Hwf) as Hlay.
  assert (as_ m1 !! pred (length (layers net))
          = as_ m2 !! pred (length (layers net))) as Heq.
  { apply (layer_computed_agree m1 m2 x (pred (length (layers net))));
      try done; try congruence.
    - intros i Hi. apply Hc1. lia.
    - intros i Hi. apply Hc2. rewrite Hla. lia. }
  congruence.
Qed.

Lemma forward_output_length (net net' : NeuralNetwork F) (x out : Vec F) (n : nat) :
  wf_network net → widths net !! 0 = Some (length x) →
  widths net !! (length (layers net) - 1) = Some n →
  forward x net = Ok (net', out) → length out = n.
Proof.
  intros Hwf Hx Hn Hfwd.
  destruct (forward_spec net x Hwf Hx)
    as (m & p & Hm & _ & _ & Hl & Hp & _ & Hc & _ & Hlen).
  rewrite Hfwd in Hm. simplify_eq.
  rewrite last_lookup, Hlen, (wf_as_len _ Hwf) in Hl.
  apply (Hc (pred (length (layers net)))); [done|].
  unfold widths in *. rewrite (proj1 Hp).
  by replace (pred (length (layers net))) with (length (layers net) - 1) by lia.
Qed.

Lemma predict_loop_spec (net t : NeuralNetwork F) (X acc : list (Vec F)) :
  wf_network net → wf_network t → same_params t net → same_grads t net →
  Forall (λ x, widths net !! 0 = Some (length x)) X →
  ∃ t' P,
    predict_loop X t acc = Ok (t', acc ++ P) ∧
    wf_network t' ∧ same_params t' net ∧ same_grads t' net ∧
    Forall2 (λ x p, ∃ u, forward x net = Ok (u, p)) X P.
Proof.
  intros Hwf Hwft Hpar Hgr HX. revert t acc Hwft Hpar Hgr.
  induction HX as [|x X Hx _ IH]; intros t acc Hwft Hpar Hgr.
  - exists t, []. rewrite app_nil_r. by split_and!.
  - assert (widths t !! 0 = Some (length x)) as Hxt.
    { unfold widths in *. by rewrite (proj1 Hpar). }
    destruct (forward_spec t x Hwft Hxt)
      as (t1 & p & Hfwd & _ & _ & _ & _ & _ & _ & _ & _).
    destruct (forward_wf t t1 x p Hwft Hxt Hfwd) as (Hwf1 & _ & Hpar1 & Hgr1).
    destruct (forward_spec net x Hwf Hx)
      as (u & p0 & Hfwd0 & _ & _ & _ & _ & _ & _ & _ & _).
    assert (p0 = p) as -> by (by eapply (forward_same_output net t)).
    destruct (IH t1 (acc ++ [p])) as (t' & P & Hloop & Hwf' & Hpar' & Hgr' & HP).
    { done. }
    { destruct Hpar as (?&?&?&?&?), Hpar1 as (?&?&?&?&?).
      unfold same_params. split_and!; congruence. }
    { destruct Hgr, Hgr1. unfold same_grads. split; congruence. }
    exists t', (p :: P). cbn [predict_loop]. rewrite Hfwd.
    cbn [mbind result_bind]. rewrite Hloop, <-app_assoc.
    split_and!; try done. constructor; [by exists u|done].
Qed.

(** X3: [predict] returns one prediction per sample, in the order of the
    samples, each being what [forward] returns for that sample on the
    network as it was given; the parameters and the accumulators are as
    before. *)
Theorem predict_forwards_each_sample (net : NeuralNetwork F)
  (X : list (Vec F)) :
  wf_network net →
  Forall (λ x, widths net !! 0 = Some (length x)) X →
  ∃ net' Y,
    predict X net = Ok (net', Y) ∧
    Forall2 (λ x p, ∃ u, forward x net = Ok (u, p)) X Y ∧
    same_params net' net ∧ same_grads net' net.
Proof.
  intros Hwf HX.
  destruct (predict_loop_spec net net X [] Hwf Hwf)
    as (t' & P & Hloop & Hwf' & Hpar & Hgr & HP); [done..|].
  destruct (last_width_lookup net Hwf) as [n Hn].
  assert (Forall (λ p, length p = n) P) as Hlen.
  { apply Forall_forall. intros p Hp.
    apply list_elem_of_lookup_1 in Hp as [i Hi].
    destruct (Forall2_lookup_r _ _ _ _ _ HP Hi) as (x & Hxi & u & Hu).
    rewrite Forall_lookup in HX.
    by apply (forward_output_length net u x p n Hwf (HX _ _ Hxi)). }
  exists t', P. unfold predict. rewrite Hloop. cbn [mbind result_bind app].
  split_and!; try done.
  destruct P as [|p P]; [done|]. unfold np_array_2d.
  apply Forall_cons_1 in Hlen as [Hp HPl].
  rewrite decide_True; [done|].
  eapply Forall_impl; [done|]. intros q Hq. cbn in *. congruence.
Qed.

(** X2: an input whose length is not [width[0]] makes [forward] raise
    [ValueError], at the product with the first weight matrix. *)
Theorem forward_rejects_wrong_width (net : NeuralNetwork F) (x : Vec F)
  (m : nat) :
  wf_network net → 2 ≤ length (layers net) →
  widths net !! 0 = Some m → length x ≠ m →
  forward x net = Raise ValueError.
Proof.
  intros Hwf Hlay Hm Hx.
  pose proof (wf_layers _ Hwf) as Hl.
  destruct (lookup_lt_is_Some_2 (weights net) 0) as [w Hw]; [lia|].
  destruct (lookup_lt_is_Some_2 (bias net) 0) as [b Hb].
  { rewrite (wf_bias_len _ Hwf). lia. }
  destruct (widths_lookup net 1) as [n Hn]; [lia|].
  destruct (wf_weights _ Hwf 0 w m n Hw Hm Hn) as [Hrows Hcols].
  assert (0 < n) as Hpos.
  { pose proof (wf_widths _ Hwf) as Hp. rewrite Forall_lookup in Hp. eauto. }
  unfold forward. rewrite setitem_Ok by (rewrite (wf_as_len _ Hwf); lia).
  cbn [mbind result_bind].
  replace (length (layers net) - 1) with (S (length (layers net) - 2)) by lia.
  cbn [seq for_each].
  assert (forward_layer 1 (set_as net (<[0:=x]> (as_ net))) = Raise ValueError)
    as ->; [|done].
  unfold forward_layer. cbn [Nat.sub set_as as_ weights bias].
  rewrite (proj2 (getitem_Ok (<[0:=x]> (as_ net)) 0 x)).
  2:{ apply list_lookup_insert_eq. rewrite (wf_as_len _ Hwf). lia. }
  cbn [mbind result_bind].
  rewrite (proj2 (getitem_Ok _ _ _) Hw). cbn [mbind result_bind].
  rewrite (proj2 (getitem_Ok _ _ _) Hb). cbn [mbind result_bind].
  unfold matmul_vT. rewrite decide_False; [done|].
  intros Hall. destruct w as [|r w]; [simpl in Hrows; lia|].
  apply Forall_cons_1 in Hall as [Hr _]. apply Forall_cons_1 in Hcols as [Hr' _].
  congruence.
Qed.
End Predict.

(** ** step, twice *)

Section StepTwice.
Context {F : Type} `{!Scalar F}.

Lemma Forall2_functional {A B : Type} (R : A → B → Prop) (l : list A)
  (k1 k2 : list B) :
  (∀ x y z, R x y → R x z → y = z) →
  Forall2 R l k1 → Forall2 R l k2 → k1 = k2.
Proof.
  intros Hfun H1. revert k2. induction H1 as [|x y l k1 Hxy _ IH];
    intros k2 H2; inversion H2; subst; [done|].
  f_equal; [by eapply Hfun|by apply IH].
Qed.

Lemma entry3_weights (l : list (Mat F)) (i r c : nat) (w : Mat F) :
  l !! i = Some w → entry3 l i r c = mentry w r c.
Proof. intros Hw. unfold entry3, mentry. by rewrite Hw. Qed.

(** The accumulators still fit the parameters after a step. *)
Lemma step_wf_grads (net net' : NeuralNetwork F) :
  length (bias net) = length (weights net) → wf_grads net →
  1 ≤ length (d_weights net) → step net = Ok net' →
  wf_grads net' ∧ length (bias net') = length (weights net') ∧
  d_weights net' = d_weights net ∧ d_bias net' = d_bias net.
Proof.
  intros Hbw Hgr Hn Hstep.
  destruct (step_spec net Hbw Hgr Hn)
    as (t & Ht & Hwl & Hbl & He & _ & _ & _ & _ & [Hdw Hdb]).
  rewrite Hstep in Ht. injection Ht as <-.
  destruct Hgr as [Hlen Hgw Hgb].
  split_and!; [|congruence|done|done].
  split; rewrite ?Hdw, ?Hdb; [done| |].
  - eapply Forall_impl; [exact Hgw|]. intros dws Hdws. cbn in *.
    apply Forall2_same_length_lookup_2.
    { rewrite Hwl. by apply Forall2_length in Hdws. }
    intros i w' dw Hw' Hdwi.
    destruct (lookup_lt_is_Some_2 (weights net) i) as [w Hw].
    { rewrite <-Hwl. by apply lookup_lt_Some in Hw'. }
    destruct (lookup_lt_is_Some_2 (bias net) i) as [b Hb].
    { rewrite Hbw. by apply lookup_lt_Some in Hw. }
    destruct (He i w b Hw Hb) as (w2 & b2 & Hw2 & _ & [Hsh _] & _).
    rewrite Hw' in Hw2. injection Hw2 as <-.
    rewrite Hsh. rewrite Forall2_lookup in Hdws. specialize (Hdws i).
    rewrite Hw, Hdwi in Hdws. by inversion Hdws.
  - eapply Forall_impl; [exact Hgb|]. intros dbs Hdbs. cbn in *.
    apply Forall2_same_length_lookup_2.
    { rewrite Hbl. by apply Forall2_length in Hdbs. }
    intros i b' db Hb' Hdbi.
    destruct (lookup_lt_is_Some_2 (bias net) i) as [b Hb].
    { rewrite <-Hbl. by apply lookup_lt_Some in Hb'. }
    destruct (lookup_lt_is_Some_2 (weights net) i) as [w Hw].
    { rewrite <-Hbw. by apply lookup_lt_Some in Hb. }
    destruct (He i w b Hw Hb) as (w2 & b2 & _ & Hb2 & _ & [Hlen' _]).
    rewrite Hb' in Hb2. injection Hb2 as <-.
    rewrite Hlen'. rewrite Forall2_lookup in Hdbs. specialize (Hdbs i).
    rewrite Hb, Hdbi in Hdbs. by inversion Hdbs.
Qed.

(** X5: without [clear] in between, a second [step] subtracts the same
    means once more: each weight and bias entry [e] ends as
    [(e - mean) - mean]. *)
Theorem step_without_clear_subtracts_again (net : NeuralNetwork F) :
  length (bias net) = length (weights net) → wf_grads net →
  1 ≤ length (d_weights net) →
  ∃ net1 net2,
    step net = Ok net1 ∧ step net1 = Ok net2 ∧
    (∀ i r c e, entry3 (weights net) i r c = Some e →
       ∃ es, Forall2 (λ dws x, entry3 dws i r c = Some x) (d_weights net) es ∧
             let mean := fdiv (np_sum es) (fof_nat (length (d_weights net))) in
             entry3 (weights net1) i r c = Some (fsub e mean) ∧
             entry3 (weights net2) i r c = Some (fsub (fsub e mean) mean)) ∧
    (∀ i r e, entry2 (bias net) i r = Some e →
       ∃ es, Forall2 (λ dbs x, entry2 dbs i r = Some x) (d_bias net) es ∧
             let mean := fdiv (np_sum es) (fof_nat (length (d_bias net))) in
             entry2 (bias net1) i r = Some (fsub e mean) ∧
             entry2 (bias net2) i r = Some (fsub (fsub e mean) mean)).
Proof.
  intros Hbw Hgr Hn.
  destruct (step_spec net Hbw Hgr Hn)
    as (n1 & H1 & Hwl1 & Hbl1 & He1 & _).
  destruct (step_wf_grads net n1 Hbw Hgr Hn H1) as (Hgr1 & Hbw1 & Hdw1 & Hdb1).
  assert (1 ≤ length (d_weights n1)) as Hn1 by (by rewrite Hdw1).
  destruct (step_spec n1 Hbw1 Hgr1 Hn1)
    as (n2 & H2 & Hwl2 & Hbl2 & He2 & _).
  exists n1, n2. split_and!; [done|done| |].
  - intros i r c e He. unfold entry3 in He.
    destruct (weights net !! i) as [w|] eqn:Hw; [|done]. cbn in He.
    destruct (lookup_lt_is_Some_2 (bias net) i) as [b Hb].
    { rewrite Hbw. by apply lookup_lt_Some in Hw. }
    destruct (He1 i w b Hw Hb) as (w1 & b1 & Hw1 & Hb1 & [_ Hm1] & _).
    destruct (Hm1 r c e He) as (es & Hes & Hv1).
    destruct (He2 i w1 b1 Hw1 Hb1) as (w2 & b2 & Hw2 & _ & [_ Hm2] & _).
    destruct (Hm2 r c _ Hv1) as (es' & Hes' & Hv2).
    rewrite Hdw1 in Hes', Hv2.
    assert (es' = es) as ->.
    { eapply Forall2_functional; [|exact Hes'|exact Hes]. cbn. congruence. }
    exists es. split; [done|]. cbn.
    by rewrite (entry3_weights _ _ _ _ _ Hw1), (entry3_weights _ _ _ _ _ Hw2).
  - intros i r e He. unfold entry2 in He.
    destruct (bias net !! i) as [b|] eqn:Hb; [|done]. cbn in He.
    destruct (lookup_lt_is_Some_2 (weights net) i) as [w Hw].
    { rewrite <-Hbw. by apply lookup_lt_Some in Hb. }
    destruct (He1 i w b Hw Hb) as (w1 & b1 & Hw1 & Hb1 & _ & [_ Hm1]).
    destruct (Hm1 r e He) as (es & Hes & Hv1).
    destruct (He2 i w1 b1 Hw1 Hb1) as (w2 & b2 & _ & Hb2 & _ & [_ Hm2]).
    destruct (Hm2 r _ Hv1) as (es' & Hes' & Hv2).
    rewrite Hdb1 in Hes', Hv2.
    assert (es' = es) as ->.
    { eapply Forall2_functional; [|exact Hes'|exact Hes]. cbn. congruence. }
    exists es. split; [done|]. cbn. unfold entry2.
    by rewrite Hb1, Hb2.
Qed.
End StepTwice.

(** ** The batch reader and minibatch_fit *)

Section Reader.

Lemma reader_loop_batches (batch_size n : nat) (perm : list nat) :
  1 ≤ batch_size → length perm = n →
  ∀ fuel it, n - batch_size * it < fuel →
    ∃ batches,
      reader_loop fuel batch_size n it perm = Ok batches ∧
      concat batches = drop (batch_size * it) perm ∧
      (∀ k b, batches !! k = Some b →
              b = batch_at batch_size perm (it + k) ∧ b ≠ []) ∧
      length batches * batch_size < n - batch_size * it + batch_size ∧
      n - batch_size * it ≤ length batches * batch_size.
Proof.
  intros Hbs Hperm fuel. induction fuel as [|fuel IH]; intros it Hfuel; [lia|].
  cbn [reader_loop]. case_decide as Hstop.
  - exists []. split_and!; [done| |done|cbn; lia|cbn; lia].
    cbn. rewrite drop_ge; [done|lia].
  - destruct (IH (S it)) as (rest & Hrest & Hcat & Hk & Hlo & Hhi).
    { nia. }
    rewrite Hrest. cbn [mbind result_bind].
    set (i := batch_size * it) in *.
    assert (slice i (if decide (n < i + batch_size) then n else i + batch_size) perm
            = take batch_size (drop i perm)) as Hslice.
    { unfold slice. case_decide.
      - rewrite !take_ge; [done|rewrite length_drop; lia..].
      - f_equal. lia. }
    rewrite Hslice. eexists. split; [reflexivity|]. split_and!.
    + cbn [concat]. rewrite Hcat.
      replace (batch_size * S it) with (i + batch_size) by (unfold i; lia).
      by rewrite <-drop_drop, take_drop.
    + intros [|k] b Hb; cbn in Hb.
      * injection Hb as <-. unfold batch_at. rewrite Nat.add_0_r. fold i.
        split; [done|]. intros Hnil.
        apply (f_equal length) in Hnil.
        rewrite length_take, length_drop in Hnil. cbn in Hnil. lia.
      * destruct (Hk k b Hb) as [-> Hne]. split; [|done].
        f_equal. lia.
    + cbn [length]. replace (batch_size * S it) with (i + batch_size) in *
        by (unfold i; lia). rewrite Nat.mul_succ_l.
      clearbody i. destruct (length rest) as [|c]; [lia|].
      rewrite Nat.mul_succ_l in *. lia.
    + cbn [length]. replace (batch_size * S it) with (i + batch_size) in *
        by (unfold i; lia). rewrite Nat.mul_succ_l. lia.
Qed.

(** X9: for [batch_size >= 1] the reader stops; its batches, put end to
    end, are the permutation it drew; batch [k] holds the [batch_size]
    indices from position [batch_size * k] on (fewer in the last batch),
    no batch is empty, and there are [ceil(n / batch_size)] of them. *)
Theorem minibatch_reader_partitions (fuel n batch_size : nat)
  (shapes perm : list nat) :
  Forall (λ m, m = n) shapes → 1 ≤ batch_size → length perm = n → n < fuel →
  ∃ batches,
    minibatch_reader fuel (n :: shapes) batch_size perm = Ok batches ∧
    concat batches = perm ∧
    (∀ k b, batches !! k = Some b →
            b = take batch_size (drop (batch_size * k) perm) ∧ b ≠ []) ∧
    length batches = (n + batch_size - 1) / batch_size.
Proof.
  intros Hshapes Hbs Hperm Hfuel.
  destruct (reader_loop_batches batch_size n perm Hbs Hperm fuel 0)
    as (batches & Hrun & Hcat & Hk & Hlo & Hhi); [lia|].
  exists batches. unfold minibatch_reader. rewrite decide_True by done.
  rewrite Nat.mul_0_r, drop_0, Nat.sub_0_r in *.
  split_and!; [done|done| |].
  - intros k b Hb. destruct (Hk k b Hb) as [-> Hne]. done.
  - apply (Nat.div_unique _ _ _
             (n + batch_size - 1 - batch_size * length batches)); nia.
Qed.

(** With [batch_size = 0] the loop never reaches its [break]. *)
Lemma reader_loop_zero_batch_size (fuel n it : nat) (perm : list nat) :
  1 ≤ n → reader_loop fuel 0 n it perm = OutOfFuel.
Proof.
  intros Hn. revert it. induction fuel as [|fuel IH]; intros it; [done|].
  cbn [reader_loop]. rewrite Nat.mul_0_l. rewrite decide_False by lia.
  by rewrite IH.
Qed.
End Reader.

Section MinibatchRuns.
Context {F : Type} `{!Scalar F}.

(** X11: [minibatch_fit] with [batch_size = 0] on a dataset that is not
    empty does not return: the reader yields empty batches for ever. *)
Theorem minibatch_fit_zero_batch_size_diverges (fuel : nat)
  (X Y : list (Vec F)) (L : Loss F) (n_epochs : nat) (perms : nat → list nat)
  (net : NeuralNetwork F) :
  1 ≤ length X → length Y = length X →
  minibatch_fit fuel X Y L (S n_epochs) 0 perms net = OutOfFuel.
Proof.
  intros Hn HY. unfold minibatch_fit.
  change (seq 0 (S n_epochs)) with (0 :: seq 1 n_epochs). cbn [for_each].
  assert (minibatch_epoch fuel X Y L 0 (perms 0) net = OutOfFuel) as ->; [|done].
  unfold minibatch_epoch, minibatch_reader.
  rewrite decide_True by (by apply Forall_singleton).
  by rewrite reader_loop_zero_batch_size.
Qed.

Lemma take_rows_spec (X : list (Vec F)) (ind : list nat) :
  Forall (λ i, i < length X) ind →
  ∃ rows, take_rows X ind = Ok rows ∧ length rows = length ind ∧
          Forall (λ r, r ∈ X) rows.
Proof.
  intros Hind. induction Hind as [|i ind Hi _ IH].
  - by exists [].
  - destruct IH as (rows & Hrows & Hlen & Hin).
    destruct (lookup_lt_is_Some_2 X i Hi) as [x Hx].
    exists (x :: rows). unfold take_rows in *. cbn [traverse].
    rewrite (proj2 (getitem_Ok _ _ _) Hx). cbn [mbind result_bind].
    rewrite Hrows. split_and!; [done|by cbn; rewrite Hlen|].
    constructor; [by eapply list_elem_of_lookup_2|done].
Qed.

Lemma loss_accepts_subset (L : Loss F) (n : nat) (Y Y' : list (Vec F)) :
  Forall (λ y, y ∈ Y) Y' → loss_accepts L n Y → loss_accepts L n Y'.
Proof.
  intros Hsub HL pred y Hy Hp. apply HL; [|done].
  rewrite Forall_forall in Hsub. by apply Hsub.
Qed.

Lemma fit_batch_wf (X Y : list (Vec F)) (L : Loss F) (ind : list nat)
  (net : NeuralNetwork F) (n : nat) :
  wf_network net → d_weights net = [] → d_bias net = [] →
  Forall (λ x, widths net !! 0 = Some (length x)) X →
  widths net !! (length (layers net) - 1) = Some n →
  loss_accepts L n Y → length Y = length X →
  ind ≠ [] → Forall (λ i, i < length X) ind →
  ∃ net', fit_batch X Y L ind net = Ok net' ∧ wf_network net' ∧
          d_weights net' = [] ∧ d_bias net' = [] ∧ layers net' = layers net.
Proof.
  intros Hwf Hdw Hdb HX Hn HL HY Hne Hind.
  destruct (take_rows_spec X ind Hind) as (sX & HsX & HlX & HinX).
  destruct (take_rows_spec Y ind) as (sY & HsY & HlY & HinY); [by rewrite HY|].
  assert (1 ≤ length ind) as Hpos by (destruct ind; [done|cbn; lia]).
  destruct (fit_epoch_wf sX sY L net n) as (net' & Hrun & Hrest); try done.
  - eapply Forall_impl; [exact HinX|]. intros x Hx. cbn in *.
    rewrite Forall_forall in HX. by apply HX.
  - by apply (loss_accepts_subset L n Y).
  - lia.
  - lia.
  - exists net'. split; [|done]. unfold fit_batch. rewrite HsX. cbn [mbind result_bind].
    rewrite HsY. exact Hrun.
Qed.

Lemma elem_of_concat {A : Type} (x : A) (b : list A) (ls : list (list A)) :
  b ∈ ls → x ∈ b → x ∈ concat ls.
Proof.
  intros Hb Hx. induction Hb as [b ls|b b' ls _ IH]; cbn;
    apply elem_of_app; [by left|right; by apply IH].
Qed.

Lemma minibatch_epoch_wf (fuel : nat) (X Y : list (Vec F)) (L : Loss F)
  (batch_size : nat) (perm : list nat) (net : NeuralNetwork F) (n : nat) :
  wf_network net → d_weights net = [] → d_bias net = [] →
  Forall (λ x, widths net !! 0 = Some (length x)) X →
  widths net !! (length (layers net) - 1) = Some n →
  loss_accepts L n Y → length Y = length X →
  1 ≤ batch_size → length X < fuel → perm ≡ₚ seq 0 (length X) →
  ∃ net', minibatch_epoch fuel X Y L batch_size perm net = Ok net' ∧
          wf_network net' ∧ d_weights net' = [] ∧ d_bias net' = [] ∧
          layers net' = layers net.
Proof.
  intros Hwf Hdw Hdb HX Hn HL HY Hbs Hfuel Hperm.
  assert (length perm = length X) as Hplen.
  { by rewrite (Permutation_length Hperm), length_seq. }
  destruct (reader_loop_batches batch_size (length X) perm Hbs Hplen fuel 0)
    as (batches & Hread & Hcat & Hk & _); [lia|].
  rewrite Nat.mul_0_r, drop_0 in Hcat.
  assert (Forall (λ b : list nat, b ≠ [] ∧ Forall (λ i, i < length X) b) batches)
    as Hbatches.
  { apply Forall_lookup. intros k b Hb. split; [by destruct (Hk k b Hb)|].
    apply Forall_forall. intros i Hi.
    assert (i ∈ perm) as Hip.
    { rewrite <-Hcat. apply (elem_of_concat i b); [|done].
      by eapply list_elem_of_lookup_2. }
    rewrite Hperm in Hip. apply elem_of_seq in Hip. lia. }
  destruct (for_each_count
              (λ (_ : nat) t, wf_network t ∧ d_weights t = [] ∧ d_bias t = [] ∧
                              layers t = layers net)
              (λ b : list nat, b ≠ [] ∧ Forall (λ i, i < length X) b)
              (fit_batch X Y L) batches net Hbatches)
    as (net' & Hrun & Hinv); [done| |].
  { intros k b t [Hne Hb] (Hwft & Hdwt & Hdbt & Hlt).
    destruct (fit_batch_wf X Y L b t n) as (t' & Ht' & Hwf' & Hdw' & Hdb' & Hl');
      try done; try (unfold widths; by rewrite Hlt).
    exists t'. split; [done|]. split_and!; try done. congruence. }
  exists net'. split; [|done].
  unfold minibatch_epoch, minibatch_reader.
  rewrite decide_True by (by apply Forall_singleton).
  rewrite Hread. exact Hrun.
Qed.

(** X12: [minibatch_fit] with [batch_size >= 1] runs to completion on a
    well-formed network with empty accumulators, for samples of
    [width[0]] values, as many targets, a loss that accepts the outputs
    and a permutation of the sample indices in every epoch. *)
Theorem minibatch_fit_succeeds (fuel : nat) (X Y : list (Vec F)) (L : Loss F)
  (n_epochs batch_size : nat) (perms : nat → list nat)
  (net : NeuralNetwork F) (n : nat) :
  wf_network net → d_weights net = [] → d_bias net = [] →
  Forall (λ x, widths net !! 0 = Some (length x)) X →
  widths net !! (length (layers net) - 1) = Some n →
  loss_accepts L n Y → length Y = length X →
  1 ≤ batch_size → length X < fuel →
  (∀ epoch, perms epoch ≡ₚ seq 0 (length X)) →
  ∃ net', minibatch_fit fuel X Y L n_epochs batch_size perms net = Ok net' ∧
          wf_network net' ∧ d_weights net' = [] ∧ d_bias net' = [].
Proof.
  intros Hwf Hdw Hdb HX Hn HL HY Hbs Hfuel Hperm. unfold minibatch_fit.
  generalize 0. revert net Hwf Hdw Hdb HX Hn.
  induction n_epochs as [|e IH]; intros net Hwf Hdw Hdb HX Hn a.
  - by exists net.
  - cbn [seq for_each].
    destruct (minibatch_epoch_wf fuel X Y L batch_size (perms a) net n)
      as (net1 & Hrun & Hwf1 & Hdw1 & Hdb1 & Hl1); try done.
    rewrite Hrun. cbn [mbind result_bind].
    apply IH; try done; unfold widths; by rewrite Hl1.
Qed.
End MinibatchRuns.

(** ** The losses and TanH, on the reals *)

Section LossFacts.
Local Open Scope R_scope.

Lemma Rsum_nonneg (l : list R) : Forall (λ v, 0 <= v) l → 0 <= Rsum l.
Proof. induction 1 as [|v l Hv _ IH]; simpl; lra. Qed.

Lemma Rsum_zero (l : list R) :
  Forall (λ v, 0 <= v) l → Rsum l = 0 → Forall (λ v, v = 0) l.
Proof.
  induction 1 as [|v l Hv Hl IH]; simpl; intros Hs; [done|].
  pose proof (Rsum_nonneg l Hl). constructor; [lra|]. apply IH. lra.
Qed.

Lemma Rsum_zip_minus (x y : list R) :
  length x = length y → Rsum (zip_with Rminus x y) = Rsum x - Rsum y.
Proof.
  revert y. induction x as [|a x IH]; intros [|b y] Hlen; simplify_eq/=; [lra|].
  rewrite IH by done. lra.
Qed.

Lemma INR_length_pos {A : Type} (x : list A) : x ≠ [] → 0 < INR (length x).
Proof.
  intros Hx. apply lt_0_INR. destruct x; [done|]. cbn. lia.
Qed.

(** X14: on real arrays of one length, not empty, [MSE.loss] is never
    negative, and it is zero exactly when prediction and target agree. *)
Theorem MSE_loss_zero_iff_equal (x y : list R) :
  length x = length y → x ≠ [] →
  ∃ v, loss MSE x y = Ok v ∧ 0 <= v ∧ (v = 0 ↔ x = y).
Proof.
  intros Hlen Hx. cbn [loss MSE]. unfold MSE_loss.
  rewrite broadcast_same_length by done. cbn [mbind result_bind].
  eexists. split; [reflexivity|]. unfold np_mean.
  rewrite np_sum_Rsum, length_map, length_zip_with, <-Hlen, Nat.min_id.
  cbn [fdiv fof_nat fmul fsub R_scalar].
  pose proof (INR_length_pos x Hx) as Hn.
  assert (Forall (λ v, 0 <= v) (map (λ e, e * e) (zip_with Rminus x y))) as Hsq.
  { apply Forall_fmap, Forall_true. intros e. cbn. nra. }
  pose proof (Rsum_nonneg _ Hsq) as Hs.
  split.
  - apply Rle_mult_inv_pos; lra.
  - split.
    + intros Hz.
      assert (Rsum (map (λ e, e * e) (zip_with Rminus x y)) = 0) as Hz'.
      { apply (Rmult_eq_reg_r (/ INR (length x))).
        - unfold Rdiv in Hz. lra.
        - apply Rinv_neq_0_compat. lra. }
      pose proof (Rsum_zero _ Hsq Hz') as Hall.
      clear -Hall Hlen. revert y Hlen Hall.
      induction x as [|a x IH]; intros [|b y] Hlen Hall; simplify_eq/=; [done|].
      apply Forall_cons_1 in Hall as [Hab Hall].
      f_equal; [nra|by apply IH].
    + intros <-.
      assert (Rsum (map (λ e, e * e) (zip_with Rminus x x)) = 0) as ->.
      { clear. induction x as [|a x IH]; simpl; [lra|]. rewrite IH. lra. }
      unfold Rdiv. lra.
Qed.

(** X15: [MSE.derivative] is the one number [2 * (sum(x) - sum(y)) / n], so
    it is zero as soon as the errors cancel, whether or not [x = y]. *)
Theorem MSE_derivative_cancels (x y : list R) :
  length x = length y → x ≠ [] →
  ∃ d, loss_derivative MSE x y = Ok (Scal d) ∧
       d = 2 * ((Rsum x - Rsum y) / INR (length x)) ∧
       (d = 0 ↔ Rsum x = Rsum y).
Proof.
  intros Hlen Hx. cbn [loss_derivative MSE]. unfold MSE_derivative.
  rewrite broadcast_same_length by done. cbn [mbind result_bind].
  eexists. split; [reflexivity|]. unfold np_mean.
  rewrite np_sum_Rsum, length_zip_with, <-Hlen, Nat.min_id.
  cbn [fdiv fof_nat fmul fsub R_scalar]. rewrite Rsum_zip_minus by done.
  pose proof (INR_length_pos x Hx) as Hn.
  split; [simpl; lra|].
  split.
  - intros Hz.
    assert ((Rsum x - Rsum y) * / INR (length x) = 0) as Hq
      by (simpl in Hz; unfold Rdiv in Hz; lra).
    apply Rmult_integral in Hq as [Hq|Hq]; [lra|].
    pose proof (Rinv_neq_0_compat (INR (length x))). lra.
  - intros ->. simpl. unfold Rdiv. lra.
Qed.
End LossFacts.

Section CrossEntropyFacts.
Local Open Scope R_scope.

Lemma Rsum_ge_elem (l : list R) (e : R) :
  Forall (λ v, 0 <= v) l → e ∈ l → e <= Rsum l.
Proof.
  intros Hl He. induction Hl as [|v l Hv Hl' IH]; [by apply elem_of_nil in He|].
  simpl. apply elem_of_cons in He as [->|He].
  - clear IH. assert (0 <= Rsum l); [|lra].
    clear -Hl'. induction Hl'; simpl; lra.
  - specialize (IH He). lra.
Qed.

(** The softmax of a row that is not empty: a probability vector. *)
Lemma softmax_row (x : list R) :
  x ≠ [] →
  ∃ p, softmax x = Ok p ∧ length p = length x ∧ Rsum p = 1 ∧
       Forall (λ q, 0 < q <= 1) p.
Proof.
  intros Hx. destruct (np_max_nonempty x Hx) as [m Hm].
  unfold softmax. rewrite Hm. cbn [mbind result_bind].
  set (exps := map (λ v, fexp (fsub v m)) x).
  assert (0 < np_sum exps) as Hs.
  { rewrite np_sum_Rsum. by apply Rsum_exp_pos. }
  assert (Forall (λ e, 0 <= e) exps) as Hnn.
  { apply Forall_fmap, Forall_true. intros v. cbn. left. apply exp_pos. }
  eexists. split; [reflexivity|]. split_and!.
  - unfold exps. by rewrite !length_map.
  - rewrite Rsum_div, <-np_sum_Rsum. cbn. field. lra.
  - apply Forall_fmap, Forall_forall. intros e He. cbn.
    assert (0 < e) as Hpos.
    { apply list_elem_of_fmap in He as (v & -> & _). apply exp_pos. }
    pose proof (Rsum_ge_elem exps e Hnn He) as Hle. rewrite <-np_sum_Rsum in Hle.
    split.
    + by apply Rdiv_lt_0_compat.
    + apply (Rmult_le_reg_r (np_sum exps)); [done|].
      unfold Rdiv. rewrite Rmult_assoc, Rinv_l by lra. lra.
Qed.

(** X16: for targets without negative entries, [CE.loss] is never
    negative. *)
Theorem CE_loss_nonnegative (x y : list R) :
  length y = length x → x ≠ [] → Forall (λ t, 0 <= t) y →
  ∃ v, loss CE x y = Ok v ∧ 0 <= v.
Proof.
  intros Hlen Hx Hy. cbn [loss CE]. unfold CE_loss.
  destruct (softmax_row x Hx) as (p & Hp & Hpl & _ & Hpr).
  rewrite Hp. cbn [mbind result_bind].
  rewrite broadcast_same_length by (rewrite !length_map; congruence).
  cbn [mbind result_bind]. eexists. split; [reflexivity|].
  rewrite np_sum_Rsum. apply Rsum_nonneg.
  apply Forall_lookup. intros i t Ht.
  rewrite lookup_zip_with, !list_lookup_fmap in Ht.
  destruct (y !! i) as [yi|] eqn:Hyi; [|done].
  destruct (p !! i) as [pi|] eqn:Hpi; [|done]. cbn in Ht. injection Ht as <-.
  rewrite Forall_lookup in Hy. pose proof (Hy _ _ Hyi) as Hyi0.
  rewrite Forall_lookup in Hpr. destruct (Hpr _ _ Hpi) as [Hp0 Hp1].
  assert (ln pi <= 0) as Hln.
  { rewrite <-ln_1. destruct Hp1 as [Hlt| ->]; [|lra].
    left. by apply ln_increasing. }
  nra.
Qed.

(** X17: the entries of [CE.derivative] add up to [1 - sum(y)]: to zero for
    a one-hot target. *)
Theorem CE_derivative_sum (x y : list R) :
  length y = length x → x ≠ [] →
  ∃ g, loss_derivative CE x y = Ok (Arr g) ∧ length g = length x ∧
       np_sum g = 1 - np_sum y.
Proof.
  intros Hlen Hx. cbn [loss_derivative CE]. unfold CE_derivative.
  destruct (softmax_row x Hx) as (p & Hp & Hpl & Hsum & _).
  rewrite Hp. cbn [mbind result_bind].
  rewrite broadcast_same_length by congruence.
  cbn [mbind result_bind]. eexists. split; [reflexivity|]. split.
  - rewrite length_zip_with. lia.
  - rewrite !np_sum_Rsum. cbn [fsub R_scalar].
    rewrite Rsum_zip_minus by congruence. lra.
Qed.
End CrossEntropyFacts.

Section TanHFacts.
Local Open Scope R_scope.

Lemma TanH_formula (v : R) :
  (exp v - exp (- v)) / (exp v + exp (- v)) = tanh v.
Proof.
  unfold tanh, sinh, cosh.
  pose proof (exp_pos v). pose proof (exp_pos (- v)). field. lra.
Qed.

Lemma tanh_bounds (v : R) : -1 < tanh v < 1.
Proof.
  rewrite <-TanH_formula.
  pose proof (exp_pos v) as H1. pose proof (exp_pos (- v)) as H2.
  split.
  - apply (Rmult_lt_reg_r (exp v + exp (- v))); [lra|].
    unfold Rdiv. rewrite Rmult_assoc, Rinv_l by lra. lra.
  - apply (Rmult_lt_reg_r (exp v + exp (- v))); [lra|].
    unfold Rdiv. rewrite Rmult_assoc, Rinv_l by lra. lra.
Qed.

(** X18: on real arrays [TanH.activation] is the hyperbolic tangent, entry
    by entry, so every entry lies strictly between -1 and 1; and
    [TanH.derivative] is [1 - t * t] for the entry [t] of the activation,
    which lies in the interval from 0 (excluded) to 1. *)
Theorem TanH_is_tanh (x : list R) :
  activation TanH x = map tanh x ∧
  Forall (λ t, -1 < t < 1) (activation TanH x) ∧
  ∃ d, derivative TanH x = Arr d ∧ length d = length x ∧
       (∀ i t, activation TanH x !! i = Some t → d !! i = Some (1 - t * t)) ∧
       Forall (λ t, 0 < t <= 1) d.
Proof.
  assert (TanH_activation x = map tanh x) as Hact.
  { unfold TanH_activation.
    apply list_fmap_ext. intros _ v _. cbn. apply TanH_formula. }
  cbn [activation derivative TanH]. unfold TanH_derivative. rewrite Hact.
  split; [done|]. split.
  - apply Forall_fmap, Forall_true. intros v. apply tanh_bounds.
  - eexists. split; [reflexivity|]. split_and!.
    + by rewrite !length_map.
    + intros i t Ht. rewrite list_lookup_fmap, Ht. done.
    + apply Forall_fmap, Forall_fmap, Forall_true. intros v. cbn.
      pose proof (tanh_bounds v). nra.
Qed.
End TanHFacts.

(** ** Shapes of the gradients, unpaired samples, the size check *)

Section Wrappers.
Context {F : Type} `{!Scalar F}.

(** X4: after a forward pass, [backward] appends gradients of the shapes of
    the parameters: entry [i] of the appended weight gradients has the
    shape of [weights[i]] and entry [i] of the appended bias gradients the
    length of [bias[i]]; accumulators that fitted the parameters still do. *)
Theorem backward_gradients_have_parameter_shapes (net0 net net' : NeuralNetwork F)
  (x out y : Vec F) (L : Loss F) :
  wf_network net0 → widths net0 !! 0 = Some (length x) →
  forward x net0 = Ok (net, out) →
  loss_fits net y L → wf_grads net →
  backward y L net = Ok net' →
  ∃ dw db,
    d_weights net' = d_weights net ++ [dw] ∧
    d_bias net' = d_bias net ++ [db] ∧
    Forall2 (λ w d, map length d = map length w) (weights net) dw ∧
    Forall2 (λ b d, length d = length b) (bias net) db ∧
    wf_grads net'.
Proof.
  intros Hwf Hx Hfwd Hloss Hgr Hbw.
  destruct (forward_wf net0 net x out Hwf Hx Hfwd) as (Hwf' & Hc & _ & _).
  destruct (backward_spec net y L Hwf' Hc Hloss)
    as (t & dw & db & Ht & Hdw & Hdb & _ & _ & _ & Hpar & _).
  rewrite Hbw in Ht. injection Ht as <-.
  destruct (backward_wf_grads net net' y L Hwf' Hc Hloss Hgr Hbw)
    as (_ & _ & Hgr' & _).
  exists dw, db. split_and!; try done.
  - destruct Hgr' as [_ Hw _].
    rewrite Hdw, Forall_app, Forall_singleton in Hw. destruct Hw as [_ Hw].
    by rewrite (proj1 (proj2 (proj2 Hpar))) in Hw.
  - destruct Hgr' as [_ _ Hb].
    rewrite Hdb, Forall_app, Forall_singleton in Hb. destruct Hb as [_ Hb].
    by rewrite (proj2 (proj2 (proj2 (proj2 Hpar)))) in Hb.
Qed.

(** X8: [fit] pairs samples and targets with [zip]: what either array
    holds beyond the length of the other has no effect on the result. *)
Theorem fit_ignores_unpaired_samples (X Y : list (Vec F)) (L : Loss F)
  (n_epochs : nat) (net : NeuralNetwork F) :
  fit X Y L n_epochs net
  = fit (take (length Y) X) (take (length X) Y) L n_epochs net.
Proof.
  unfold fit. generalize 0. revert net.
  induction n_epochs as [|e IH]; intros net a; [done|].
  cbn [seq for_each]. rewrite fit_epoch_truncates.
  destruct (fit_epoch _ _ L net) as [t| |]; cbn; [|done..]. apply IH.
Qed.

(** X10: with no epoch to run, [minibatch_fit] returns the network as it
    is and never compares the sizes of the datasets; with one epoch or
    more and datasets of unequal sizes it raises [AssertionError]. *)
Theorem minibatch_fit_checks_sizes_in_first_epoch (fuel : nat)
  (X Y : list (Vec F)) (L : Loss F) (n_epochs batch_size : nat)
  (perms : nat → list nat) (net : NeuralNetwork F) :
  length X ≠ length Y →
  minibatch_fit fuel X Y L 0 batch_size perms net = Ok net ∧
  minibatch_fit fuel X Y L (S n_epochs) batch_size perms net
  = Raise AssertionError.
Proof.
  intros Hlen. split; [done|]. by apply minibatch_fit_asserts.
Qed.
End Wrappers.

(** ** The further properties at concrete inputs *)

Lemma net0_forward_wf_grads : wf_grads Examples.net0_forward.
Proof. split; [reflexivity|constructor..]. Qed.

Lemma MSE_accepts_Y2 : loss_accepts (F := float) MSE 1 Examples.Y2.
Proof.
  intros pred y Hy Hp.
  assert (length y = 1) as Hylen.
  { unfold Examples.Y2 in Hy. rewrite !elem_of_cons in Hy.
    destruct Hy as [->|[->|Hy]]; [done|done|by apply elem_of_nil in Hy]. }
  cbn [loss loss_derivative MSE]. unfold MSE_loss, MSE_derivative.
  rewrite broadcast_same_length by congruence. cbn [mbind result_bind].
  split; eexists; [reflexivity|split; [reflexivity|exact I]].
Qed.

(** X1, witness: a network of layers [[(2, None), (1, Free)]]. *)
Lemma new_network_well_formed_witness :
  ∃ net s',
    new_network (λ _, 0.5%float) 0 [(2, None); (1, Some Free)] 0.5%float
    = Ok (net, s') ∧
    wf_network net ∧
    layers net = [(2, None); (1, Some Free)] ∧
    learning_rate net = 0.5%float ∧
    d_weights net = [] ∧ d_bias net = [] ∧
    Forall2 (λ a n, a = replicate n fzero) (as_ net)
      [(2, None); (1, Some (@Free float _))].*1 ∧
    Forall2 (λ z n, z = replicate n fzero) (zs net)
      [(2, None); (1, Some (@Free float _))].*1.
Proof.
  apply (new_network_well_formed (λ _, 0.5%float) 0
           [(2, None); (1, Some Free)] 0.5%float).
  - discriminate.
  - repeat constructor.
  - intros [|[|i]] o Hi Ho; [lia| |done]. cbn in Ho. injection Ho as <-.
    eexists. split; [reflexivity|]. apply Free_shape_preserving.
Defined.

(** X2, witness: an input of one value for [net0], whose first layer has
    two. *)
Lemma forward_rejects_wrong_width_witness :
  forward [1]%float Examples.net0 = Raise ValueError.
Proof.
  apply (forward_rejects_wrong_width Examples.net0 [1]%float 2).
  - apply net0_wf.
  - cbn. lia.
  - reflexivity.
  - cbn. lia.
Defined.

(** X3, witness: [predict] on the two samples of [X2]. *)
Lemma predict_forwards_each_sample_witness :
  ∃ net' Y,
    predict Examples.X2 Examples.net0 = Ok (net', Y) ∧
    Forall2 (λ x p, ∃ u, forward x Examples.net0 = Ok (u, p)) Examples.X2 Y ∧
    same_params net' Examples.net0 ∧ same_grads net' Examples.net0.
Proof.
  apply (predict_forwards_each_sample Examples.net0 Examples.X2).
  - apply net0_wf.
  - repeat constructor.
Defined.

(** X4, witness: [backward([1], MSE())] after [forward([1, 2])]. *)
Lemma backward_gradients_have_parameter_shapes_witness :
  ∃ dw db,
    d_weights Examples.net0_backward = d_weights Examples.net0_forward ++ [dw] ∧
    d_bias Examples.net0_backward = d_bias Examples.net0_forward ++ [db] ∧
    Forall2 (λ w d, map length d = map length w)
      (weights Examples.net0_forward) dw ∧
    Forall2 (λ b d, length d = length b) (bias Examples.net0_forward) db ∧
    wf_grads Examples.net0_backward.
Proof.
  apply (backward_gradients_have_parameter_shapes Examples.net0
           Examples.net0_forward Examples.net0_backward
           [1; 2]%float [2.25]%float [1]%float MSE).
  - apply net0_wf.
  - reflexivity.
  - vm_compute. reflexivity.
  - intros a n Ha Hn. vm_compute in Ha, Hn. injection Ha as <-. injection Hn as <-.
    eexists. split; [vm_compute; reflexivity|]. exact I.
  - apply net0_forward_wf_grads.
  - vm_compute. reflexivity.
Defined.

(** X5, witness: two steps on [net0_backward]. *)
Lemma step_without_clear_subtracts_again_witness :
  ∃ net1 net2,
    step Examples.net0_backward = Ok net1 ∧ step net1 = Ok net2 ∧
    (∀ i r c e, entry3 (weights Examples.net0_backward) i r c = Some e →
       ∃ es, Forall2 (λ dws x, entry3 dws i r c = Some x)
               (d_weights Examples.net0_backward) es ∧
             let mean := fdiv (np_sum es)
                           (fof_nat (length (d_weights Examples.net0_backward))) in
             entry3 (weights net1) i r c = Some (fsub e mean) ∧
             entry3 (weights net2) i r c = Some (fsub (fsub e mean) mean)) ∧
    (∀ i r e, entry2 (bias Examples.net0_backward) i r = Some e →
       ∃ es, Forall2 (λ dbs x, entry2 dbs i r = Some x)
               (d_bias Examples.net0_backward) es ∧
             let mean := fdiv (np_sum es)
                           (fof_nat (length (d_bias Examples.net0_backward))) in
             entry2 (bias net1) i r = Some (fsub e mean) ∧
             entry2 (bias net2) i r = Some (fsub (fsub e mean) mean)).
Proof.
  apply (step_without_clear_subtracts_again Examples.net0_backward).
  - reflexivity.
  - split; [reflexivity|repeat constructor..].
  - cbn. lia.
Defined.

(** X6, witness: [step] on [net0], whose accumulators are empty. *)
Lemma step_empty_witness :
  step Examples.net0
  = Ok (set_params Examples.net0
          (map (map (map (λ a, fsub a empty_mean))) (weights Examples.net0))
          (map (map (λ a, fsub a empty_mean)) (bias Examples.net0))).
Proof. apply (step_empty Examples.net0); reflexivity. Defined.

(** X7, witness: three epochs of [fit] on two samples. *)
Lemma fit_succeeds_witness :
  ∃ net', fit Examples.X2 Examples.Y2 MSE 3 Examples.net0 = Ok net' ∧
          wf_network net'.
Proof.
  apply (fit_succeeds Examples.X2 Examples.Y2 MSE 3 Examples.net0 1).
  - apply net0_wf.
  - reflexivity.
  - reflexivity.
  - repeat constructor.
  - reflexivity.
  - apply MSE_accepts_Y2.
  - cbn. lia.
  - cbn. lia.
Defined.

(** X9, witness: three indices in batches of two. *)
Lemma minibatch_reader_partitions_witness :
  ∃ batches,
    minibatch_reader 4 [3; 3] 2 [2; 0; 1] = Ok batches ∧
    concat batches = [2; 0; 1] ∧
    (∀ k b, batches !! k = Some b →
            b = take 2 (drop (2 * k) [2; 0; 1]) ∧ b ≠ []) ∧
    length batches = (3 + 2 - 1) / 2.
Proof.
  apply (minibatch_reader_partitions 4 3 2 [3] [2; 0; 1]).
  - repeat constructor.
  - lia.
  - reflexivity.
  - lia.
Defined.

(** X10, witness: two samples and one target row. *)
Lemma minibatch_fit_checks_sizes_in_first_epoch_witness :
  minibatch_fit 3 Examples.X2 Examples.Y1 MSE 0 1 (λ _, [0; 1]) Examples.net0
  = Ok Examples.net0 ∧
  minibatch_fit 3 Examples.X2 Examples.Y1 MSE 1 1 (λ _, [0; 1]) Examples.net0
  = Raise AssertionError.
Proof.
  apply (minibatch_fit_checks_sizes_in_first_epoch 3 Examples.X2 Examples.Y1
           MSE 0 1 (λ _, [0; 1]) Examples.net0).
  cbn. lia.
Defined.

(** X11, witness: two samples and [batch_size = 0]. *)
Lemma minibatch_fit_zero_batch_size_diverges_witness :
  minibatch_fit 100 Examples.X2 Examples.Y2 MSE 1 0 (λ _, [0; 1]) Examples.net0
  = OutOfFuel.
Proof.
  apply (minibatch_fit_zero_batch_size_diverges 100 Examples.X2 Examples.Y2
           MSE 0 (λ _, [0; 1]) Examples.net0).
  - cbn. lia.
  - reflexivity.
Defined.

(** X12, witness: two epochs over two samples in batches of one, the
    second sample first. *)
Lemma minibatch_fit_succeeds_witness :
  ∃ net',
    minibatch_fit 3 Examples.X2 Examples.Y2 MSE 2 1 (λ _, [1; 0]) Examples.net0
    = Ok net' ∧
    wf_network net' ∧ d_weights net' = [] ∧ d_bias net' = [].
Proof.
  apply (minibatch_fit_succeeds 3 Examples.X2 Examples.Y2 MSE 2 1
           (λ _, [1; 0]) Examples.net0 1).
  - apply net0_wf.
  - reflexivity.
  - reflexivity.
  - repeat constructor.
  - reflexivity.
  - apply MSE_accepts_Y2.
  - reflexivity.
  - lia.
  - cbn. lia.
  - intros _. cbn. apply perm_swap.
Defined.

(** X13, witness: two samples in one batch of two. *)
Lemma minibatch_fit_full_batch_witness :
  minibatch_fit 2 Examples.X2 Examples.Y2 MSE 1 (length Examples.X2)
    (λ _, [0; 1]) Examples.net0
  = fit Examples.X2 Examples.Y2 MSE 1 Examples.net0.
Proof.
  apply (minibatch_fit_full_batch 0 Examples.X2 Examples.Y2 MSE 1
           (λ _, [0; 1]) Examples.net0).
  - cbn. lia.
  - reflexivity.
  - reflexivity.
Defined.

(** X14, witness: a prediction and a target of two values. *)
Lemma MSE_loss_zero_iff_equal_witness :
  ∃ v, loss MSE [1; 2]%R [1; 3]%R = Ok v ∧ (0 <= v)%R ∧
       (v = 0%R ↔ [1; 2]%R = [1; 3]%R).
Proof.
  apply (MSE_loss_zero_iff_equal [1; 2]%R [1; 3]%R); [reflexivity|discriminate].
Defined.

(** X15, witness: errors [+1] and [-1], which cancel. *)
Lemma MSE_derivative_cancels_witness :
  ∃ d, loss_derivative MSE [1; -1]%R [0; 0]%R = Ok (Scal d) ∧
       d = (2 * ((Rsum [1; -1] - Rsum [0; 0]) / INR (length [1; -1]%R)))%R ∧
       (d = 0%R ↔ Rsum [1; -1]%R = Rsum [0; 0]%R).
Proof.
  apply (MSE_derivative_cancels [1; -1]%R [0; 0]%R); [reflexivity|discriminate].
Defined.

(** X16, witness: a one-hot target. *)
Lemma CE_loss_nonnegative_witness :
  ∃ v, loss CE [0; 1]%R [1; 0]%R = Ok v ∧ (0 <= v)%R.
Proof.
  apply (CE_loss_nonnegative [0; 1]%R [1; 0]%R); [reflexivity|discriminate|].
  repeat constructor; lra.
Defined.

(** X17, witness: a one-hot target. *)
Lemma CE_derivative_sum_witness :
  ∃ g, loss_derivative CE [0; 1]%R [1; 0]%R = Ok (Arr g) ∧
       length g = length [0; 1]%R ∧
       np_sum g = (1 - np_sum [1; 0])%R.
Proof.
  apply (CE_derivative_sum [0; 1]%R [1; 0]%R); [reflexivity|discriminate].
Defined.

(** * Properties of the sequence and dataset utilities *)

(** ** FastaReader *)

Section Fasta.
Import IO.

Lemma lstrip_keeps (c : ascii) (s : list ascii) :
  c ∈ s → is_space c = false → c ∈ lstrip s.
Proof.
  intros Hin Hc. induction s as [|a s IH]; [done|].
  cbn [lstrip]. destruct (is_space a) eqn:Ha; [|done].
  apply elem_of_cons in Hin as [->|Hin]; [congruence|]. by apply IH.
Qed.

Lemma strip_keeps (c : ascii) (s : list ascii) :
  c ∈ s → is_space c = false → c ∈ strip s.
Proof.
  intros Hin Hc. unfold strip, rstrip.
  apply elem_of_reverse, lstrip_keeps; [|done].
  by apply elem_of_reverse, lstrip_keeps.
Qed.

Lemma strip_header_truthy (line : list ascii) :
  ">"%char ∈ line → falsy (Some (strip line)) = false.
Proof.
  intros Hin. cbn [falsy]. apply bool_decide_eq_false. intros Hnil.
  pose proof (strip_keeps _ _ Hin eq_refl) as Hs.
  rewrite Hnil in Hs. by apply elem_of_nil in Hs.
Qed.

Lemma fasta_loop_sequence_lines (ls rest : list (list ascii)) header sq :
  Forall (λ l, ">"%char ∉ l) ls →
  fasta_loop (ls ++ rest) header sq
  = fasta_loop rest header (sq ++ concat (map strip ls)).
Proof.
  intros Hls. revert sq.
  induction Hls as [|l ls Hl _ IH]; intros sq; cbn [app map concat].
  - by rewrite app_nil_r.
  - cbn [fasta_loop]. rewrite bool_decide_eq_false_2 by done.
    by rewrite IH, <-(assoc_L (++)).
Qed.

Lemma fasta_loop_records (records : list (list ascii * list (list ascii))) hd sq :
  falsy (Some hd) = false →
  Forall (λ r, ">"%char ∈ r.1 ∧ Forall (λ l, ">"%char ∉ l) r.2) records →
  fasta_loop (concat (map (λ r, r.1 :: r.2) records)) (Some hd) sq
  = (Some hd, sq) :: map (λ r, (Some (strip r.1), concat (map strip r.2))) records.
Proof.
  intros Hhd Hrec. revert hd sq Hhd.
  induction Hrec as [|[h ls] records [Hh Hls] _ IH]; intros hd sq Hhd; [done|].
  cbn [map concat fst snd app] in *. cbn [fasta_loop].
  rewrite bool_decide_eq_true_2 by done. rewrite Hhd. f_equal.
  rewrite fasta_loop_sequence_lines by done.
  rewrite IH by by apply strip_header_truthy. done.
Qed.

(** X19: take a file as the lines before its first header line (a line
    holding [>]) followed by records, each a header line and the lines up
    to the next header.  [FastaReader] yields one pair per record, in
    order: the stripped header line, which keeps its [>], and the stripped
    lines of the record joined.  The lines before the first header are
    dropped.  A file without a header line yields one pair: [None] and its
    stripped lines joined, the empty string for an empty file. *)
Theorem FastaReader_reads_records
  (preamble : list (list ascii)) (records : list (list ascii * list (list ascii))) :
  Forall (λ l, ">"%char ∉ l) preamble →
  Forall (λ r, ">"%char ∈ r.1 ∧ Forall (λ l, ">"%char ∉ l) r.2) records →
  FastaReader_iter (preamble ++ concat (map (λ r, r.1 :: r.2) records))
  = match records with
    | [] => [(None, concat (map strip preamble))]
    | _ => map (λ r, (Some (strip r.1), concat (map strip r.2))) records
    end.
Proof.
  intros Hpre Hrec. unfold FastaReader_iter.
  rewrite fasta_loop_sequence_lines by done. cbn [app].
  destruct Hrec as [|[h ls] records [Hh Hls] Hrec]; [done|].
  cbn [map concat fst snd app] in *. cbn [fasta_loop].
  rewrite bool_decide_eq_true_2 by done. cbn [falsy].
  rewrite fasta_loop_sequence_lines by done.
  rewrite fasta_loop_records; [done| |done]. by apply strip_header_truthy.
Qed.

End Fasta.


(** ** One-hot encoding *)

Section Collect.
Import IO.

Lemma collect_Return {A B : Type} (body : A → outcome B) (l : list A) (ys : list B) :
  collect body l = Return ys ↔ Forall2 (λ x y, body x = Return y) l ys.
Proof.
  revert ys. induction l as [|x l IH]; intros ys; cbn [collect].
  - split; [intros [= <-]; constructor|by intros ->%Forall2_nil_inv_l].
  - split.
    + destruct (body x) as [y|e] eqn:Hx; cbn; [|done].
      destruct (collect body l) as [ys'|e] eqn:Hl; cbn; [|done].
      intros [= <-]. constructor; [done|]. by apply IH.
    + intros (y & ys' & Hx & Hl & ->)%Forall2_cons_inv_l.
      rewrite Hx. cbn. apply IH in Hl as ->. done.
Qed.

Lemma collect_map {A B : Type} (body : A → outcome B) (g : A → B) (l : list A) :
  Forall (λ x, body x = Return (g x)) l → collect body l = Return (map g l).
Proof.
  intros Hl. apply collect_Return. induction Hl; cbn; by constructor.
Qed.

Lemma collect_Throw {A B : Type} (body : A → outcome B) (e : error) (l : list A) :
  Exists (λ x, body x = Throw e) l →
  Forall (λ x, body x = Throw e ∨ ∃ y, body x = Return y) l →
  collect body l = Throw e.
Proof.
  intros Hex Hall. induction Hall as [|x l Hx Hall IH]; [by inversion Hex|].
  cbn [collect]. destruct Hx as [->|[y Hy]]; [done|].
  inversion Hex as [?? Hbad|?? Hex']; subst; [congruence|].
  rewrite Hy. cbn. by rewrite IH.
Qed.
End Collect.

Section OneHotFacts.
Import IO.
Context {F : Type} `{!Scalar F}.

Lemma one_hot_row_Return (n j : nat) :
  j < n → one_hot_row (F := F) n j = Return (unit_row n j).
Proof. intros Hj. unfold one_hot_row. by rewrite decide_True. Qed.

Lemma length_unit_row (n j : nat) : length (unit_row n j) = n.
Proof. unfold unit_row. by rewrite length_insert, length_replicate. Qed.

Section Given.
Context {K : Type} `{Countable K} (le : relation K) `{!RelDecision le}.

Lemma OneHotEncoding_given (labels : list K) (d : gmap K nat) (flatten : bool) :
  d ≠ ∅ →
  OneHotEncoding le labels (Some d) flatten
  = (ohe ← collect (λ l, match d !! l with
                         | Some j => one_hot_row (F := F) (size d) j
                         | None => Throw KeyError
                         end) labels;
     Return (if flatten then Flat (concat ohe) else Rows ohe)).
Proof. intros Hd. unfold OneHotEncoding. by rewrite decide_False. Qed.


Lemma OneHotEncoding_empty_lookup (labels : list K) (flatten : bool) :
  OneHotEncoding (F := F) le labels (Some ∅) flatten
  = OneHotEncoding le labels None flatten.
Proof. unfold OneHotEncoding. by rewrite decide_True. Qed.






Lemma encode_rows (d : gmap K nat) (n : nat) (labels : list K) :
  Forall (λ l, ∃ j, d !! l = Some j ∧ j < n) labels →
  ∃ ohe,
    collect (λ l, match d !! l with
                  | Some j => one_hot_row (F := F) n j
                  | None => Throw KeyError
                  end) labels = Return ohe
    ∧ Forall2 (λ l row, ∃ j, d !! l = Some j ∧ j < n ∧ row = unit_row n j)
        labels ohe.
Proof.
  intros Hl.
  assert (Forall (λ l, ∃ row, ∃ j, d !! l = Some j ∧ j < n
                              ∧ row = unit_row n j) labels) as Hrows.
  { eapply Forall_impl; [exact Hl|]. intros l (j & Hj & Hlt).
    by exists (unit_row n j), j. }
  apply Forall_exists_Forall2_l in Hrows as [ohe Hohe].
  exists ohe. split; [|done]. apply collect_Return.
  eapply Forall2_impl; [exact Hohe|]. intros l row (j & -> & Hlt & ->).
  by apply one_hot_row_Return.
Qed.
End Given.

(** *** argmax and reshape *)

Lemma argmax_from_zeros (best_i i n : nat) (best : F) :
  fge best fzero = true →
  argmax_from best_i best i (replicate n fzero) = best_i.
Proof.
  intros Hb. revert i. induction n as [|n IH]; intros i; [done|].
  cbn [replicate argmax_from]. by rewrite Hb.
Qed.

Lemma unit_row_0 (n : nat) : unit_row (S n) 0 = fone :: replicate n fzero.
Proof. done. Qed.

Lemma unit_row_S (n j : nat) : unit_row (S n) (S j) = fzero :: unit_row n j.
Proof. done. Qed.

Lemma argmax_from_unit (best_i i n j : nat) :
  zero_below_one (F := F) → j < n →
  argmax_from best_i fzero i (unit_row n j) = i + j.
Proof.
  intros (fge_zero_zero & fge_one_one & fge_one_zero & fge_zero_one).
  revert i j. induction n as [|n IH]; intros i j Hj; [lia|].
  destruct j as [|j].
  - rewrite unit_row_0. cbn [argmax_from].
    rewrite fge_zero_one, fge_one_one.
    rewrite argmax_from_zeros by done. lia.
  - rewrite unit_row_S. cbn [argmax_from].
    rewrite fge_zero_zero. rewrite IH by lia. lia.
Qed.

Lemma argmax_unit (n j : nat) :
  zero_below_one (F := F) → j < n → argmax (unit_row n j) = Return j.
Proof.
  intros Hord Hj.
  pose proof Hord as (fge_zero_zero & fge_one_one & fge_one_zero & fge_zero_one). destruct n as [|n]; [lia|].
  destruct j as [|j].
  - rewrite unit_row_0. cbn [argmax].
    rewrite fge_one_one. by rewrite argmax_from_zeros.
  - rewrite unit_row_S. cbn [argmax].
    rewrite fge_zero_zero. rewrite argmax_from_unit by (done || lia). done.
Qed.
Lemma argmax_from_bound (best_i i : nat) (best : F) (v : Vec F) :
  best_i < i → argmax_from best_i best i v < i + length v.
Proof.
  revert best_i best i. induction v as [|x v IH]; intros best_i best i Hb.
  - cbn. lia.
  - cbn [argmax_from length]. destruct (fge best x).
    + specialize (IH best_i best (S i)). lia.
    + destruct (fge x x); [|lia]. specialize (IH i x (S i)). lia.
Qed.

Lemma argmax_bound (v : Vec F) :
  v ≠ [] → ∃ j, argmax v = Return j ∧ j < length v.
Proof.
  destruct v as [|x v]; [done|]. intros _. cbn [argmax length].
  eexists; split; [done|]. destruct (fge x x); [|lia].
  pose proof (argmax_from_bound 0 1 x v). lia.
Qed.

Lemma reshape_rows_concat (n : nat) (rows : Mat F) :
  Forall (λ r, length r = n) rows →
  reshape_rows (length rows) n (concat rows) = rows.
Proof.
  induction 1 as [|r rows Hr _ IH]; [done|].
  cbn [length concat reshape_rows].
  rewrite take_app_length', drop_app_length' by done. by rewrite IH.
Qed.

Lemma length_concat_rows (n : nat) (rows : Mat F) :
  Forall (λ r, length r = n) rows → length (concat rows) = length rows * n.
Proof.
  induction 1 as [|r rows Hr _ IH]; [done|].
  cbn [concat length]. rewrite length_app, IH, Hr. lia.
Qed.

Lemma reshape_rows_shape (rows cols : nat) (v : Vec F) :
  rows * cols = length v →
  length (reshape_rows rows cols v) = rows
  ∧ Forall (λ r, length r = cols) (reshape_rows rows cols v).
Proof.
  revert v. induction rows as [|rows IH]; intros v Hv; [by split|].
  cbn [reshape_rows length].
  destruct (IH (drop cols v)) as [Hlen Hall]; [rewrite length_drop; lia|].
  split; [by rewrite Hlen|]. constructor; [|done].
  rewrite length_take. lia.
Qed.

Lemma InverseOneHotEncoding_reshaped (ohe : Vec F) (alphabet : list (list ascii)) :
  alphabet ≠ [] →
  length ohe `mod` length alphabet = 0 →
  InverseOneHotEncoding ohe alphabet
  = (labels ← collect argmax
       (reshape_rows (length ohe / length alphabet) (length alphabet) ohe);
     chosen ← collect (item IndexError alphabet) labels;
     Return (concat chosen)).
Proof.
  intros Ha Hmod. unfold InverseOneHotEncoding.
  assert (length alphabet ≠ 0) as Hn by by destruct alphabet.
  rewrite decide_False by done. unfold reshape_2d.
  rewrite decide_True; [done|].
  pose proof (Nat.div_mod (length ohe) (length alphabet) Hn). lia.
Qed.
End OneHotFacts.


Section CollectMore.
Import IO.

Lemma bind_Return {A B : Type} (a : A) (k : A → outcome B) :
  (Return a ≫= k) = k a.
Proof. done. Qed.

Lemma collect_app_Throw {A B : Type} (body : A → outcome B) (e : error)
  (good : list A) (x : A) (rest : list A) :
  Forall (λ a, ∃ y, body a = Return y) good →
  body x = Throw e →
  collect body (good ++ x :: rest) = Throw e.
Proof.
  intros Hgood Hx. induction Hgood as [|a good [y Hy] _ IH]; cbn [app collect].
  - by rewrite Hx.
  - rewrite Hy. cbn. by rewrite IH.
Qed.
End CollectMore.

Section Encoding.
Import IO.
Context {F : Type} `{!Scalar F}.
Context {K : Type} `{Countable K} (le : relation K) `{!RelDecision le}.

Lemma unit_rows_shape {A : Type} (P : A → nat → Prop) (n : nat)
  (labels : list A) (ohe : Mat F) :
  Forall2 (λ l row, ∃ j, P l j ∧ row = unit_row n j) labels ohe →
  Forall (λ r, length r = n) ohe.
Proof.
  induction 1 as [|l row labels' ohe (j & _ & ->)];
    constructor; [apply length_unit_row|done].
Qed.



(** X25: with a lookup that is not empty, [OneHotEncoding] fails at the
    first label that is not a key of the lookup, with KeyError, or whose
    value is [len(lookup)] or more, with IndexError. *)
Theorem OneHotEncoding_first_bad_label (d : gmap K nat)
  (good : list K) (l : K) (rest : list K) (flatten : bool) :
  d ≠ ∅ →
  Forall (λ g, ∃ j, d !! g = Some j ∧ j < size d) good →
  match d !! l with Some j => size d ≤ j | None => True end →
  OneHotEncoding (F := F) le (good ++ l :: rest) (Some d) flatten
  = Throw (match d !! l with Some _ => IndexError | None => KeyError end).
Proof.
  intros Hd Hgood Hbad. rewrite OneHotEncoding_given by done.
  rewrite collect_app_Throw
    with (e := match d !! l with Some _ => IndexError | None => KeyError end).
  - done.
  - eapply Forall_impl; [exact Hgood|]. intros g (j & -> & Hj).
    rewrite one_hot_row_Return by done. by eexists.
  - destruct (d !! l) as [j|]; [|done].
    unfold one_hot_row. rewrite decide_False by lia. done.
Qed.

Lemma decode_rows (name : K → list ascii) (alphabet : list (list ascii))
  (labels : list K) (ohe : Mat F) :
  zero_below_one (F := F) →
  alphabet ≠ [] →
  Forall2 (λ l row, ∃ j, alphabet !! j = Some (name l)
                         ∧ row = unit_row (length alphabet) j) labels ohe →
  InverseOneHotEncoding (concat ohe) alphabet
  = Return (concat (map name labels)).
Proof.
  intros Hord Ha Hrows.
  assert (length alphabet ≠ 0) as Hn by by destruct alphabet.
  assert (Forall (λ r : Vec F, length r = length alphabet) ohe) as Hshape.
  { exact (unit_rows_shape (λ l j, alphabet !! j = Some (name l))
             _ _ _ Hrows). }
  rewrite InverseOneHotEncoding_reshaped; [|done|].
  2:{ rewrite (length_concat_rows _ _ Hshape). by apply Nat.Div0.mod_mul. }
  rewrite (length_concat_rows _ _ Hshape), Nat.div_mul by done.
  rewrite reshape_rows_concat by done.
  assert (∃ js, collect argmax ohe = Return js
                ∧ Forall2 (λ l j, alphabet !! j = Some (name l)) labels js)
    as (js & -> & Hjs).
  { clear Hshape. induction Hrows as [|l row labels ohe (j & Hj & ->) _ IH].
    - exists []. by split; [|constructor].
    - destruct IH as (js & Hjs & Hall). exists (j :: js). split.
      + cbn [collect]. rewrite argmax_unit; [|done|].
        * cbn. by rewrite Hjs.
        * by apply lookup_lt_Some in Hj.
      + by constructor. }
  rewrite bind_Return.
  assert (collect (item IndexError alphabet) js = Return (map name labels))
    as ->; [|done].
  apply collect_Return. clear -Hjs.
  induction Hjs as [|l j labels js Hj _ IH]; cbn [map]; constructor; [|done].
  unfold item. by rewrite Hj.
Qed.

(** X27: for an alphabet that is not empty, [InverseOneHotEncoding]
    raises ValueError when the size of the array is not a multiple of the
    size of the alphabet; otherwise it raises nothing and joins one
    member of the alphabet per row of the array, whatever the entries. *)
Theorem InverseOneHotEncoding_decodes_whole_rows
  (ohe : Vec F) (alphabet : list (list ascii)) :
  alphabet ≠ [] →
  (length ohe `mod` length alphabet ≠ 0 →
   InverseOneHotEncoding ohe alphabet = Throw ValueError)
  ∧ (length ohe `mod` length alphabet = 0 →
     ∃ chosen,
       InverseOneHotEncoding ohe alphabet = Return (concat chosen)
       ∧ length chosen = length ohe / length alphabet
       ∧ Forall (λ a, a ∈ alphabet) chosen).
Proof.
  intros Ha.
  assert (length alphabet ≠ 0) as Hn by by destruct alphabet.
  pose proof (Nat.div_mod (length ohe) (length alphabet) Hn) as Hdiv.
  split; intros Hmod.
  - unfold InverseOneHotEncoding, reshape_2d.
    rewrite decide_False by done. rewrite decide_False by lia. done.
  - rewrite InverseOneHotEncoding_reshaped by done.
    destruct (reshape_rows_shape (length ohe / length alphabet)
                (length alphabet) ohe) as [Hlen Hshape]; [lia|].
    revert Hlen Hshape.
    generalize (reshape_rows (length ohe / length alphabet)
                  (length alphabet) ohe) as m.
    generalize (length ohe / length alphabet) as rows.
    intros rows m <- Hshape. clear Hdiv Hmod.
    assert (∃ js, Forall2 (λ row j, argmax row = Return j
                                    ∧ j < length alphabet) m js)
      as [js Hjs].
    { apply Forall_exists_Forall2_l.
      eapply Forall_impl; [exact Hshape|]. intros row Hrow. cbn beta in Hrow.
      destruct (argmax_bound row) as (j & Hj & Hlt).
      - intros ->. cbn in Hrow. lia.
      - exists j. split; [done|lia]. }
    assert (∃ chosen, Forall2 (λ j a, alphabet !! j = Some a) js chosen)
      as [chosen Hchosen].
    { apply Forall_exists_Forall2_l.
      apply Forall2_Forall_r with (Q := λ j, j < length alphabet) in Hjs.
      - eapply Forall_impl; [exact Hjs|]. intros j Hj.
        by apply lookup_lt_is_Some_2 in Hj as [a Hja]; exists a.
      - apply Forall_true. by intros row j [_ ?]. }
    exists chosen.
    assert (collect argmax m = Return js) as ->.
    { apply collect_Return. eapply Forall2_impl; [exact Hjs|]. by intros ?? [??]. }
    rewrite bind_Return.
    assert (collect (item IndexError alphabet) js = Return chosen) as ->.
    { apply collect_Return. eapply Forall2_impl; [exact Hchosen|].
      intros j a Hja. unfold item. by rewrite Hja. }
    split_and!; [done| |].
    + by rewrite <-(Forall2_length _ _ _ Hchosen), <-(Forall2_length _ _ _ Hjs).
    + apply Forall2_Forall_r with (Q := λ a, a ∈ alphabet) in Hchosen; [done|].
      apply Forall_true. intros j a Hja. by eapply list_elem_of_lookup_2.
Qed.
End Encoding.


(** ** Kmerize *)

Section Kmers.
Import IO.

Lemma length_get_kmers (self : Kmerize) (s : list ascii) :
  length (get_kmers self s) = length s + 1 - k self.
Proof. unfold get_kmers. by rewrite length_map, length_seq. Qed.

Lemma elem_of_get_kmers (self : Kmerize) (s kmer : list ascii) :
  kmer ∈ get_kmers self s ↔
  ∃ i, i + k self ≤ length s ∧ kmer = slice i (i + k self) s.
Proof.
  unfold get_kmers. rewrite list_elem_of_In, in_map_iff. split.
  - intros (i & <- & Hi). apply in_seq in Hi. exists i. split; [lia|done].
  - intros (i & Hi & ->). exists i. split; [done|]. apply in_seq. lia.
Qed.

Lemma get_kmers_lengths (self : Kmerize) (s : list ascii) :
  Forall (λ kmer, length kmer = k self) (get_kmers self s).
Proof.
  apply Forall_forall. intros kmer (i & Hi & ->)%elem_of_get_kmers.
  unfold slice. rewrite length_take, length_drop. lia.
Qed.

Lemma elem_of_slice {A : Type} (i j : nat) (l : list A) (x : A) :
  x ∈ slice i j l ↔ ∃ p, l !! p = Some x ∧ i ≤ p < j.
Proof.
  unfold slice. rewrite elem_of_take. split.
  - intros (t & Ht & Hlt). rewrite lookup_drop in Ht.
    exists (i + t). split; [done|lia].
  - intros (p & Hp & Hlt). exists (p - i). rewrite lookup_drop.
    replace (i + (p - i)) with p by lia. split; [done|lia].
Qed.

Lemma Kmerize_lookup_nonempty (self : Kmerize) : lookup self ≠ ∅.
Proof. unfold lookup. apply insert_non_empty. Qed.

Lemma Kmerize_size_lookup (self : Kmerize) : size (lookup self) = 4.
Proof. reflexivity. Qed.

Lemma Kmerize_lookup_Some (self : Kmerize) (c : ascii) (j : nat) :
  lookup self !! c = Some j → j < 4 ∧ nucleotide_names !! j = Some [c].
Proof.
  unfold lookup. intros Hc.
  repeat (apply lookup_insert_Some in Hc as [[<- <-]|[_ Hc]];
          [split; [lia|done]|]).
  by rewrite lookup_empty in Hc.
Qed.

Lemma Kmerize_lookup_nucleotide (self : Kmerize) (c : ascii) :
  c ∈ nucleotides → ∃ j, lookup self !! c = Some j.
Proof.
  unfold nucleotides. rewrite !elem_of_cons, elem_of_nil.
  intros [->|[->|[->|[->|[]]]]]; by eexists.
Qed.

Lemma Kmerize_lookup_foreign (self : Kmerize) (c : ascii) :
  c ∉ nucleotides → lookup self !! c = None.
Proof.
  intros Hc. destruct (lookup self !! c) as [j|] eqn:Hj; [|done].
  apply Kmerize_lookup_Some in Hj as [_ Hj]. destruct Hc.
  apply list_elem_of_lookup_2 in Hj. unfold nucleotide_names in Hj.
  apply list_elem_of_In, in_map_iff in Hj as (c' & [= ->] & Hc').
  by apply list_elem_of_In.
Qed.

Section Process.
Context {F : Type} `{!Scalar F}.

Lemma process_plain (self : Kmerize) (iterable : list (option (list ascii) * list ascii)) :
  process (F := F) self iterable false
  = Return (map inl (concat (map (λ rec, get_kmers self rec.2) iterable))).
Proof.
  unfold process.
  rewrite (collect_map _ (λ rec, map inl (get_kmers self rec.2))).
  - rewrite bind_Return. f_equal.
    induction iterable as [|rec iterable IH]; [done|].
    cbn [map concat]. by rewrite map_app, IH.
  - apply Forall_true. intros rec. apply collect_map. by apply Forall_true.
Qed.

(** X21: without [ohe], [process] raises nothing; it yields
    [len(s) + 1 - k] k-mers for every sequence [s] (none when
    [k > len(s) + 1]), and every k-mer it yields has length [k]. *)
Theorem process_yields_every_kmer (self : Kmerize)
  (iterable : list (option (list ascii) * list ascii)) :
  ∃ kmers,
    process (F := F) self iterable false = Return (map inl kmers)
    ∧ Forall (λ kmer, length kmer = k self) kmers
    ∧ length kmers
      = list_sum (map (λ rec, length rec.2 + 1 - k self) iterable).
Proof.
  exists (concat (map (λ rec, get_kmers self rec.2) iterable)). split_and!.
  - apply process_plain.
  - induction iterable as [|rec iterable IH]; [constructor|].
    cbn [map concat]. apply Forall_app. split; [|done].
    apply get_kmers_lengths.
  - rewrite length_concat, map_map. f_equal.
    apply map_ext. intros rec. apply length_get_kmers.
Qed.

Lemma collect_Return_map {A B C : Type} (body : A → outcome B) (g : C → B)
  (l : list A) (ys : list C) :
  Forall2 (λ x y, body x = Return (g y)) l ys →
  collect body l = Return (map g ys).
Proof.
  intros Hl. apply collect_Return.
  induction Hl; cbn [map]; by constructor.
Qed.

Lemma collect_Return_or_Throw {A B : Type} (body : A → outcome B) (e : error)
  (l : list A) :
  Forall (λ x, body x = Throw e ∨ ∃ y, body x = Return y) l →
  collect body l = Throw e ∨ ∃ ys, collect body l = Return ys.
Proof.
  induction 1 as [|x l [Hx|[y Hx]] _ IH]; cbn [collect].
  - right. by eexists.
  - left. by rewrite Hx.
  - rewrite Hx, bind_Return. destruct IH as [->|[ys ->]]; [by left|].
    right. by eexists.
Qed.

Lemma process_encoded (self : Kmerize)
  (iterable : list (option (list ascii) * list ascii)) :
  process (F := F) self iterable true
  = (yielded ← collect (λ rec, collect (encode_kmer self)
                                 (get_kmers self rec.2)) iterable;
     Return (concat yielded)).
Proof. done. Qed.

Lemma encode_kmer_foreign (self : Kmerize) (kmer : list ascii) :
  Exists (λ c, c ∉ nucleotides) kmer →
  encode_kmer self kmer = Throw KeyError.
Proof.
  intros Hex. unfold encode_kmer.
  rewrite OneHotEncoding_given by apply Kmerize_lookup_nonempty.
  rewrite (collect_Throw _ KeyError); [done| |].
  - eapply Exists_impl; [exact Hex|]. intros c Hc. cbn beta.
    by rewrite Kmerize_lookup_foreign.
  - apply Forall_true. intros c.
    destruct (lookup self !! c) as [j|] eqn:Hj; [|by left].
    right. apply Kmerize_lookup_Some in Hj as [Hj _].
    rewrite Kmerize_size_lookup, one_hot_row_Return by done. by eexists.
Qed.

Lemma encode_kmer_Return_or_Throw (self : Kmerize) (kmer : list ascii) :
  encode_kmer self kmer = Throw KeyError ∨ ∃ y, encode_kmer self kmer = Return y.
Proof.
  destruct (decide (Exists (λ c, c ∉ nucleotides) kmer)) as [Hex|Hall].
  - left. by apply encode_kmer_foreign.
  - right. unfold encode_kmer.
    rewrite OneHotEncoding_given by apply Kmerize_lookup_nonempty.
    destruct (encode_rows (F := F) (lookup self) (size (lookup self)) kmer)
      as (ohe & -> & _); [|by eexists].
    apply not_Exists_Forall in Hall; [|solve_decision].
    eapply Forall_impl; [exact Hall|]. intros c Hc. cbn beta in Hc.
    apply dec_stable in Hc.
    destruct (Kmerize_lookup_nucleotide self c Hc) as [j Hj]. exists j.
    split; [done|]. rewrite Kmerize_size_lookup. by apply Kmerize_lookup_Some in Hj as [? _].
Qed.

(** X23: for [k >= 1], when some sequence of at least [k] letters holds a
    letter other than [A], [C], [T], [G] (an [N], a lower-case letter),
    [process] with [ohe] raises KeyError. *)
Theorem process_rejects_foreign_letter (self : Kmerize)
  (iterable : list (option (list ascii) * list ascii)) :
  1 ≤ k self →
  Exists (λ rec, k self ≤ length rec.2 ∧ ∃ c, c ∈ rec.2 ∧ c ∉ nucleotides)
    iterable →
  process (F := F) self iterable true = Throw KeyError.
Proof.
  intros Hk Hex. rewrite process_encoded.
  rewrite (collect_Throw _ KeyError); [done| |].
  - eapply Exists_impl; [exact Hex|].
    intros [header s] (Hlen & c & Hc & Hforeign). cbn [snd] in *.
    apply collect_Throw.
    + apply list_elem_of_lookup in Hc as [p Hp].
      pose proof (lookup_lt_Some _ _ _ Hp) as Hlt.
      apply Exists_exists.
      exists (slice (p `min` (length s - k self))
                (p `min` (length s - k self) + k self) s). split.
      * apply elem_of_get_kmers. eexists. split; [|done]. lia.
      * apply encode_kmer_foreign, Exists_exists. exists c. split; [|done].
        apply elem_of_slice. exists p. split; [done|lia].
    + apply Forall_true. intros kmer. apply encode_kmer_Return_or_Throw.
  - apply Forall_true. intros rec. apply collect_Return_or_Throw.
    apply Forall_true. intros kmer. apply encode_kmer_Return_or_Throw.
Qed.

Lemma encode_kmer_round_trip (self : Kmerize) (kmer : list ascii) :
  zero_below_one (F := F) →
  Forall (λ c, c ∈ nucleotides) kmer →
  ∃ v, encode_kmer self kmer = Return (inr (Flat v))
       ∧ length v = 4 * length kmer
       ∧ InverseOneHotEncoding v nucleotide_names = Return kmer.
Proof.
  intros Hord Hall. unfold encode_kmer.
  rewrite OneHotEncoding_given by apply Kmerize_lookup_nonempty.
  destruct (encode_rows (F := F) (lookup self) (size (lookup self)) kmer)
    as (ohe & -> & Hrows).
  { eapply Forall_impl; [exact Hall|]. intros c Hc.
    destruct (Kmerize_lookup_nucleotide self c Hc) as [j Hj]. exists j.
    split; [done|]. rewrite Kmerize_size_lookup. by apply Kmerize_lookup_Some in Hj as [? _]. }
  exists (concat ohe). split_and!; [done| |].
  - rewrite (length_concat_rows 4).
    + rewrite <-(Forall2_length _ _ _ Hrows). lia.
    + exact (unit_rows_shape
               (λ c j, lookup self !! c = Some j ∧ j < size (lookup self))
               _ _ _ ltac:(eapply Forall2_impl; [exact Hrows|];
                           intros ?? (j & ? & ? & ->); by exists j)).
  - replace (Return kmer) with (Return (concat (map (λ c, [c]) kmer))).
    2:{ f_equal. clear. induction kmer as [|c kmer IH]; [done|].
        cbn [map concat app]. by rewrite IH. }
    apply (decode_rows (K := ascii)); [done..|].
    eapply Forall2_impl; [exact Hrows|]. intros c row (j & Hj & _ & ->).
    exists j. by apply Kmerize_lookup_Some in Hj as [_ ?].
Qed.

(** X22: on sequences over [A], [C], [T], [G], and in an arithmetic where
    zero is below one, [process] with [ohe] yields one flat array of
    [4 * k] entries per k-mer, in the order of the k-mers, and
    [InverseOneHotEncoding] with the alphabet [A, C, T, G] gives the k-mer
    back from its array. *)
Theorem process_one_hot_round_trip (self : Kmerize)
  (iterable : list (option (list ascii) * list ascii)) :
  zero_below_one (F := F) →
  Forall (λ rec, Forall (λ c, c ∈ nucleotides) rec.2) iterable →
  ∃ encodings,
    process (F := F) self iterable true
    = Return (map (λ v, inr (Flat v)) encodings)
    ∧ Forall2 (λ kmer v,
                 length v = 4 * k self
                 ∧ InverseOneHotEncoding v nucleotide_names = Return kmer)
        (concat (map (λ rec, get_kmers self rec.2) iterable)) encodings.
Proof.
  intros Hord Hall. rewrite process_encoded.
  assert (∀ s, Forall (λ c, c ∈ nucleotides) s →
            ∃ vs, collect (encode_kmer self) (get_kmers self s)
                  = Return (map (λ v, inr (Flat v)) vs)
                  ∧ Forall2 (λ kmer v,
                       length v = 4 * k self
                       ∧ InverseOneHotEncoding v nucleotide_names = Return kmer)
                      (get_kmers self s) vs) as Hrec.
  { intros s Hs.
    assert (Forall (λ kmer, ∃ v, encode_kmer self kmer = Return (inr (Flat v))
                       ∧ length v = 4 * k self
                       ∧ InverseOneHotEncoding v nucleotide_names = Return kmer)
              (get_kmers self s)) as Hk.
    { apply Forall_forall. intros kmer Hkmer.
      destruct (encode_kmer_round_trip self kmer) as (v & Hv & Hlen & Hinv);
        [done| |].
      - apply elem_of_get_kmers in Hkmer as (i & _ & ->).
        apply Forall_forall. intros c (p & Hp & _)%elem_of_slice.
        rewrite Forall_forall in Hs. apply Hs.
        by eapply list_elem_of_lookup_2.
      - exists v. split_and!; [done| |done].
        pose proof (get_kmers_lengths self s) as Hl.
        rewrite Forall_forall in Hl. by rewrite Hlen, (Hl kmer). }
    apply Forall_exists_Forall2_l in Hk as [vs Hvs]. exists vs. split.
    - apply collect_Return_map. eapply Forall2_impl; [exact Hvs|].
      by intros ?? [? _].
    - eapply Forall2_impl; [exact Hvs|]. by intros ?? [_ ?]. }
  induction Hall as [|[header s] iterable Hs _ IH].
  - by exists [].
  - destruct IH as (encodings & Hcollect & Hdec).
    destruct (Hrec s Hs) as (vs & Hvs & Hvdec).
    exists (vs ++ encodings). split.
    + cbn [collect snd]. rewrite Hvs, bind_Return.
      destruct (collect _ iterable) as [yielded|e]; [|done].
      rewrite !bind_Return in *. injection Hcollect as Hcollect.
      cbn [concat]. by rewrite map_app, Hcollect.
    + cbn [map concat snd]. by apply Forall2_app.
Qed.
End Process.
End Kmers.


(** ** TrainTestSplit and SubsetData *)

Section Splits.
Import IO.
Context {A : Type}.

Lemma rows_at_Return (a : list A) (ind : list nat) :
  Forall (λ i, i < length a) ind →
  ∃ rows, rows_at a ind = Return rows
          ∧ Forall2 (λ i x, a !! i = Some x) ind rows.
Proof.
  intros Hind.
  assert (∃ rows, Forall2 (λ i x, a !! i = Some x) ind rows) as [rows Hrows].
  { apply Forall_exists_Forall2_l. eapply Forall_impl; [exact Hind|].
    intros i Hi. by apply lookup_lt_is_Some_2 in Hi as [x Hx]; exists x. }
  exists rows. split; [|done]. apply collect_Return.
  eapply Forall2_impl; [exact Hrows|]. intros i x Hx. unfold item.
  by rewrite Hx.
Qed.

Lemma omap_lookup_seq (pre a : list A) :
  omap (λ i, (pre ++ a) !! i) (seq (length pre) (length a)) = a.
Proof.
  revert pre. induction a as [|x a IH]; intros pre; [done|].
  cbn [length seq omap list_omap]. rewrite list_lookup_middle by done.
  f_equal. specialize (IH (pre ++ [x])).
  rewrite length_app, <-(assoc_L (++)) in IH. cbn [length app] in IH.
  by rewrite Nat.add_1_r in IH.
Qed.

Lemma rows_of_shuffled (a : list A) (shuffled : list nat) (rows : list A) :
  shuffled ≡ₚ seq 0 (length a) →
  Forall2 (λ i x, a !! i = Some x) shuffled rows →
  rows ≡ₚ a.
Proof.
  intros Hperm Hrows.
  assert (rows = omap (λ i, a !! i) shuffled) as ->.
  { clear Hperm. induction Hrows as [|i x shuffled' rows Hx _ IH]; [done|].
    cbn [omap list_omap]. rewrite Hx. f_equal. done. }
  rewrite Hperm. pose proof (omap_lookup_seq [] a) as Hseq.
  cbn [app length] in Hseq. by rewrite Hseq.
Qed.

Lemma shuffled_in_range (n : nat) (shuffled : list nat) :
  shuffled ≡ₚ seq 0 n → Forall (λ i, i < n) shuffled.
Proof.
  intros Hperm. apply Forall_forall. intros i Hi.
  rewrite Hperm in Hi. apply elem_of_seq in Hi. lia.
Qed.

Lemma split_dataset (a : list A) (shuffled : list nat) (c : nat) :
  shuffled ≡ₚ seq 0 (length a) →
  ∃ train test,
    collect (rows_at a) [take c shuffled; drop c shuffled]
    = Return [train; test]
    ∧ length train = c `min` length a
    ∧ Forall2 (λ i x, a !! i = Some x) shuffled (train ++ test)
    ∧ train ++ test ≡ₚ a.
Proof.
  intros Hperm. pose proof (shuffled_in_range _ _ Hperm) as Hrange.
  destruct (rows_at_Return a (take c shuffled)) as (train & Htrain & Htr).
  { by apply Forall_take. }
  destruct (rows_at_Return a (drop c shuffled)) as (test & Htest & Hte).
  { by apply Forall_drop. }
  assert (Forall2 (λ i x, a !! i = Some x) shuffled (train ++ test)) as Hall.
  { rewrite <-(take_drop c shuffled). by apply Forall2_app. }
  exists train, test. split_and!.
  - cbn [collect]. by rewrite Htrain, bind_Return, Htest.
  - rewrite <-(Forall2_length _ _ _ Htr), length_take.
    apply Permutation_length in Hperm. rewrite length_seq in Hperm. lia.
  - done.
  - by eapply rows_of_shuffled.
Qed.

(** X28: for one or more datasets of [n] rows each, a shuffle of
    [0 .. n-1] and [pos = int(n * train_size)], [TrainTestSplit] yields a
    train and a test part per dataset, in the order of the datasets.  The
    train part has [pos] rows (cut as a slice cuts: at most [n], counted
    from the end when [pos] is negative).  Row [t] of train followed by
    test is the row of the dataset at the [t]-th shuffled index, so the
    rows of the datasets stay paired, and train and test together are a
    rearrangement of the dataset. *)
Theorem TrainTestSplit_keeps_rows_aligned (args : list (list A))
  (train_size : float) (shuffled : list nat) (n : nat) (pos : Z) :
  args ≠ [] →
  Forall (λ a, length a = n) args →
  shuffled ≡ₚ seq 0 n →
  int_of_float (PrimFloat.mul (Float64.of_nat n) train_size) = Return pos →
  ∃ splits,
    TrainTestSplit args train_size shuffled = Return (concat splits)
    ∧ Forall2 (λ a split, ∃ train test,
                 split = [train; test]
                 ∧ length train = cut pos n `min` n
                 ∧ Forall2 (λ i x, a !! i = Some x) shuffled (train ++ test)
                 ∧ train ++ test ≡ₚ a) args splits.
Proof.
  intros Hne Hsizes Hperm Hpos.
  assert (length shuffled = n) as Hlen.
  { apply Permutation_length in Hperm. by rewrite length_seq in Hperm. }
  assert (∃ splits, Forall2 (λ a split, ∃ train test,
             collect (rows_at a) [take (cut pos n) shuffled;
                                  drop (cut pos n) shuffled] = Return split
             ∧ split = [train; test]
             ∧ length train = cut pos n `min` n
             ∧ Forall2 (λ i x, a !! i = Some x) shuffled (train ++ test)
             ∧ train ++ test ≡ₚ a) args splits) as [splits Hsplits].
  { apply Forall_exists_Forall2_l. eapply Forall_impl; [exact Hsizes|].
    intros a Ha. cbn beta in Ha.
    destruct (split_dataset a shuffled (cut pos n))
      as (train & test & Hc & Htr & Hall & Hp); [by rewrite Ha|].
    rewrite Ha in Htr. by exists [train; test], train, test. }
  exists splits. split.
  - unfold TrainTestSplit. destruct args as [|a args]; [done|].
    cbn [map]. apply Forall_cons in Hsizes as [Ha Hsizes]. rewrite Ha.
    rewrite decide_True.
    2:{ clear -Hsizes. induction Hsizes; cbn [map]; by constructor. }
    rewrite Hpos, bind_Return, Hlen.
    assert (collect (λ a0, collect (rows_at a0)
                             [take (cut pos n) shuffled;
                              drop (cut pos n) shuffled]) (a :: args)
            = Return splits) as ->; [|done].
    apply collect_Return. eapply Forall2_impl; [exact Hsplits|].
    by intros ?? (? & ? & ? & _).
  - eapply Forall2_impl; [exact Hsplits|].
    intros a split (train & test & _ & ?). by exists train, test.
Qed.

(** X20: called without a dataset, or with two datasets of different
    numbers of rows, [TrainTestSplit] raises AssertionError, whatever the
    fraction and the shuffle. *)
Theorem TrainTestSplit_checks_sizes (args : list (list A))
  (train_size : float) (shuffled : list nat) :
  (∃ a b, a ∈ args ∧ b ∈ args ∧ length a ≠ length b) ∨ args = [] →
  TrainTestSplit args train_size shuffled = Throw AssertionError.
Proof.
  intros [(a & b & Ha & Hb & Hab)| ->]; [|done].
  unfold TrainTestSplit. destruct args as [|x args]; [done|]. cbn [map].
  rewrite decide_False; [done|]. intros Hall.
  assert (∀ y, y ∈ x :: args → length y = length x) as Hsame.
  { intros y [->|Hy]%elem_of_cons; [done|].
    rewrite Forall_forall in Hall. apply Hall.
    apply list_elem_of_In, in_map, list_elem_of_In. done. }
  rewrite (Hsame a Ha), (Hsame b Hb) in Hab. done.
Qed.

(** X29: for a shuffle of the row indices, [SubsetData(data, n)] returns
    [min(n, len(data))] rows for [n >= 0], and all but the last [-n] rows
    of the shuffle for [n < 0]; the rows it returns are rows of [data],
    none taken twice: with the rows left out they rearrange [data]. *)
Theorem SubsetData_samples_without_replacement (data : list A) (n : Z)
  (shuffled : list nat) :
  shuffled ≡ₚ seq 0 (length data) →
  ∃ rows rest,
    SubsetData data n shuffled = Return rows
    ∧ length rows = (if (n <? 0)%Z then length data - Z.to_nat (- n)
                     else Z.to_nat n `min` length data)
    ∧ rows ++ rest ≡ₚ data.
Proof.
  intros Hperm.
  assert (length shuffled = length data) as Hlen.
  { apply Permutation_length in Hperm. by rewrite length_seq in Hperm. }
  destruct (split_dataset data shuffled (cut n (length shuffled)) Hperm)
    as (rows & rest & Hc & Htr & _ & Hp).
  exists rows, rest. split_and!; [|rewrite Htr|done].
  - unfold SubsetData. cbn [collect] in Hc.
    destruct (rows_at data (take _ shuffled)) as [rows'|e]; [|done].
    rewrite bind_Return in Hc.
    destruct (rows_at data (drop _ shuffled)) as [rest'|e]; [|done].
    rewrite bind_Return in Hc. by injection Hc as -> _.
  - rewrite Hlen. unfold cut. destruct (n <? 0)%Z eqn:Hn; [|done].
    apply Z.ltb_lt in Hn. lia.
Qed.
End Splits.


(** ** norm *)

Section NormFacts.
Import IO.
Open Scope R_scope.

Lemma fold_left_Rmin_least (a : R) (l : list R) :
  least (fold_left Rmin l a) (a :: l).
Proof.
  revert a. induction l as [|x l IH]; intros a.
  - split; [left|]. apply Forall_cons; split; [cbn; lra|apply Forall_nil; done].
  - cbn [fold_left]. destruct (IH (Rmin a x)) as [Hin Hle]. split.
    + apply elem_of_cons in Hin as [->|Hin].
      * unfold Rmin. destruct (Rle_dec a x); [left|right; left].
      * right; by right.
    + apply Forall_cons in Hle as [Hm Hle].
      pose proof (Rmin_l a x). pose proof (Rmin_r a x).
      apply Forall_cons; split; [lra|]. apply Forall_cons; split; [lra|done].
Qed.

Lemma fold_left_Rmax_greatest (a : R) (l : list R) :
  greatest (fold_left Rmax l a) (a :: l).
Proof.
  revert a. induction l as [|x l IH]; intros a.
  - split; [left|]. apply Forall_cons; split; [cbn; lra|apply Forall_nil; done].
  - cbn [fold_left]. destruct (IH (Rmax a x)) as [Hin Hle]. split.
    + apply elem_of_cons in Hin as [->|Hin].
      * unfold Rmax. destruct (Rle_dec a x); [right; left|left].
      * right; by right.
    + apply Forall_cons in Hle as [Hm Hle].
      pose proof (Rmax_l a x). pose proof (Rmax_r a x).
      apply Forall_cons; split; [lra|]. apply Forall_cons; split; [lra|done].
Qed.

Lemma least_unique (lo lo' : R) (v : list R) :
  least lo v → least lo' v → lo = lo'.
Proof.
  intros [Hin Hle] [Hin' Hle']. rewrite Forall_forall in Hle, Hle'.
  apply Hle in Hin'. apply Hle' in Hin. lra.
Qed.

Lemma greatest_unique (hi hi' : R) (v : list R) :
  greatest hi v → greatest hi' v → hi = hi'.
Proof.
  intros [Hin Hle] [Hin' Hle']. rewrite Forall_forall in Hle, Hle'.
  apply Hle in Hin'. apply Hle' in Hin. lra.
Qed.

Lemma np_min_least (v : list R) :
  v ≠ [] → ∃ lo, np_min v = Return lo ∧ least lo v.
Proof.
  destruct v as [|a l]; [done|]. intros _. eexists. split; [done|].
  apply fold_left_Rmin_least.
Qed.

Lemma np_max_greatest (v : list R) :
  v ≠ [] → ∃ hi, np_max v = Return hi ∧ greatest hi v.
Proof.
  destruct v as [|a l]; [done|]. intros _. eexists. split; [done|].
  apply fold_left_Rmax_greatest.
Qed.

Lemma greatest_shift (d hi : R) (v : list R) :
  greatest hi v → greatest (hi + d) (map (λ x, x + d) v).
Proof.
  intros [Hin Hle]. split.
  - apply list_elem_of_In, in_map_iff. exists hi. split; [done|].
    by apply list_elem_of_In.
  - apply Forall_forall. intros y Hy.
    apply list_elem_of_In, in_map_iff in Hy as (x & <- & Hx).
    rewrite Forall_forall in Hle. apply list_elem_of_In, Hle in Hx. lra.
Qed.

(** *** Columns of an updated array *)

Lemma column_update_other (i j : nat) (g : R → R) (m : Mat R) :
  i ≠ j → column j (update_column i g m) = column j m.
Proof.
  intros Hij. unfold column, update_column. rewrite map_map.
  apply map_ext. intros row.
  rewrite !nth_lookup. rewrite list_lookup_alter, decide_False by done. done.
Qed.

Lemma column_update_same (i c : nat) (g : R → R) (m : Mat R) :
  (i < c)%nat → Forall (λ row, length row = c) m →
  column i (update_column i g m) = map g (column i m).
Proof.
  intros Hi Hm. unfold column, update_column. rewrite !map_map.
  apply map_ext_Forall. eapply Forall_impl; [exact Hm|].
  intros row Hrow. cbn beta in *. rewrite !nth_lookup, list_lookup_alter.
  destruct (lookup_lt_is_Some_2 row i) as [x Hx]; [lia|].
  rewrite decide_True by done. by rewrite Hx.
Qed.

Lemma update_column_shape (r c i : nat) (g : R → R) (m : Mat R) :
  has_shape r c m → has_shape r c (update_column i g m).
Proof.
  intros [Hr Hc]. split; unfold update_column.
  - by rewrite length_map.
  - apply Forall_forall. intros row Hrow.
    apply list_elem_of_In, in_map_iff in Hrow as (row' & <- & Hrow').
    rewrite length_alter. rewrite Forall_forall in Hc.
    by apply Hc, list_elem_of_In.
Qed.

Lemma length_column (j : nat) (m : Mat R) : length (column j m) = length m.
Proof. unfold column. by rewrite length_map. Qed.

Lemma column_lookup (r c i j : nat) (m : Mat R) :
  has_shape r c m → (j < c)%nat → mentry m i j = column j m !! i.
Proof.
  intros [_ Hc] Hj. unfold mentry, column.
  change (map (λ r0, nth j r0 fzero) m) with ((λ r0, nth j r0 fzero) <$> m).
  rewrite list_lookup_fmap. destruct (m !! i) as [row|] eqn:Hrow; [|done].
  cbn. rewrite Forall_forall in Hc.
  apply list_elem_of_lookup_2, Hc in Hrow.
  destruct (lookup_lt_is_Some_2 row j) as [x Hx]; [lia|].
  rewrite Hx. by rewrite (nth_lookup_Some _ _ _ _ Hx).
Qed.

Lemma each_seq_invariant {St : Type} (body : nat → St → outcome St)
  (Inv : nat → St → Prop) (n : nat) (s : St) :
  (∀ t st, (t < n)%nat → Inv t st →
     ∃ st', body t st = Return st' ∧ Inv (S t) st') →
  Inv 0%nat s →
  ∃ s', each body (seq 0 n) s = Return s' ∧ Inv n s'.
Proof.
  intros Hstep.
  assert (∀ len start st, (start + len = n)%nat → Inv start st →
            ∃ s', each body (seq start len) st = Return s' ∧ Inv n s')
    as Hloop.
  { induction len as [|len IH]; intros start st Hn Hinv.
    - exists st. split; [done|]. by replace n with start by lia.
    - cbn [seq each].
      destruct (Hstep start st) as (st' & -> & Hinv'); [lia|done|].
      rewrite bind_Return. apply IH; [lia|done]. }
  intros Hinv. by apply Hloop.
Qed.

Lemma norm_column_step (X : Mat R) (r c t : nat) (M : Mat R) :
  has_shape r c X → (1 ≤ r)%nat → (t < c)%nat →
  norm_inv X r c t M →
  ∃ M', norm_column X t M = Return M' ∧ norm_inv X r c (S t) M'.
Proof.
  intros [HXr HXc] Hr Ht [Hshape Hcols].
  assert (column t X ≠ []) as Hne.
  { intros Hnil. apply (f_equal length) in Hnil.
    rewrite length_column in Hnil. cbn in Hnil. lia. }
  destruct (np_min_least _ Hne) as (lo & Hmin & Hlo).
  destruct (np_max_greatest _ Hne) as (hi & _ & Hhi).
  destruct (Hcols t Ht) as [Hsame _]. specialize (Hsame (le_n t)).
  set (M1 := update_column t (λ v, fadd v (fabs lo)) M).
  assert (column t M1 = map (λ x, x + Rabs lo) (column t X)) as Hcol1.
  { unfold M1. rewrite (column_update_same t c) by (done || apply Hshape).
    by rewrite Hsame. }
  assert (np_max (column t M1) = Return (hi + Rabs lo)) as Hmax.
  { destruct (np_max_greatest (column t M1)) as (hi1 & -> & Hhi1).
    - rewrite Hcol1. intros Hnil. apply (f_equal length) in Hnil.
      rewrite length_map in Hnil. destruct (column t X); [done|discriminate].
    - f_equal. rewrite Hcol1 in Hhi1.
      eapply greatest_unique; [exact Hhi1|]. by apply greatest_shift. }
  exists (update_column t (λ v, fdiv v (hi + Rabs lo)) M1). split.
  - unfold norm_column. rewrite Hmin, bind_Return. fold M1.
    by rewrite Hmax, bind_Return.
  - split; [by apply update_column_shape, update_column_shape|].
    intros j Hj. split.
    + intros Hle. rewrite column_update_other by lia.
      unfold M1. rewrite column_update_other by lia.
      apply (Hcols j Hj). lia.
    + intros Hlt lo' hi' Hlo' Hhi'.
      destruct (decide (j = t)) as [->|Hne'].
      * rewrite (column_update_same t c);
          [|done|by apply (update_column_shape r c), Hshape].
        rewrite Hcol1, map_map.
        rewrite (least_unique _ _ _ Hlo' Hlo), (greatest_unique _ _ _ Hhi' Hhi).
        done.
      * rewrite column_update_other by lia.
        unfold M1. rewrite column_update_other by lia.
        apply (Hcols j Hj); [lia|done..].
Qed.

Lemma rescaled_bounds (lo hi x y z : R) :
  lo <= x <= hi → lo <= y <= hi → lo <= z <= hi → 0 < y ∨ y ≠ z →
  0 <= (x + Rabs lo) / (hi + Rabs lo) <= 1.
Proof.
  intros Hx Hy Hz Hpos.
  assert (0 <= Rabs lo) by apply Rabs_pos.
  assert (- lo <= Rabs lo).
  { rewrite <-Rabs_Ropp. apply Rle_abs. }
  assert (0 < hi + Rabs lo) as Hden.
  { destruct Hpos as [Hpos|Hne]; [lra|].
    destruct (Rtotal_order y z) as [?|[?|?]]; lra. }
  split.
  - apply Rmult_le_pos; [lra|]. left. by apply Rinv_0_lt_compat.
  - apply (Rmult_le_reg_r (hi + Rabs lo)); [done|].
    unfold Rdiv. rewrite Rmult_assoc, Rinv_l by lra. lra.
Qed.

(** X30: over the reals, for an array of [r] rows and [c] columns in which
    no column is constant at a value that is not positive, [norm] returns
    an array of the same shape.  Its entry for [x] in a column with least
    entry [lo] and greatest entry [hi] is [(x + |lo|) / (hi + |lo|)],
    which lies between 0 and 1. *)
Theorem norm_rescales_columns (X : Mat R) (r c : nat) :
  has_shape r c X →
  (∀ j, (j < c)%nat →
     ∃ y z, y ∈ column j X ∧ z ∈ column j X ∧ (0 < y ∨ y ≠ z)) →
  ∃ N,
    norm X = Return N
    ∧ has_shape r c N
    ∧ ∀ i j x, mentry X i j = Some x →
        ∃ lo hi,
          least lo (column j X) ∧ greatest hi (column j X)
          ∧ mentry N i j = Some ((x + Rabs lo) / (hi + Rabs lo))
          ∧ 0 <= (x + Rabs lo) / (hi + Rabs lo) <= 1.
Proof.
  intros HX Hcols. destruct X as [|row0 X'] eqn:HeqX.
  { exists []. split_and!; [done..|]. intros i j x Hx.
    unfold mentry in Hx. by rewrite lookup_nil in Hx. }
  rewrite <-HeqX in *.
  assert (1 ≤ r)%nat as Hr.
  { destruct HX as [<- _]. rewrite HeqX. cbn. lia. }
  assert (ncols X = c) as Hc.
  { destruct HX as [_ HX]. rewrite HeqX in HX |- *.
    by apply Forall_cons in HX as [? _]. }
  destruct (each_seq_invariant (norm_column X) (norm_inv X r c) c X)
    as (N & HN & [HNshape HNcols]).
  { intros t M Ht Hinv. by apply (norm_column_step X r c). }
  { split; [done|]. intros j Hj. split; [done|lia]. }
  exists N. split_and!; [unfold norm; by rewrite Hc|done|].
  intros i j x Hx.
  assert (j < c)%nat as Hj.
  { unfold mentry in Hx. destruct (X !! i) as [row|] eqn:Hrow; [|done].
    cbn in Hx. destruct HX as [_ HX]. rewrite Forall_forall in HX.
    apply list_elem_of_lookup_2, HX in Hrow.
    apply lookup_lt_Some in Hx. lia. }
  assert (column j X ≠ []) as Hne.
  { intros Hnil. apply (f_equal length) in Hnil.
    rewrite length_column in Hnil. destruct HX as [HXr _]. cbn in Hnil. lia. }
  destruct (np_min_least _ Hne) as (lo & _ & Hlo).
  destruct (np_max_greatest _ Hne) as (hi & _ & Hhi).
  exists lo, hi. split; [done|]. split; [done|]. split.
  - rewrite (column_lookup r c) by done.
    destruct (HNcols j Hj) as [_ Hscaled].
    rewrite (Hscaled Hj lo hi Hlo Hhi).
    change (map ?g ?l) with (g <$> l). rewrite list_lookup_fmap.
    rewrite <-(column_lookup r c) by done. by rewrite Hx.
  - destruct (Hcols j Hj) as (y & z & Hy & Hz & Hpos).
    rewrite (column_lookup r c) in Hx by done.
    apply list_elem_of_lookup_2 in Hx.
    destruct Hlo as [_ Hlo]. destruct Hhi as [_ Hhi].
    rewrite Forall_forall in Hlo, Hhi.
    apply (rescaled_bounds lo hi x y z); [split; auto..|done].
Qed.
End NormFacts.


(** ** Witnesses for the utilities *)

(** Closed decidable facts, by evaluation. *)
Ltac by_evaluation :=
  match goal with
  | |- ?P => apply (bool_decide_unpack P); vm_compute; exact I
  end.

(** The comparisons of zero and one in binary64. *)
Lemma float_zero_below_one : zero_below_one (F := float).
Proof. repeat split; reflexivity. Qed.

(** X19, witness: a file of a stray line, a header line and a sequence
    line. *)
Lemma FastaReader_reads_records_witness :
  IO.FastaReader_iter
    [["A"]; [">"; "s"; " "]; ["C"; "G"; " "]; [" "; "T"]]%char
  = [(Some [">"; "s"]%char, ["C"; "G"; "T"]%char)].
Proof.
  apply (FastaReader_reads_records [["A"]]%char
           [([">"; "s"; " "], [["C"; "G"; " "]; [" "; "T"]])]%char);
    by_evaluation.
Defined.

(** X20, witness: datasets of two rows and of one row. *)
Lemma TrainTestSplit_checks_sizes_witness :
  IO.TrainTestSplit [[1; 2]; [3]] 0.5%float [1; 0] = IO.Throw IO.AssertionError.
Proof.
  apply (TrainTestSplit_checks_sizes [[1; 2]; [3]] 0.5%float [1; 0]).
  left. exists [1; 2], [3]. split; [|split].
  - by_evaluation.
  - by_evaluation.
  - discriminate.
Defined.

(** X22, witness: the 2-mers of [ACG], over binary64. *)
Lemma process_one_hot_round_trip_witness :
  ∃ encodings,
    IO.process (F := float) {| IO.k := 2 |} [(None, ["A"; "C"; "G"]%char)] true
    = IO.Return (map (λ v, inr (IO.Flat v)) encodings)
    ∧ Forall2 (λ kmer v,
                 length v = 4 * 2
                 ∧ IO.InverseOneHotEncoding v nucleotide_names = IO.Return kmer)
        [["A"; "C"]; ["C"; "G"]]%char encodings.
Proof.
  apply (process_one_hot_round_trip (F := float) {| IO.k := 2 |}
           [(None, ["A"; "C"; "G"]%char)]).
  - apply float_zero_below_one.
  - by_evaluation.
Defined.

(** X23, witness: a sequence with the letter [N]. *)
Lemma process_rejects_foreign_letter_witness :
  IO.process (F := float) {| IO.k := 2 |} [(None, ["A"; "N"; "G"]%char)] true
  = IO.Throw IO.KeyError.
Proof.
  apply (process_rejects_foreign_letter (F := float) {| IO.k := 2 |}
           [(None, ["A"; "N"; "G"]%char)]).
  - cbn. lia.
  - apply Exists_cons_hd. split; [cbn; lia|].
    exists "N"%char. split; by_evaluation.
Defined.


(** X25, witness: the second label is missing from the dictionary. *)
Lemma OneHotEncoding_first_bad_label_witness :
  IO.OneHotEncoding (F := float) Nat.le ([7] ++ 8 :: [7])
    (Some (<[7:=0]> ∅)) false
  = IO.Throw IO.KeyError.
Proof.
  assert (<[7:=0]> (∅ : gmap nat nat) !! 8 = None) as Hmiss by reflexivity.
  pose proof (OneHotEncoding_first_bad_label (F := float) Nat.le
                (<[7:=0]> ∅) [7] 8 [7] false) as Hbad.
  rewrite Hmiss in Hbad. apply Hbad.
  - apply insert_non_empty.
  - apply Forall_cons. split; [|apply Forall_nil; exact I].
    exists 0. split; [reflexivity|]. vm_compute. lia.
  - exact I.
Defined.


(** X27, witness: five entries against an alphabet of two names. *)
Lemma InverseOneHotEncoding_decodes_whole_rows_witness :
  (5 `mod` 2 ≠ 0 →
   IO.InverseOneHotEncoding [1; 0; 0; 1; 1]%float [["a"]; ["b"]]%char
   = IO.Throw IO.ValueError)
  ∧ (5 `mod` 2 = 0 →
     ∃ chosen,
       IO.InverseOneHotEncoding [1; 0; 0; 1; 1]%float [["a"]; ["b"]]%char
       = IO.Return (concat chosen)
       ∧ length chosen = 5 / 2
       ∧ Forall (λ a, a ∈ [["a"]; ["b"]]%char) chosen).
Proof.
  apply (InverseOneHotEncoding_decodes_whole_rows
           [1; 0; 0; 1; 1]%float [["a"]; ["b"]]%char).
  discriminate.
Defined.

(** X28, witness: two datasets of two rows, split in halves. *)
Lemma TrainTestSplit_keeps_rows_aligned_witness :
  ∃ splits,
    IO.TrainTestSplit [[10; 11]; [20; 21]] 0.5%float [1; 0]
    = IO.Return (concat splits)
    ∧ Forall2 (λ a split, ∃ train test,
                 split = [train; test]
                 ∧ length train = IO.cut 1 2 `min` 2
                 ∧ Forall2 (λ i x, a !! i = Some x) [1; 0] (train ++ test)
                 ∧ train ++ test ≡ₚ a) [[10; 11]; [20; 21]] splits.
Proof.
  apply (TrainTestSplit_keeps_rows_aligned [[10; 11]; [20; 21]] 0.5%float
           [1; 0] 2 1%Z).
  - discriminate.
  - repeat (apply Forall_cons; split; [reflexivity|]). apply Forall_nil. exact I.
  - apply perm_swap.
  - reflexivity.
Defined.

(** X29, witness: two of three rows. *)
Lemma SubsetData_samples_without_replacement_witness :
  ∃ rows rest,
    IO.SubsetData [10; 11; 12] 2 [2; 0; 1] = IO.Return rows
    ∧ length rows = Z.to_nat 2 `min` 3
    ∧ rows ++ rest ≡ₚ [10; 11; 12].
Proof.
  apply (SubsetData_samples_without_replacement [10; 11; 12] 2 [2; 0; 1]).
  cbn. etrans; [apply perm_swap|]. apply perm_skip, perm_swap.
Defined.

(** X30, witness: an array of two rows and two columns. *)
Lemma norm_rescales_columns_witness :
  ∃ N,
    IO.norm [[1; -2]; [3; 2]]%R = IO.Return N
    ∧ has_shape 2 2 N
    ∧ ∀ i j x, mentry [[1; -2]; [3; 2]]%R i j = Some x →
        ∃ lo hi,
          least lo (column j [[1; -2]; [3; 2]]%R)
          ∧ greatest hi (column j [[1; -2]; [3; 2]]%R)
          ∧ mentry N i j = Some ((x + Rabs lo) / (hi + Rabs lo))%R
          ∧ (0 <= (x + Rabs lo) / (hi + Rabs lo) <= 1)%R.
Proof.
  apply (norm_rescales_columns [[1; -2]; [3; 2]]%R 2 2).
  - split; [reflexivity|]. repeat (apply Forall_cons; split; [reflexivity|]).
    apply Forall_nil. exact I.
  - intros j Hj. destruct j as [|[|j]]; [| |lia].
    + exists 1%R, 1%R. cbn. split; [left|]. split; [left|]. left. lra.
    + exists 2%R, 2%R. cbn. split; [right; left|]. split; [right; left|].
      left. lra.
Defined.
